(** * sd-webui: queue processor and model downloader

    A shallow embedding of two pieces of the backend:

    - the queue processor [services/queueProcessor.js]: the parameters its
      three handlers build for the engine call from a job row (module
      [Steps]); its module-level state, the synchronous segments of
      [processQueue] and of the handlers between two [await]s, and the
      event loop that interleaves them (module [QueueProcessor]); and its
      timer, with [startQueueProcessor], [stopQueueProcessor] and
      [getCurrentJob] (module [QueueControl]);
    - the download service [backend/services/modelDownloader.js] (module
      [Downloader]): the in-memory job table, the files and directories it
      touches and the requests it issues; and, in module
      [DownloadService], the house-keeping of the job table, the cancel
      route of the server, [downloadFile] from its call to the settling of
      its promise, [downloadModel], [getAllJobs] and the formatting of
      times.

    JavaScript numbers that hold byte counts and timestamps are integers
    ([Z]); progress values and the numbers of a job row are exact
    rationals ([Q]). *)

From Stdlib Require Import ZArith QArith Qround Lia Bool Ascii.
From Stdlib Require Import Strings.Byte.
From stdpp Require Import gmap strings list fin_maps pretty.

#[local] Open Scope string_scope.
#[local] Open Scope list_scope.
#[local] Open Scope Z_scope.

(* ===================================================================== *)
(** * The parameters the queue processor hands to the engine             *)
(* ===================================================================== *)

Module Steps.

(** A value of a column of a job row, or of a key of an object built from
    them. *)
Inductive JsValue : Type :=
| JsUndefined
| JsNull
| JsBool (b : bool)
| JsNumber (n : Q)
| JsString (s : string).

(** The truth of a value under [? :] and [||]. *)
Definition truthy (v : JsValue) : bool :=
  match v with
  | JsUndefined | JsNull => false
  | JsBool b => b
  | JsNumber n => negb (Qeq_bool n 0)
  | JsString s => negb (bool_decide (s = ""))
  end.






Section Handlers.

(** [parseInt], which the model leaves uninterpreted. *)
Variable parseInt : JsValue → JsValue.







End Handlers.

(** ** Vocabulary of the statements *)




End Steps.

(* ===================================================================== *)
(** * The queue processor                                                *)
(* ===================================================================== *)

Module QueueProcessor.

Inductive Status : Type :=
| pending
| processing
| completed
| failed
| cancelled.

#[global] Instance Status_eq_dec : EqDecision Status.
Proof. solve_decision. Defined.

(** A row of the queue table, with the columns the processor reads or
    writes. *)
Record Job : Type := mkJob {
  job_id : string;
  job_type : string;
  job_model : string;
  job_prompt : string;
  job_status : Status;
  job_progress : Q;
  job_error : option string;
  job_generation_id : option string;
  job_created_at : Z;
}.

(** The optional third argument of [updateJobStatus]. *)
Record Extras : Type := mkExtras {
  generation_id : option string;
  error : option string;
}.

Definition no_extras : Extras := mkExtras None None.

(** The two writes the processor issues against the job store. *)
Inductive StoreCall : Type :=
| CallStatus (id : string) (status : Status) (extras : Extras)
| CallProgress (id : string) (progress : Q).

Definition call_id (c : StoreCall) : string :=
  match c with
  | CallStatus id _ _ => id
  | CallProgress id _ => id
  end.

(** Modelled from the spec: what a status write does to the row it
    meets: the status and the given extras are stored, and "[completed]
    implies final progress = 1.0" (§8), so a row set [completed] has its
    progress set to 1; any other write leaves the progress alone. *)
Definition with_status (st : Status) (ex : Extras) (j : Job) : Job :=
  {| job_id := job_id j; job_type := job_type j; job_model := job_model j;
     job_prompt := job_prompt j; job_status := st;
     job_progress := if decide (st = completed) then 1 else job_progress j;
     job_error := match error ex with Some e => Some e | None => job_error j end;
     job_generation_id :=
       match generation_id ex with
       | Some g => Some g
       | None => job_generation_id j
       end;
     job_created_at := job_created_at j |}.

Definition with_progress (p : Q) (j : Job) : Job :=
  {| job_id := job_id j; job_type := job_type j; job_model := job_model j;
     job_prompt := job_prompt j; job_status := job_status j;
     job_progress := p; job_error := job_error j;
     job_generation_id := job_generation_id j;
     job_created_at := job_created_at j |}.

(** The effect of one write on one row. *)
Definition row_call (c : StoreCall) (j : Job) : Job :=
  match c with
  | CallStatus id st ex =>
      if decide (job_id j = id) then with_status st ex j else j
  | CallProgress id p =>
      if decide (job_id j = id) then with_progress p j else j
  end.

(** Modelled from the spec: [updateJobStatus] of [db/queueQueries.js], which
    is not among the sources: [set_status(id, status, extras)] (§4.3)
    writes the status and the given extras of the row with that id. *)
Definition updateJobStatus (id : string) (st : Status) (ex : Extras)
    (rows : list Job) : list Job :=
  row_call (CallStatus id st ex) <$> rows.

(** Modelled from the spec: [updateJobProgress] of [db/queueQueries.js],
    which is not among the sources: [set_progress(id, p)] (§4.3). *)
Definition updateJobProgress (id : string) (p : Q) (rows : list Job)
  : list Job :=
  row_call (CallProgress id p) <$> rows.

Definition store_call (c : StoreCall) (rows : list Job) : list Job :=
  match c with
  | CallStatus id st ex => updateJobStatus id st ex rows
  | CallProgress id p => updateJobProgress id p rows
  end.

(** Modelled from the spec: [getNextPendingJob] of [db/queueQueries.js],
    which is not among the sources: "oldest [pending] job by [created_at],
    or null" (§4.3); among equally old rows the first of the table. *)
Fixpoint getNextPendingJob (rows : list Job) : option Job :=
  match rows with
  | [] => None
  | j :: rest =>
      match getNextPendingJob rest with
      | Some b =>
          if decide (job_status j = pending) then
            if job_created_at j <=? job_created_at b then Some j else Some b
          else Some b
      | None => if decide (job_status j = pending) then Some j else None
      end
  end.

(** A thrown [Error]; the processor only reads its [message]. *)
Record Error : Type := mkError { message : string }.

(** One element of [response.data]. *)
Record ImageData : Type := mkImageData {
  b64_json : option string;
  revised_prompt : option string;
}.

(** What [generateImageDirect] resolves to. *)
Record Response : Type := mkResponse {
  data : option (list ImageData);
}.

(** How an awaited promise settles.  Only the engine call's value is read;
    it may be [undefined]. *)
Inductive Settled : Type :=
| Resolved (value : option Response)
| Rejected (e : Error).

(** The [await]s of the three handlers, with the locals that are live
    across each of them. *)
Inductive Await : Type :=
| AwaitGenerateImageDirect (mode : string)
| AwaitCreateGeneration (mode : string) (generationId : string)
    (response : option Response)
| AwaitCreateGeneratedImage (generationId : string)
    (images : list ImageData) (i : nat).

(** How a synchronous stretch of a handler ends. *)
Inductive Segment : Type :=
| Suspends (at_ : Await)
| Returns (generationId : string)
| Throws (e : Error).

(** A call of [processQueue] that is parked on an [await]. *)
Record Invocation : Type := mkInvocation {
  inv_no : nat;
  inv_job : Job;
  inv_at : Await;
}.

(** One store write as it happened: which call of [processQueue] issued it
    and the table right after it. *)
Record Snapshot : Type := mkSnapshot {
  snap_by : nat;
  snap_call : StoreCall;
  snap_store : list Job;
}.

(** The module state ([isProcessing], [currentJob]), the job store, the
    parked calls, and two ghost fields: the number of calls of
    [processQueue] so far and the chronological record of store writes. *)
Record Sys : Type := mkSys {
  store : list Job;
  isProcessing : bool;
  currentJob : option Job;
  awaiting : list Invocation;
  calls : nat;
  trace : list Snapshot;
}.

Definition boot (rows : list Job) : Sys :=
  {| store := rows; isProcessing := false; currentJob := None;
     awaiting := []; calls := 0; trace := [] |}.

(** Issue one store write on behalf of call [n]. *)
Definition write (n : nat) (c : StoreCall) (s : Sys) : Sys :=
  let rows := store_call c (store s) in
  {| store := rows; isProcessing := isProcessing s;
     currentJob := currentJob s; awaiting := awaiting s;
     calls := calls s; trace := trace s ++ [mkSnapshot n c rows] |}.

Definition set_in_flight (b : bool) (cur : option Job) (s : Sys) : Sys :=
  {| store := store s; isProcessing := b; currentJob := cur;
     awaiting := awaiting s; calls := calls s; trace := trace s |}.

Definition set_awaiting (l : list Invocation) (s : Sys) : Sys :=
  {| store := store s; isProcessing := isProcessing s;
     currentJob := currentJob s; awaiting := l; calls := calls s;
     trace := trace s |}.

Definition count_call (s : Sys) : Sys :=
  {| store := store s; isProcessing := isProcessing s;
     currentJob := currentJob s; awaiting := awaiting s;
     calls := S (calls s); trace := trace s |}.

(** [processGenerateJob] up to its first [await]. *)
Definition processGenerateJob (n : nat) (job : Job) (s : Sys) : Segment * Sys :=
  let s := write n (CallProgress (job_id job) 0.1%Q) s in
  let s := write n (CallProgress (job_id job) 0.3%Q) s in
  (Suspends (AwaitGenerateImageDirect "generate"), s).

(** [processEditJob] up to its first [await]. *)
Definition processEditJob (n : nat) (job : Job) (s : Sys) : Segment * Sys :=
  let s := write n (CallProgress (job_id job) 0.3%Q) s in
  (Suspends (AwaitGenerateImageDirect "edit"), s).

(** [processVariationJob] up to its first [await]. *)
Definition processVariationJob (n : nat) (job : Job) (s : Sys)
  : Segment * Sys :=
  let s := write n (CallProgress (job_id job) 0.3%Q) s in
  (Suspends (AwaitGenerateImageDirect "variation"), s).

(** The head of the image loop at index [i]:
    [for (...; i < response.data.length; ...)], then
    [Buffer.from(imageData.b64_json, 'base64')], which throws a [TypeError]
    on [undefined], then [await createGeneratedImage(...)]. *)
Definition save_image_at (generationId : string) (images : list ImageData)
    (i : nat) : Segment :=
  match images !! i with
  | None => Returns generationId
  | Some imageData =>
      match b64_json imageData with
      | None =>
          Throws (mkError "The first argument must be of type string or an instance of Buffer, ArrayBuffer, or Array or an Array-like Object. Received undefined")
      | Some _ => Suspends (AwaitCreateGeneratedImage generationId images i)
      end
  end.

(** The stretch of a handler that runs when the promise it is parked on
    settles; the three handlers share it but for the mode string.  [uuid] is
    what [randomUUID()] returns if this stretch calls it. *)
Definition resume (n : nat) (job : Job) (a : Await) (o : Settled)
    (uuid : string) (s : Sys) : Segment * Sys :=
  match o with
  | Rejected e => (Throws e, s)
  | Resolved v =>
      match a with
      | AwaitGenerateImageDirect mode =>
          let s := write n (CallProgress (job_id job) 0.7%Q) s in
          (Suspends (AwaitCreateGeneration mode uuid v), s)
      | AwaitCreateGeneration mode generationId response =>
          let s := write n (CallProgress (job_id job) 0.9%Q) s in
          match response with
          | None =>
              (Throws (mkError "Cannot read properties of undefined (reading 'data')"), s)
          | Some r =>
              match data r with
              | None => (Returns generationId, s)
              | Some images => (save_image_at generationId images 0, s)
              end
          end
      | AwaitCreateGeneratedImage generationId images i =>
          (save_image_at generationId images (S i), s)
      end
  end.

(** The [finally] block. *)
Definition release (s : Sys) : Sys := set_in_flight false None s.

(** What [processQueue] does with the way the handler's stretch ended: park
    the call, or run the rest of the [try], or the [catch], and then the
    [finally]. *)
Definition conclude (n : nat) (job : Job) (r : Segment) (s : Sys) : Sys :=
  match r with
  | Suspends a => set_awaiting (awaiting s ++ [mkInvocation n job a]) s
  | Returns generationId =>
      release (write n (CallStatus (job_id job) completed
                          (mkExtras (Some generationId) None)) s)
  | Throws e =>
      release (write n (CallStatus (job_id job) failed
                          (mkExtras None (Some (message e)))) s)
  end.

(** The [switch (job.type)]. *)
Definition dispatch (n : nat) (job : Job) (s : Sys) : Segment * Sys :=
  if decide (job_type job = "generate") then processGenerateJob n job s
  else if decide (job_type job = "edit") then processEditJob n job s
  else if decide (job_type job = "variation") then processVariationJob n job s
  else (Throws (mkError ("Unknown job type: " +:+ job_type job)), s).

(** One call of [processQueue], up to its first [await] or its end. *)
Definition processQueue (s : Sys) : Sys :=
  let n := calls s in
  let s := count_call s in
  if isProcessing s then s
  else
    match getNextPendingJob (store s) with
    | None => s
    | Some job =>
        let s := set_in_flight true (Some job) s in
        let s := write n (CallStatus (job_id job) processing no_extras) s in
        let '(r, s) := dispatch n job s in
        conclude n job r s
    end.

(** The promise the [k]-th parked call waits for settles. *)
Definition settle (k : nat) (o : Settled) (uuid : string) (s : Sys) : Sys :=
  match awaiting s !! k with
  | None => s
  | Some inv =>
      let s := set_awaiting (delete k (awaiting s)) s in
      let '(r, s) := resume (inv_no inv) (inv_job inv) (inv_at inv) o uuid s in
      conclude (inv_no inv) (inv_job inv) r s
  end.

(** The event loop: the timer (or [startQueueProcessor]) calls
    [processQueue], or a pending promise settles.  Between two events
    nothing else of the module runs. *)
Inductive Event : Type :=
| Tick
| Settle (k : nat) (o : Settled) (uuid : string).

Definition step (s : Sys) (e : Event) : Sys :=
  match e with
  | Tick => processQueue s
  | Settle k o uuid => settle k o uuid s
  end.

Definition run (es : list Event) (s : Sys) : Sys := foldl step s es.

(** ** Observations *)

Definition processing_count (rows : list Job) : nat :=
  length (filter (λ j, job_status j = processing) rows).

Definition pending_count (rows : list Job) : nat :=
  length (filter (λ j, job_status j = pending) rows).

(** Writes that cannot make a row [pending]. *)
Definition quiet (c : StoreCall) : Prop :=
  match c with
  | CallStatus _ st _ => st ≠ pending
  | CallProgress _ _ => True
  end.

(** The writes that concern one job, in order. *)
Definition writes_of (id : string) (tr : list Snapshot) : list Snapshot :=
  filter (λ sn, call_id (snap_call sn) = id) tr.

(** The progress values published for a job, in order. *)
Definition published (id : string) (tr : list Snapshot) : list Q :=
  omap (λ sn, match snap_call sn with
              | CallProgress _ p => Some p
              | CallStatus _ _ _ => None
              end) (writes_of id tr).

(** The calls of [processQueue] that claimed a job (set it [processing]). *)
Definition claimants (id : string) (tr : list Snapshot) : list nat :=
  omap (λ sn, match snap_call sn with
              | CallStatus _ processing _ => Some (snap_by sn)
              | _ => None
              end) (writes_of id tr).

(** The final statuses written for a job. *)
Definition outcomes (id : string) (tr : list Snapshot) : list Status :=
  omap (λ sn, match snap_call sn with
              | CallStatus _ st _ => Some st
              | CallProgress _ _ => None
              end) (writes_of id tr).


(** Nothing left to do: no call in flight and no pending row. *)
Definition drained (s : Sys) : Prop :=
  isProcessing s = false ∧ ∀ j, j ∈ store s → job_status j ≠ pending.

(** A store as the processor expects to find it at start-up: ids are
    unique and no row is [processing]. *)
Definition fresh (rows : list Job) : Prop :=
  NoDup (job_id <$> rows) ∧ ∀ j, j ∈ rows → job_status j ≠ processing.

(** The progress values the handler of a type publishes when it runs to its
    end. *)
Definition script (type : string) : list Q :=
  if decide (type = "generate") then [0.1; 0.3; 0.7; 0.9]%Q
  else if decide (type = "edit") then [0.3; 0.7; 0.9]%Q
  else if decide (type = "variation") then [0.3; 0.7; 0.9]%Q
  else [].

(** ** The life of a row, as the trace records it *)

Definition handled (type : string) : Prop :=
  type = "generate" ∨ type = "edit" ∨ type = "variation".

(** The values a handler publishes before its first [await]. *)
Definition opening (type : string) : list Q :=
  if decide (type = "generate") then [0.1; 0.3]%Q
  else if decide (type = "edit") then [0.3]%Q
  else if decide (type = "variation") then [0.3]%Q
  else [].

Definition stage (a : Await) : nat :=
  match a with
  | AwaitGenerateImageDirect _ => 0
  | AwaitCreateGeneration _ _ _ => 1
  | AwaitCreateGeneratedImage _ _ _ => 2
  end.

(** The values published by a call parked at [a]. *)
Definition published_at (type : string) (a : Await) : list Q :=
  opening type ++ take (stage a) [0.7; 0.9]%Q.

(** The job in flight: its id, its type and what was published for it. *)
Definition Current : Type := option (string * string * list Q).

Definition current_id (cur : Current) : option string :=
  (λ c, c.1.1) <$> cur.

Definition claim_call (id : string) : StoreCall :=
  CallStatus id processing no_extras.

Definition calls_of (id : string) (tr : list Snapshot) : list StoreCall :=
  snap_call <$> writes_of id tr.

(** The status writes of a job, as calls. *)
Definition status_calls (id : string) (outs : list (Status * Extras))
  : list StoreCall :=
  (λ o, CallStatus id o.1 o.2) <$> outs.

(** Where a row stands, given the row [j0] it started as. *)
Inductive row_phase (tr : list Snapshot) (cur : Current) (j0 j : Job) : Prop :=
| row_untouched :
    j = j0 →
    writes_of (job_id j) tr = [] →
    current_id cur ≠ Some (job_id j) →
    row_phase tr cur j0 j
| row_in_flight pub :
    job_id j = job_id j0 → job_type j = job_type j0 →
    cur = Some (job_id j, job_type j, pub) →
    job_status j0 = pending →
    job_status j = processing →
    calls_of (job_id j) tr
      = claim_call (job_id j) :: (CallProgress (job_id j) <$> pub) →
    row_phase tr cur j0 j
| row_completed gid :
    job_id j = job_id j0 → job_type j = job_type j0 →
    current_id cur ≠ Some (job_id j) →
    job_status j0 = pending →
    job_status j = completed →
    handled (job_type j) →
    calls_of (job_id j) tr
      = claim_call (job_id j)
        :: (CallProgress (job_id j) <$> script (job_type j))
        ++ [CallStatus (job_id j) completed (mkExtras (Some gid) None)] →
    row_phase tr cur j0 j
| row_failed ps msg :
    job_id j = job_id j0 → job_type j = job_type j0 →
    current_id cur ≠ Some (job_id j) →
    job_status j0 = pending →
    job_status j = failed →
    job_error j = Some msg →
    ps `prefix_of` script (job_type j) →
    calls_of (job_id j) tr
      = claim_call (job_id j)
        :: (CallProgress (job_id j) <$> ps)
        ++ [CallStatus (job_id j) failed (mkExtras None (Some msg))] →
    row_phase tr cur j0 j.

(** What holds of the store and the trace whatever the module is doing. *)
Record Core (rows0 : list Job) (s : Sys) (cur : Current) : Prop := mkCore {
  core_nodup : NoDup (job_id <$> rows0);
  core_fresh : ∀ j, j ∈ rows0 → job_status j ≠ processing;
  core_rows : Forall2 (row_phase (trace s) cur) rows0 (store s);
  core_snaps :
    Forall (λ sn, (processing_count (snap_store sn) ≤ 1)%nat) (trace s);
}.

(** The invariant between two events: either the module is idle, or exactly
    one call is parked and it holds the job in flight. *)
Definition Inv (rows0 : list Job) (s : Sys) : Prop :=
  (isProcessing s = false ∧ awaiting s = [] ∧ Core rows0 s None)
  ∨ (∃ inv,
       isProcessing s = true ∧ awaiting s = [inv]
       ∧ handled (job_type (inv_job inv))
       ∧ Core rows0 s
           (Some (job_id (inv_job inv), job_type (inv_job inv),
                  published_at (job_type (inv_job inv)) (inv_at inv)))).

(** The invariant inside an event, while call [n] runs for [job]. *)
Definition Active (rows0 : list Job) (s : Sys) (job : Job) (pub : list Q)
  : Prop :=
  awaiting s = [] ∧ Core rows0 s (Some (job_id job, job_type job, pub)).

(** A schedule that drains a store of [k] pending jobs whatever their
    type: every claimed job has its first awaited promise rejected. *)
Definition drain_events (k : nat) : list Event :=
  mjoin (replicate k [Tick; Settle 0 (Rejected (mkError "engine down")) ""]).

(** ** Vocabulary of the statements *)

(** The store calls an event added to the trace. *)
Definition appended (s s' : Sys) : list StoreCall :=
  snap_call <$> drop (length (trace s)) (trace s').

(** The job whose processing throws during an event, and what it throws. *)
Definition raised (s : Sys) (e : Event) : option (Job * Error) :=
  match e with
  | Tick =>
      if isProcessing s then None
      else
        match getNextPendingJob (store s) with
        | None => None
        | Some job =>
            match (dispatch (calls s) job s).1 with
            | Throws err => Some (job, err)
            | Suspends _ | Returns _ => None
            end
        end
  | Settle k o uuid =>
      match awaiting s !! k with
      | None => None
      | Some inv =>
          match (resume (inv_no inv) (inv_job inv) (inv_at inv) o uuid s).1 with
          | Throws err => Some (inv_job inv, err)
          | Suspends _ | Returns _ => None
          end
      end
  end.

(** A call that concerns the job leaves the rows of the other jobs as they
    are and the ids of all. *)
Definition sparing (id : string) (f : Job → Job) : Prop :=
  (∀ j, job_id j ≠ id → f j = j) ∧ ∀ j, job_id (f j) = job_id j.

(** The four job types the data model declares. *)
Definition declared (type : string) : Prop :=
  type = "generate" ∨ type = "edit" ∨ type = "variation" ∨ type = "upscale".

(** A call of [processQueue] handed the job to a handler: the call is
    parked inside one. *)
Definition dispatched_to_handler (s : Sys) (job : Job) : Prop :=
  ∃ a, mkInvocation (calls s) job a ∈ awaiting (processQueue s).


End QueueProcessor.

(* ===================================================================== *)
(** * The queue processor and its timer                                  *)
(* ===================================================================== *)

Module QueueControl.
Import QueueProcessor.

(** The module with its third variable: [pollInterval] is [Some] while the
    interval timer set by [startQueueProcessor] is live, and holds its
    period. *)
Record Processor : Type := mkProcessor {
  sys : Sys;
  pollInterval : option Z;
}.

(** The module as loaded. *)
Definition power_on (rows : list Job) : Processor :=
  mkProcessor (boot rows) None.

(** [startQueueProcessor] *)
Definition startQueueProcessor (intervalMs : Z) (p : Processor) : Processor :=
  match pollInterval p with
  | Some _ => p
  | None => mkProcessor (processQueue (sys p)) (Some intervalMs)
  end.

(** [stopQueueProcessor] *)
Definition stopQueueProcessor (p : Processor) : Processor :=
  match pollInterval p with
  | Some _ => mkProcessor (sys p) None
  | None => p
  end.

(** [getCurrentJob] *)
Definition getCurrentJob (p : Processor) : option Job := currentJob (sys p).

(** What can happen to the module: a caller starts or stops it, the
    interval timer is due (a cleared timer calls nothing), or the promise
    the [k]-th parked call waits for settles. *)
Inductive Control : Type :=
| Start (intervalMs : Z)
| Stop
| Fire
| Settles (k : nat) (o : Settled) (uuid : string).

Definition control (p : Processor) (e : Control) : Processor :=
  match e with
  | Start intervalMs => startQueueProcessor intervalMs p
  | Stop => stopQueueProcessor p
  | Fire =>
      match pollInterval p with
      | Some _ => mkProcessor (processQueue (sys p)) (pollInterval p)
      | None => p
      end
  | Settles k o uuid => mkProcessor (settle k o uuid (sys p)) (pollInterval p)
  end.

Definition operate (es : list Control) (p : Processor) : Processor :=
  foldl control p es.

(** ** Vocabulary of the statements *)

Definition is_start (e : Control) : Prop :=
  match e with
  | Start _ => True
  | Stop | Fire | Settles _ _ _ => False
  end.

(** The row of the job in flight. *)
Definition in_flight_row (job : Job) (rows : list Job) : Prop :=
  ∃ j, j ∈ rows ∧ job_id j = job_id job ∧ job_status j = processing.

(** What [currentJob] holds between two events, for a store that started
    as [rows0]. *)
Definition Cur (rows0 : list Job) (s : Sys) : Prop :=
  match currentJob s with
  | None => isProcessing s = false
  | Some job =>
      isProcessing s = true
      ∧ job ∈ rows0
      ∧ job_status job = pending
      ∧ (∃ n a, awaiting s = [mkInvocation n job a])
      ∧ in_flight_row job (store s)
  end.

(** ** One job from claim to conclusion *)

(** The rows of one id: there is one, and all of them have the given
    status and progress. *)
Definition rows_at (id : string) (st : Status) (p : Q) (rows : list Job)
  : Prop :=
  (∃ j, j ∈ rows ∧ job_id j = id)
  ∧ ∀ j, j ∈ rows → job_id j = id → job_status j = st ∧ job_progress j = p.

(** The call for [job] is the only parked one, waiting at [a]. *)
Definition parked (s : Sys) (job : Job) (a : Await) (p : Q) : Prop :=
  isProcessing s = true
  ∧ (∃ n, awaiting s = [mkInvocation n job a])
  ∧ rows_at (job_id job) processing p (store s).

(** The call for [job] has run its [finally]. *)
Definition concluded (s : Sys) (job : Job) (st : Status) (p : Q) : Prop :=
  isProcessing s = false ∧ currentJob s = None ∧ awaiting s = []
  ∧ rows_at (job_id job) st p (store s).

(** The call for [job] has run its [finally] and left the job with the
    given status, whatever the store made of its progress. *)
Definition finished (s : Sys) (job : Job) (st : Status) : Prop :=
  isProcessing s = false ∧ currentJob s = None ∧ awaiting s = []
  ∧ (∃ j, j ∈ store s ∧ job_id j = job_id job)
  ∧ ∀ j, j ∈ store s → job_id j = job_id job → job_status j = st.

(** Where the call for [job] stands after a stretch that ended as [r]. *)
Definition after_segment (r : Segment) (s : Sys) (job : Job) (p : Q) : Prop :=
  match r with
  | Suspends a => parked s job a p
  | Returns g =>
      concluded s job completed 1
      ∧ ∀ j, j ∈ store s → job_id j = job_id job →
             job_generation_id j = Some g
  | Throws e =>
      concluded s job failed p
      ∧ ∀ j, j ∈ store s → job_id j = job_id job →
             job_error j = Some (message e)
  end.

(** The image at index [i] carries its data. *)
Definition has_data (images : list ImageData) (i : nat) : Prop :=
  ∃ im, images !! i = Some im ∧ is_Some (b64_json im).

(** The events in which the promises of the parked call resolve one after
    the other, to the given values. *)
Definition resolutions (vs : list (option Response)) : list Event :=
  (λ v, Settle 0 (Resolved v) "") <$> vs.

(** [response.data], read as the list the image loop walks. *)
Definition images_of (r : Response) : list ImageData := default [] (data r).

End QueueControl.

(* ===================================================================== *)
(** * The model downloader                                               *)
(* ===================================================================== *)

Module Downloader.

Definition HF_API_BASE : string := "https://huggingface.co".
Definition HF_API_MODELS : string := HF_API_BASE +:+ "/api/models".
Definition HF_RAW_BASE : string := "https://huggingface.co".

(** [DOWNLOAD_STATUS] *)
Inductive DownloadStatus : Type :=
| PENDING
| DOWNLOADING
| PAUSED
| COMPLETED
| FAILED
| CANCELLED.

#[global] Instance DownloadStatus_eq_dec : EqDecision DownloadStatus.
Proof. solve_decision. Defined.

Record Error : Type := mkError { message : string }.

Inductive Result (A : Type) : Type :=
| Return (a : A)
| Throw (e : Error).
Arguments Return {A} a.
Arguments Throw {A} e.

(** A string between double quotes. *)
Definition quoted (s : string) : string :=
  String (ascii_of_N 34) (s +:+ String (ascii_of_N 34) "").

(** ** [encodeURIComponent] on UTF-8 bytes *)

(** The characters [encodeURIComponent] leaves alone: ASCII letters, digits
    and [- _ . ! ~ * ' ( )]. *)
Definition unreserved (a : ascii) : bool :=
  let n := N_of_ascii a in
  ((65 <=? n) && (n <=? 90) || (97 <=? n) && (n <=? 122)
   || (48 <=? n) && (n <=? 57)
   || bool_decide (n ∈ [45; 95; 46; 33; 126; 42; 39; 40; 41]))%N.

Definition hex_digit (n : N) : ascii :=
  if (n <? 10)%N then ascii_of_N (48 + n) else ascii_of_N (55 + n).

Definition percent_encode (a : ascii) : string :=
  let n := N_of_ascii a in
  String "%" (String (hex_digit (n / 16)) (String (hex_digit (n mod 16)) "")).

Fixpoint encodeURIComponent (s : string) : string :=
  match s with
  | EmptyString => ""
  | String a rest =>
      (if unreserved a then String a "" else percent_encode a)
      +:+ encodeURIComponent rest
  end.

(** ** The registry *)

Record Request : Type := mkRequest {
  req_url : string;
  req_method : option string;
  req_headers : list (string * string);
}.

(** A parsed JSON document. *)
#[local] Unset Elimination Schemes.
Inductive Json : Type :=
| JNull
| JBool (b : bool)
| JNum (n : Z)
| JStr (s : string)
| JArr (items : list Json)
| JObj (fields : list (string * Json)).
#[local] Set Elimination Schemes.

(** The value of a property read: a JSON value or [undefined]. *)
Inductive Value : Type :=
| VUndefined
| VJson (j : Json).

(** An object's own property; when a key is repeated the last one stands,
    as [JSON.parse] has it. *)
Fixpoint field (k : string) (fields : list (string * Json)) : option Json :=
  match fields with
  | [] => None
  | (k', v) :: rest =>
      match field k rest with
      | Some v' => Some v'
      | None => if decide (k' = k) then Some v else None
      end
  end.

(** [data.k]: a [TypeError] on [null], [undefined] on anything that has no
    such property. *)
Definition get_prop (data : Json) (k : string) : Result Value :=
  match data with
  | JNull =>
      Throw (mkError ("Cannot read properties of null (reading '" +:+ k +:+ "')"))
  | JObj fields =>
      Return (match field k fields with Some v => VJson v | None => VUndefined end)
  | JBool _ | JNum _ | JStr _ | JArr _ => Return VUndefined
  end.

Definition truthy (v : Value) : bool :=
  match v with
  | VUndefined => false
  | VJson JNull => false
  | VJson (JBool b) => b
  | VJson (JNum n) => negb (n =? 0)
  | VJson (JStr s) => negb (bool_decide (s = ""))
  | VJson (JArr _) | VJson (JObj _) => true
  end.

(** What [fetch] resolves to; [json] is what [response.json()] settles
    to: the parsed body, or the error it rejects with when the body cannot
    be read or does not parse. *)
Record Response : Type := mkResponse {
  ok : bool;
  status : Z;
  statusText : string;
  json : Result Json;
}.

Inductive Fetched : Type :=
| Answer (response : Response)
| NetworkError (e : Error).

(** An asynchronous function that talks to the registry: the requests it
    issued, in order, and what its promise settles to. *)
Definition Async (A : Type) : Type := list Request * Result A.

(** [getHuggingFaceModelInfo] *)
Definition getHuggingFaceModelInfo (fetch : Request → Fetched) (repo : string)
  : Async Json :=
  let url := HF_API_MODELS +:+ "/" +:+ encodeURIComponent repo in
  let request := mkRequest url None [("Accept", "application/json")] in
  ([request],
   match fetch request with
   | NetworkError e => Throw e
   | Answer response =>
       if negb (ok response) then
         if status response =? 404 then
           Throw (mkError ("Model repository not found: " +:+ repo))
         else
           Throw (mkError ("Failed to fetch model info: "
                           +:+ pretty (status response) +:+ " "
                           +:+ statusText response))
       else
         json response
   end).

(** [data.siblings || []], the last line of [getHuggingFaceModelFiles]. *)
Definition siblings_or_empty (data : Json) : Result Value :=
  match get_prop data "siblings" with
  | Throw e => Throw e
  | Return siblings =>
      Return (if truthy siblings then siblings else VJson (JArr []))
  end.

(** [getHuggingFaceModelFiles] *)
Definition getHuggingFaceModelFiles (fetch : Request → Fetched) (repo : string)
  : Async Value :=
  let url := HF_API_BASE +:+ "/api/models/" +:+ encodeURIComponent repo in
  let request := mkRequest url None [("Accept", "application/json")] in
  ([request],
   match fetch request with
   | NetworkError e => Throw e
   | Answer response =>
       if negb (ok response) then
         Throw (mkError ("Failed to fetch model files: "
                         +:+ pretty (status response) +:+ " "
                         +:+ statusText response))
       else
         match json response with
         | Throw e => Throw e
         | Return data => siblings_or_empty data
         end
   end).

(** [getHuggingFaceFileUrl] *)
Definition getHuggingFaceFileUrl (repo filename : string) : string :=
  HF_RAW_BASE +:+ "/" +:+ encodeURIComponent repo +:+ "/resolve/main/"
  +:+ encodeURIComponent filename.

(** Registry metadata as the protocol describes it: an object whose
    [siblings], when present, is an array. *)
Definition metadata (data : Json) : Prop :=
  ∃ fields, data = JObj fields
            ∧ ∀ v, field "siblings" fields = Some v → ∃ items, v = JArr items.

(** The [siblings] list of a metadata document, empty when the key is
    absent. *)
Definition siblings_of (data : Json) : Value :=
  match data with
  | JObj fields =>
      match field "siblings" fields with
      | Some v => VJson v
      | None => VJson (JArr [])
      end
  | _ => VJson (JArr [])
  end.

(** ** Paths *)

Fixpoint last_segment (s acc : string) : string :=
  match s with
  | EmptyString => acc
  | String a rest =>
      if decide (a = "/"%char) then last_segment rest ""
      else last_segment rest (acc +:+ String a "")
  end.

(** [path.basename], for paths that do not end in a slash. *)
Definition basename (path : string) : string := last_segment path "".

(** [path.dirname], for paths that do not end in a slash. *)
Definition dirname (path : string) : string :=
  let keep := (String.length path - String.length (basename path) - 1)%nat in
  if decide (String.length (basename path) = String.length path) then "."
  else if decide (keep = 0%nat) then "/"
  else String.substring 0 keep path.

(** ** Download jobs *)

(** An entry of [job.files].  The code builds it in three shapes; a key it
    leaves out reads [undefined]: [None] for [speed] and [eta], and [false]
    for [complete], which is only ever tested for truth. *)
Record FileProgress : Type := mkFileProgress {
  f_size : Z;
  f_downloaded : Z;
  f_progress : Q;
  f_speed : option Q;
  f_eta : option Q;
  f_complete : bool;
}.

(** An entry of [downloadJobs].  [dj_abortController] is [None] until
    [downloadModel] installs a controller, then [Some aborted]. *)
Record DownloadJob : Type := mkDownloadJob {
  dj_id : string;
  dj_repo : string;
  dj_status : DownloadStatus;
  dj_files : gmap string FileProgress;
  dj_progress : Q;
  dj_bytesDownloaded : Z;
  dj_totalBytes : Z;
  dj_speed : Q;
  dj_eta : Q;
  dj_startTime : Z;
  dj_error : option string;
  dj_abortController : option bool;
  dj_completedAt : option Z;
  dj_pausedAt : option Z;
}.

(** The module-level job table and the part of the outside world the
    service touches: the regular files with their contents, the paths on
    which [unlinkSync] fails, the directories, and the directories that
    [mkdirSync] cannot create (for lack of permission, or because a regular
    file is in the way), each with the error it throws there. *)
Record World : Type := mkWorld {
  downloadJobs : gmap string DownloadJob;
  disk : gmap string (list byte);
  undeletable : gset string;
  dirs : gset string;
  unmakable : gmap string Error;
}.

Definition set_jobs (jobs : gmap string DownloadJob) (w : World) : World :=
  mkWorld jobs (disk w) (undeletable w) (dirs w) (unmakable w).

Definition set_disk (d : gmap string (list byte)) (w : World) : World :=
  mkWorld (downloadJobs w) d (undeletable w) (dirs w) (unmakable w).

Definition set_dirs (ds : gset string) (w : World) : World :=
  mkWorld (downloadJobs w) (disk w) (undeletable w) ds (unmakable w).

(** [existsSync]: the path names a regular file or a directory. *)
Definition existsSync (path : string) (w : World) : bool :=
  bool_decide (is_Some (disk w !! path)) || bool_decide (path ∈ dirs w).

(** A directory and the directories above it, up to the root or to [.]. *)
Fixpoint ancestors (fuel : nat) (dir : string) : list string :=
  match fuel with
  | O => [dir]
  | S fuel =>
      if decide (dirname dir = dir) then [dir]
      else dir :: ancestors fuel (dirname dir)
  end.

(** [mkdirSync(dir, { recursive: true })]: the directory and those above
    it exist afterwards, unless the call throws; a call that throws is
    taken to have created nothing. *)
Definition mkdirSync (dir : string) (w : World) : Result World :=
  match unmakable w !! dir with
  | Some e => Throw e
  | None =>
      Return
        (set_dirs (dirs w ∪ list_to_set (ancestors (String.length dir) dir)) w)
  end.

(** [if (!existsSync(destDir)) mkdirSync(destDir, { recursive: true })] *)
Definition ensure_dir (destDir : string) (w : World) : Result World :=
  if existsSync destDir w then Return w else mkdirSync destDir w.

Definition set_status (st : DownloadStatus) (j : DownloadJob) : DownloadJob :=
  mkDownloadJob (dj_id j) (dj_repo j) st (dj_files j) (dj_progress j)
    (dj_bytesDownloaded j) (dj_totalBytes j) (dj_speed j) (dj_eta j)
    (dj_startTime j) (dj_error j) (dj_abortController j) (dj_completedAt j)
    (dj_pausedAt j).

Definition set_abortController (a : option bool) (j : DownloadJob)
  : DownloadJob :=
  mkDownloadJob (dj_id j) (dj_repo j) (dj_status j) (dj_files j)
    (dj_progress j) (dj_bytesDownloaded j) (dj_totalBytes j) (dj_speed j)
    (dj_eta j) (dj_startTime j) (dj_error j) a (dj_completedAt j)
    (dj_pausedAt j).

Definition set_files (files : gmap string FileProgress) (j : DownloadJob)
  : DownloadJob :=
  mkDownloadJob (dj_id j) (dj_repo j) (dj_status j) files (dj_progress j)
    (dj_bytesDownloaded j) (dj_totalBytes j) (dj_speed j) (dj_eta j)
    (dj_startTime j) (dj_error j) (dj_abortController j) (dj_completedAt j)
    (dj_pausedAt j).

Definition Qpositive (x : Q) : bool := negb (Qle_bool x 0).

(** [calculateProgress]; [now] is what [Date.now()] returns. *)
Definition calculateProgress (now : Z)
    (bytesDownloaded totalBytes startTime lastBytes lastTime : Z)
  : Q * Q * Q :=
  let progress :=
    if totalBytes >? 0
    then (inject_Z bytesDownloaded / inject_Z totalBytes * 100)%Q
    else 0%Q in
  let timeDiff := (inject_Z (now - lastTime) / 1000)%Q in
  let bytesDiff := bytesDownloaded - lastBytes in
  let speed :=
    if Qpositive timeDiff then (inject_Z bytesDiff / timeDiff)%Q else 0%Q in
  let remainingBytes := totalBytes - bytesDownloaded in
  let eta :=
    if Qpositive speed then (inject_Z remainingBytes / speed)%Q else 0%Q in
  (progress, speed, eta).

(** The loop [for (const [path, file] of job.files)] that adds up
    [file.downloaded] and [file.size || 0].  The sums do not depend on the
    order of the entries. *)
Definition totals (files : gmap string FileProgress) : Z * Z :=
  foldl (λ acc entry, (acc.1 + f_downloaded entry.2, acc.2 + f_size entry.2))
    (0, 0) (map_to_list files).

(** What [downloadFile] resolves to. *)
Record FileResult : Type := mkFileResult {
  r_path : string;
  r_size : Z;
  r_resumed : bool;
  r_skipped : bool;
}.

(** The arguments of [downloadFile], without [onProgress] and [signal]. *)
Record Args : Type := mkArgs {
  url : string;
  destinationPath : string;
  jobId : string;
  fileIndex : Z;
  totalFiles : Z;
}.

(** How [downloadFile] gets to its [await fetch]: it throws, or returns a
    result without a request, or issues the request; the world is the one
    it leaves, in which the destination directory may be new. *)
Inductive Begin : Type :=
| BeginThrow (e : Error)
| BeginReturn (r : FileResult) (w : World)
| BeginFetch (request : Request) (startPosition : Z) (w : World).

Definition range_headers (startPosition : Z) : list (string * string) :=
  if startPosition >? 0
  then [("Range", "bytes=" +:+ pretty startPosition +:+ "-")]
  else [].

(** [downloadFile] up to [await fetch(url, options)]; [signal_aborted] is
    [signal?.aborted] when the call starts.  The destination is taken not
    to name a directory: [existsSync(destinationPath)] is read off the
    regular files. *)
Definition downloadFile_begin (a : Args) (signal_aborted : bool) (w : World)
  : Begin :=
  match downloadJobs w !! jobId a with
  | None => BeginThrow (mkError "Download job not found")
  | Some job =>
      if signal_aborted then BeginThrow (mkError "Download cancelled")
      else
        let destDir := dirname (destinationPath a) in
        match ensure_dir destDir w with
        | Throw e => BeginThrow e
        | Return w =>
            match disk w !! destinationPath a with
            | Some content =>
                let startPosition := Z.of_nat (length content) in
                match dj_files job !! destinationPath a with
                | Some fileProgress =>
                    if f_complete fileProgress then
                      BeginReturn
                        (mkFileResult (destinationPath a) startPosition false
                           true)
                        w
                    else
                      BeginFetch
                        (mkRequest (url a) (Some "GET")
                           (range_headers startPosition))
                        startPosition w
                | None =>
                    BeginFetch
                      (mkRequest (url a) (Some "GET")
                         (range_headers startPosition))
                      startPosition w
                end
            | None =>
                BeginFetch (mkRequest (url a) (Some "GET") (range_headers 0))
                  0 w
            end
        end
  end.

(** The response to the file request: its status, and whether it has a
    body ([response.body] is [null] for a response without one).  The two
    size headers are left out: the code reads them into [totalBytes], which
    only the handlers of the stream use. *)
Record FileResponse : Type := mkFileResponse {
  fr_status : Z;
  fr_body : bool;
}.

(** [response.ok] *)
Definition fr_ok (r : FileResponse) : bool :=
  (200 <=? fr_status r) && (fr_status r <=? 299).

Inductive Flags : Type := flag_a | flag_w.

(** [createWriteStream(path, { flags })], on a destination that can be
    opened: ['w'] creates or empties the file, ['a'] creates it when
    missing.  The stream opens the file on a later turn of the event loop;
    the model has the file on disk at once. *)
Definition createWriteStream (path : string) (flags : Flags)
    (d : gmap string (list byte)) : gmap string (list byte) :=
  match flags with
  | flag_w => <[path := []]> d
  | flag_a => match d !! path with Some _ => d | None => <[path := []]> d end
  end.

(** The [TypeError] of [Readable.fromWeb(reader)]: the function takes a
    [ReadableStream] and is handed the reader of one. *)
Definition fromWeb_error : Error :=
  mkError ("The " +:+ quoted "readableStream"
           +:+ " argument must be an instance of ReadableStream."
           +:+ " Received an instance of ReadableStreamDefaultReader").

(** The [TypeError] of [response.body.getReader()] on a response without
    body. *)
Definition getReader_error : Error :=
  mkError "Cannot read properties of null (reading 'getReader')".

(** [downloadFile] from the response on.  An answer that is neither 416
    nor an error has the destination opened for writing and then makes the
    call throw, at [getReader] or at [Readable.fromWeb]: the promise with
    the handlers of the stream is never built, so no chunk is written, no
    record is updated and [onProgress] is never called. *)
Definition downloadFile_response (a : Args) (startPosition : Z)
    (response : FileResponse) (w : World) : Result FileResult * World :=
  if fr_status response =? 416 then
    match disk w !! destinationPath a with
    | None =>
        (Throw (mkError ("ENOENT: no such file or directory, stat '"
                         +:+ destinationPath a +:+ "'")),
         w)
    | Some content =>
        (Return
           (mkFileResult (destinationPath a) (Z.of_nat (length content))
              false true),
         w)
    end
  else if negb (fr_ok response) && negb (fr_status response =? 206) then
    (Throw (mkError ("HTTP error! status: " +:+ pretty (fr_status response))),
     w)
  else
    let flags := if startPosition >? 0 then flag_a else flag_w in
    (Throw (if fr_body response then fromWeb_error else getReader_error),
     set_disk (createWriteStream (destinationPath a) flags (disk w)) w).

(** What [getDownloadStatus] returns, without the two formatted strings. *)
Record StatusView : Type := mkStatusView {
  v_id : string;
  v_repo : string;
  v_status : DownloadStatus;
  v_progress : Q;
  v_bytesDownloaded : Z;
  v_totalBytes : Z;
  v_files : list (string * FileProgress);
  v_error : option string;
  v_createdAt : Z;
  v_completedAt : option Z;
}.

(** [ModelDownloader.getDownloadStatus]; [None] is [null]. *)
Definition getDownloadStatus (id : string) (w : World) : option StatusView :=
  match downloadJobs w !! id with
  | None => None
  | Some job =>
      let '(totalDownloaded, totalSize) := totals (dj_files job) in
      Some (mkStatusView (dj_id job) (dj_repo job) (dj_status job)
              (dj_progress job) totalDownloaded totalSize
              (map_to_list (dj_files job)) (dj_error job) (dj_startTime job)
              (dj_completedAt job))
  end.

(** [unlinkSync] inside the [try] of [cancelDownload]: a failure is logged
    and the file stays. *)
Definition try_unlink (blocked : gset string) (path : string)
    (d : gmap string (list byte)) : gmap string (list byte) :=
  if decide (path ∈ blocked) then d else delete path d.

(** The clean-up loop of [cancelDownload]. *)
Definition unlink_partial (blocked : gset string)
    (files : gmap string FileProgress) (d : gmap string (list byte))
  : gmap string (list byte) :=
  foldl (λ d entry,
           if negb (f_complete entry.2) && bool_decide (is_Some (d !! entry.1))
           then try_unlink blocked entry.1 d
           else d)
    d (map_to_list files).

(** [abortController.abort()] when there is a controller. *)
Definition abort (j : DownloadJob) : DownloadJob :=
  match dj_abortController j with
  | Some _ => set_abortController (Some true) j
  | None => j
  end.

(** [ModelDownloader.cancelDownload] *)
Definition cancelDownload (id : string) (w : World) : Result unit * World :=
  match downloadJobs w !! id with
  | None => (Throw (mkError "Download job not found"), w)
  | Some job =>
      if decide (dj_status job = COMPLETED) then
        (Throw (mkError "Cannot cancel completed download"), w)
      else
        let job := set_status CANCELLED (abort job) in
        let w := set_jobs (<[id := job]> (downloadJobs w)) w in
        (Return (),
         set_disk (unlink_partial (undeletable w) (dj_files job) (disk w)) w)
  end.

(** [ModelDownloader.pauseDownload]; [now] is what [Date.now()] returns. *)
Definition pauseDownload (now : Z) (id : string) (w : World)
  : Result unit * World :=
  match downloadJobs w !! id with
  | None => (Throw (mkError "Download job not found"), w)
  | Some job =>
      if decide (dj_status job = DOWNLOADING) then
        let job := set_status PAUSED (abort job) in
        let job :=
          mkDownloadJob (dj_id job) (dj_repo job) (dj_status job)
            (dj_files job) (dj_progress job) (dj_bytesDownloaded job)
            (dj_totalBytes job) (dj_speed job) (dj_eta job) (dj_startTime job)
            (dj_error job) (dj_abortController job) (dj_completedAt job)
            (Some now) in
        (Return (), set_jobs (<[id := job]> (downloadJobs w)) w)
      else (Throw (mkError "Can only pause active downloads"), w)
  end.

(** The list [filesToDownload] that [resumeDownload] builds. *)
Definition filesToDownload (files : gmap string FileProgress)
  : list (string * string) :=
  omap (λ entry,
          if f_complete entry.2 then None
          else Some (basename entry.1, dirname entry.1))
    (map_to_list files).

(** [ModelDownloader.resumeDownload].  It takes no [fetch]: no request is
    ever issued from it. *)
Definition resumeDownload (id : string) (w : World) : Result unit * World :=
  match downloadJobs w !! id with
  | None => (Throw (mkError "Download job not found"), w)
  | Some job =>
      if decide (dj_status job = PAUSED) then
        if decide (length (filesToDownload (dj_files job)) = 0%nat) then
          (Return (),
           set_jobs (<[id := set_status COMPLETED job]> (downloadJobs w)) w)
        else
          let job := set_abortController (Some false)
                       (set_status DOWNLOADING job) in
          (Throw (mkError "Resume requires original download parameters. Please restart the download."),
           set_jobs (<[id := job]> (downloadJobs w)) w)
      else (Throw (mkError "Can only resume paused downloads"), w)
  end.

(** ** Vocabulary of the statements *)




Definition all_complete (files : gmap string FileProgress) : Prop :=
  ∀ path file, files !! path = Some file → f_complete file = true.

(** Nothing has changed but for directories that were added. *)
Definition grown (w w' : World) : Prop :=
  downloadJobs w' = downloadJobs w ∧ disk w' = disk w
  ∧ undeletable w' = undeletable w ∧ unmakable w' = unmakable w
  ∧ dirs w ⊆ dirs w'.

End Downloader.

(* ===================================================================== *)
(** * More of the download service                                       *)
(* ===================================================================== *)

Module DownloadService.
Import Downloader.

(** ** House-keeping *)

(** [job.completedAt || job.startTime]: the start time stands in when
    [completedAt] was never set (or is 0). *)
Definition reference_time (job : DownloadJob) : Z :=
  match dj_completedAt job with
  | Some c => if c =? 0 then dj_startTime job else c
  | None => dj_startTime job
  end.

Definition terminal (st : DownloadStatus) : bool :=
  match st with
  | COMPLETED | FAILED | CANCELLED => true
  | PENDING | DOWNLOADING | PAUSED => false
  end.

(** The test of the first loop of [cleanupOldJobs]. *)
Definition expired (now maxAge : Z) (job : DownloadJob) : bool :=
  (now - reference_time job >? maxAge) && terminal (dj_status job).

(** The list [toDelete] of [cleanupOldJobs]. *)
Definition toDelete (now maxAge : Z) (jobs : gmap string DownloadJob)
  : list string :=
  omap (λ entry, if expired now maxAge entry.2 then Some entry.1 else None)
    (map_to_list jobs).

(** [ModelDownloader.cleanupOldJobs]; [now] is what [Date.now()] returns. *)
Definition cleanupOldJobs (now maxAge : Z) (w : World) : nat * World :=
  let ids := toDelete now maxAge (downloadJobs w) in
  (length ids, set_jobs (foldl (λ jobs id, delete id jobs) (downloadJobs w) ids) w).

(** ** The download routes of the server *)

(** [GET /api/models/download/:id]: the status code and, on success, the
    view. *)
Definition get_download_route (id : string) (w : World)
  : Z * option StatusView :=
  match getDownloadStatus id w with
  | None => (404, None)
  | Some status => (200, Some status)
  end.

(** [DELETE /api/models/download/:id]: the status code and the world it
    leaves.  The [catch] of the route turns a throw of [cancelDownload]
    into 500. *)
Definition delete_download_route (id : string) (w : World) : Z * World :=
  match getDownloadStatus id w with
  | None => (404, w)
  | Some status =>
      if terminal (v_status status) then (400, w)
      else
        match cancelDownload id w with
        | (Return _, w') => (200, w')
        | (Throw _, w') => (500, w')
        end
  end.

(** ** One file *)

(** What the network does for one file request: the connection fails, or
    it answers. *)
Inductive Wire : Type :=
| WireDown (e : Error)
| WireAnswer (response : FileResponse).

(** [downloadFile] from the settling of [fetch] on. *)
Definition downloadFile_settle (a : Args) (startPosition : Z) (answer : Wire)
    (w : World) : Result FileResult * World :=
  match answer with
  | WireDown e => (Throw e, w)
  | WireAnswer response => downloadFile_response a startPosition response w
  end.

(** [downloadFile] from its call to the settling of its promise, when
    nobody aborts before the call and nothing else runs while the request
    is pending. *)
Definition downloadFile (a : Args) (wire : Request → Wire) (w : World)
  : list Request * (Result FileResult * World) :=
  match downloadFile_begin a false w with
  | BeginThrow e => ([], (Throw e, w))
  | BeginReturn r w' => ([], (Return r, w'))
  | BeginFetch request startPosition w' =>
      ([request], downloadFile_settle a startPosition (wire request) w')
  end.

(** ** A whole model *)

(** An element of the [files] argument of [downloadModel]. *)
Record FileSpec : Type := mkFileSpec {
  fs_path : string;
  fs_dest : option string;
}.

(** An element of [downloadList]. *)
Record Item : Type := mkItem {
  it_url : string;
  it_destinationPath : string;
  it_originalPath : string;
}.

(** What [downloadModel] resolves to. *)
Record ModelResult : Type := mkModelResult {
  m_jobId : string;
  m_repo : string;
  m_status : DownloadStatus;
  m_files : list FileResult;
  m_totalSize : Z;
  m_duration : Z;
}.

Definition set_error (e : option string) (j : DownloadJob) : DownloadJob :=
  mkDownloadJob (dj_id j) (dj_repo j) (dj_status j) (dj_files j)
    (dj_progress j) (dj_bytesDownloaded j) (dj_totalBytes j) (dj_speed j)
    (dj_eta j) (dj_startTime j) e (dj_abortController j) (dj_completedAt j)
    (dj_pausedAt j).

(** [job.status = COMPLETED; job.progress = 100; job.completedAt = now] *)
Definition set_completed (now : Z) (j : DownloadJob) : DownloadJob :=
  mkDownloadJob (dj_id j) (dj_repo j) COMPLETED (dj_files j) 100
    (dj_bytesDownloaded j) (dj_totalBytes j) (dj_speed j) (dj_eta j)
    (dj_startTime j) (dj_error j) (dj_abortController j) (Some now)
    (dj_pausedAt j).

(** [job.status = FAILED; job.error = msg] *)
Definition set_failed (msg : string) (j : DownloadJob) : DownloadJob :=
  set_error (Some msg) (set_status FAILED j).

(** An assignment to fields of the job object that [downloadModel] holds;
    the object stays in the table for as long as the call runs. *)
Definition update_job (id : string) (f : DownloadJob → DownloadJob)
    (w : World) : World :=
  match downloadJobs w !! id with
  | Some job => set_jobs (<[id := f job]> (downloadJobs w)) w
  | None => w
  end.

(** The outer [catch] of [downloadModel]; [name] is the [name] of the
    error caught. *)
Definition on_failure (name : string) (e : Error) (j : DownloadJob)
  : DownloadJob :=
  if bool_decide (message e = "Download cancelled")
     || bool_decide (name = "AbortError")
  then set_error (Some "Download was cancelled") (set_status CANCELLED j)
  else set_error (Some (message e)) (set_status FAILED j).


(** The [catch] inside the loop of [downloadModel]. *)
Definition file_failed (jobId : string) (file : Item) (e : Error) (w : World)
  : World :=
  update_job jobId
    (set_failed ("Failed to download " +:+ it_originalPath file +:+ ": "
                 +:+ message e))
    w.

(** What is left of [downloadModel] when the promise of [downloadFile] for
    [file] rejects with [e], an error named [name]: the [catch] inside the
    loop and then the outer one. *)
Definition downloadModel_rejected (name jobId : string) (file : Item)
    (e : Error) (w : World) : Result ModelResult * World :=
  (Throw e, update_job jobId (on_failure name e) (file_failed jobId file e w)).





(** The record [downloadModel] starts every file with. *)
Definition untouched : FileProgress := mkFileProgress 0 0 0 None None false.

(** [ModelDownloader.getAllJobs]; an element is [None] where
    [getDownloadStatus] returns [null].  The elements come in the order of
    [map_to_list], which stands for the iteration order of the [Map]; no
    statement depends on it. *)
Definition getAllJobs (w : World) : list (option StatusView) :=
  (λ job, getDownloadStatus (dj_id job) w)
  <$> (map_to_list (downloadJobs w)).*2.

(** Every job is stored under its own id. *)
Definition well_keyed (w : World) : Prop :=
  ∀ id job, downloadJobs w !! id = Some job → dj_id job = id.

(** The calls of the service that change its state. *)
Inductive Op : Type :=
| OpDownload (jobId repo : string) (files : list FileSpec) (t0 t1 : Z)
    (fetch : Request → Fetched) (wire : Request → Wire)
| OpCancel (id : string)
| OpPause (now : Z) (id : string)
| OpResume (id : string)
| OpCleanup (now maxAge : Z).

Section DownloadModel.

(** [path.join], [this.modelsDir], and the [name] of the errors that
    [downloadFile] throws, which [Error] does not record. *)
Variable join : string → string → string.
Variable modelsDir : string.
Variable error_name : Error → string.

(** [file.dest || this.modelsDir] *)
Definition destDir (file : FileSpec) : string :=
  match fs_dest file with
  | Some dest => if decide (dest = "") then modelsDir else dest
  | None => modelsDir
  end.

(** The entry of [downloadList] for one file. *)
Definition prepare (repo : string) (file : FileSpec) : Item :=
  mkItem (getHuggingFaceFileUrl repo (fs_path file))
    (join (destDir file) (basename (fs_path file)))
    (fs_path file).

Definition downloadList (repo : string) (files : list FileSpec) : list Item :=
  prepare repo <$> files.

(** The records [job.files] gets while the list is prepared. *)
Definition track (files : gmap string FileProgress) (items : list Item)
  : gmap string FileProgress :=
  foldl (λ m it, <[it_destinationPath it := untouched]> m) files items.

(** The world in which the loop over [downloadList] starts. *)
Definition prepared (jobId repo : string) (t0 : Z) (items : list Item)
    (w : World) : World :=
  set_jobs
    (<[jobId := mkDownloadJob jobId repo DOWNLOADING (track ∅ items) 0 0 0 0
                  0 t0 None (Some false) None None]> (downloadJobs w)) w.

(** The loop over [downloadList], from index [i] on, in a run in which
    nobody aborts. *)
Fixpoint download_files (jobId : string) (total : Z)
    (wire : Request → Wire) (items : list Item) (i : nat)
    (results : list FileResult) (w : World)
  : list Request * (Result (list FileResult) * World) :=
  match items with
  | [] => ([], (Return results, w))
  | file :: rest =>
      let out :=
        downloadFile
          (mkArgs (it_url file) (it_destinationPath file) jobId
             (Z.of_nat i) total)
          wire w in
      match out.2.1 with
      | Return result =>
          let next :=
            download_files jobId total wire rest (S i)
              (results ++ [result]) out.2.2 in
          (out.1 ++ next.1, next.2)
      | Throw e => (out.1, (Throw e, file_failed jobId file e out.2.2))
      end
  end.

(** [ModelDownloader.downloadModel], in a run in which nobody cancels or
    pauses in between: [jobId] is what [randomUUID()] returns, [t0] the
    time of the call and [t1] the time after the last file.  The job
    object stays in the table while the call runs, so reading its fields
    at the end finds it; [job.totalFiles], which nothing reads, is left
    out, and so are the calls of [onProgress], which is taken to return
    normally. *)
Definition downloadModel (jobId repo : string) (files : list FileSpec)
    (t0 t1 : Z)
    (fetch : Request → Fetched) (wire : Request → Wire) (w : World)
  : list Request * (Result ModelResult * World) :=
  let job0 :=
    mkDownloadJob jobId repo PENDING ∅ 0 0 0 0 0 t0 None None None None in
  let w := set_jobs (<[jobId := job0]> (downloadJobs w)) w in
  let w := update_job jobId (set_status DOWNLOADING) w in
  let info := getHuggingFaceModelInfo fetch repo in
  match info.2 with
  | Throw e =>
      let w := update_job jobId (set_failed (message e)) w in
      let err :=
        mkError ("Failed to access repository " +:+ quoted repo +:+ ": "
                 +:+ message e) in
      (info.1, (Throw err, update_job jobId (on_failure "Error" err) w))
  | Return _ =>
      let items := downloadList repo files in
      let w :=
        update_job jobId
          (λ job, set_abortController (Some false)
                    (set_files (track (dj_files job) items) job)) w in
      let out :=
        download_files jobId (Z.of_nat (length items)) wire items 0 [] w in
      match out.2.1 with
      | Throw e =>
          (info.1 ++ out.1,
           (Throw e, update_job jobId (on_failure (error_name e) e) out.2.2))
      | Return results =>
          let w := update_job jobId (set_completed t1) out.2.2 in
          let job := default job0 (downloadJobs w !! jobId) in
          (info.1 ++ out.1,
           (Return (mkModelResult jobId repo COMPLETED results
                      (dj_bytesDownloaded job) (t1 - dj_startTime job)),
            w))
      end
  end.

(** One call of the service, carried through to its end. *)
Definition perform (w : World) (op : Op) : World :=
  match op with
  | OpDownload jobId repo files t0 t1 fetch wire =>
      (downloadModel jobId repo files t0 t1 fetch wire w).2.2
  | OpCancel id => (cancelDownload id w).2
  | OpPause now id => (pauseDownload now id w).2
  | OpResume id => (resumeDownload id w).2
  | OpCleanup now maxAge => (cleanupOldJobs now maxAge w).2
  end.

End DownloadModel.

(** ** URLs *)

(** What [encodeURIComponent] makes of one character. *)
Definition encode_char (a : ascii) : string :=
  if unreserved a then String a "" else percent_encode a.

(** ** Time *)

Definition Qnegative (x : Q) : bool := negb (Qle_bool 0 x).

(** [x % m] for [x >= 0]. *)
Definition Qrem (x : Q) (m : Z) : Q :=
  (x - inject_Z (m * Qfloor (x / inject_Z m)))%Q.

(** The first integer that has a successor no double holds: [2^53]. *)
Definition MAX_EXACT : Z := 9007199254740992.

(** [formatTime] on the finite values.  For a time that is negative the
    answer is ["--:--"]; for one below [2^53] the quotients and remainders
    the source computes on doubles have the integer parts computed here,
    and the numbers are printed in full.  From [2^53] on the doubles lose
    the units and the model gives no answer: [None]. *)
Definition formatTime (seconds : Q) : option string :=
  if Qnegative seconds then Some "--:--"
  else if Qle_bool (inject_Z MAX_EXACT) seconds then None
  else
    let hours := Qfloor (seconds / 3600) in
    let minutes := Qfloor (Qrem seconds 3600 / 60) in
    let secs := Qfloor (Qrem seconds 60) in
    Some
      (if hours >? 0 then pretty hours +:+ "h " +:+ pretty minutes +:+ "m"
       else if minutes >? 0
       then pretty minutes +:+ "m " +:+ pretty secs +:+ "s"
       else pretty secs +:+ "s").

End DownloadService.
(* ===================================================================== *)
(** * Facts about the parameters handed to the engine                    *)
(* ===================================================================== *)

Module StepsFacts.
Import Steps.

Section HandlersFacts.

Variable parseInt : JsValue → JsValue.







End HandlersFacts.





End StepsFacts.

(* ===================================================================== *)
(** * Facts about the queue processor                                    *)
(* ===================================================================== *)

Module QueueFacts.
Import QueueProcessor.

(** ** The store *)

Lemma store_call_fmap c rows : store_call c rows = row_call c <$> rows.
Proof. destruct c; reflexivity. Qed.

Lemma row_call_id c j : job_id (row_call c j) = job_id j.
Proof. destruct c; simpl; case_decide; reflexivity. Qed.

Lemma row_call_type c j : job_type (row_call c j) = job_type j.
Proof. destruct c; simpl; case_decide; reflexivity. Qed.

Lemma row_call_other c j : job_id j ≠ call_id c → row_call c j = j.
Proof. destruct c; simpl; intros; case_decide; congruence. Qed.

Lemma row_call_progress_status id p j :
  job_status (row_call (CallProgress id p) j) = job_status j.
Proof. simpl; case_decide; reflexivity. Qed.

Lemma row_call_status_same id st ex j :
  job_id j = id → job_status (row_call (CallStatus id st ex) j) = st.
Proof. simpl; intros; case_decide; [reflexivity | congruence]. Qed.

Lemma store_call_ids c rows : job_id <$> store_call c rows = job_id <$> rows.
Proof.
  rewrite store_call_fmap, <- list_fmap_compose.
  apply list_fmap_ext; intros ? j _; simpl; apply row_call_id.
Qed.

Lemma getNextPendingJob_Some rows j :
  getNextPendingJob rows = Some j → j ∈ rows ∧ job_status j = pending.
Proof.
  revert j; induction rows as [|r rows IH]; intros j; simpl; [discriminate|].
  destruct (getNextPendingJob rows) as [b|].
  - destruct (IH b eq_refl) as [Hb Hp].
    repeat case_decide; try destruct (_ <=? _); intros [= <-];
      (split; [(apply list_elem_of_here || (apply list_elem_of_further; assumption)) | assumption]).
  - case_decide; [|discriminate]. intros [= <-]. split; [apply list_elem_of_here | assumption].
Qed.

Lemma getNextPendingJob_None rows :
  getNextPendingJob rows = None ↔ ∀ j, j ∈ rows → job_status j ≠ pending.
Proof.
  induction rows as [|r rows IH]; simpl.
  - split; [intros _ j Hj; inversion Hj | reflexivity].
  - destruct (getNextPendingJob rows) as [b|] eqn:E.
    + split.
      * repeat case_decide; try destruct (_ <=? _); discriminate.
      * intros H. destruct (getNextPendingJob_Some _ _ E) as [Hb Hp].
        exfalso. apply (H b); [apply list_elem_of_further; assumption | assumption].
    + case_decide as Hr.
      * split; [discriminate|]. intros H. exfalso. apply (H r); [apply list_elem_of_here | assumption].
      * split; [|reflexivity]. intros _ j Hj.
        apply elem_of_cons in Hj as [->|Hj]; [assumption|].
        apply IH; [reflexivity | assumption].
Qed.

(** ** Projections of the trace *)

Lemma writes_of_snoc id tr sn :
  writes_of id (tr ++ [sn])
  = writes_of id tr ++ (if decide (call_id (snap_call sn) = id) then [sn] else []).
Proof.
  unfold writes_of. rewrite filter_app, filter_cons, filter_nil. reflexivity.
Qed.

Lemma writes_of_snoc_other id tr sn :
  call_id (snap_call sn) ≠ id → writes_of id (tr ++ [sn]) = writes_of id tr.
Proof.
  intros H. rewrite writes_of_snoc. case_decide; [congruence|]. apply app_nil_r.
Qed.

Lemma calls_of_snoc_same tr n c rows :
  calls_of (call_id c) (tr ++ [mkSnapshot n c rows])
  = calls_of (call_id c) tr ++ [c].
Proof.
  unfold calls_of. rewrite writes_of_snoc. simpl.
  case_decide; [|congruence]. rewrite fmap_app. reflexivity.
Qed.

Lemma calls_of_nil id tr : writes_of id tr = [] → calls_of id tr = [].
Proof. unfold calls_of. intros ->. reflexivity. Qed.

Lemma omap_through_fmap {A B C} (g : B → option C) (h : A → B) (l : list A) :
  omap (λ x, g (h x)) l = omap g (h <$> l).
Proof.
  induction l as [|x l IH]; [reflexivity|].
  cbn [omap list_omap fmap list_fmap]. rewrite IH. reflexivity.
Qed.

Lemma published_calls id tr :
  published id tr
  = omap (λ c, match c with
               | CallProgress _ p => Some p
               | CallStatus _ _ _ => None
               end) (calls_of id tr).
Proof.
  unfold published, calls_of.
  exact (omap_through_fmap
           (λ c, match c with
                 | CallProgress _ p => Some p
                 | CallStatus _ _ _ => None
                 end) snap_call _).
Qed.

Lemma outcomes_calls id tr :
  outcomes id tr
  = omap (λ c, match c with
               | CallStatus _ st _ => Some st
               | CallProgress _ _ => None
               end) (calls_of id tr).
Proof.
  unfold outcomes, calls_of.
  exact (omap_through_fmap
           (λ c, match c with
                 | CallStatus _ st _ => Some st
                 | CallProgress _ _ => None
                 end) snap_call _).
Qed.

Lemma omap_progress_calls id (ps : list Q) :
  omap (λ c, match c with
             | CallProgress _ p => Some p
             | CallStatus _ _ _ => None
             end) (CallProgress id <$> ps) = ps.
Proof.
  induction ps as [|p ps IH]; [reflexivity|].
  cbn [omap list_omap fmap list_fmap]. rewrite IH. reflexivity.
Qed.

Lemma omap_status_progress_calls id (ps : list Q) :
  omap (λ c, match c with
             | CallStatus _ st _ => Some st
             | CallProgress _ _ => None
             end) (CallProgress id <$> ps) = [].
Proof.
  induction ps as [|p ps IH]; [reflexivity|].
  cbn [omap list_omap fmap list_fmap]. exact IH.
Qed.

Lemma claimants_length id tr :
  length (claimants id tr)
  = length (filter (λ st, st = processing) (outcomes id tr)).
Proof.
  unfold claimants, outcomes. induction (writes_of id tr) as [|sn l IH];
    [reflexivity|].
  cbn [omap list_omap].
  destruct (snap_call sn) as [i st ex|i p]; [|exact IH].
  rewrite filter_cons. destruct st; case_decide; try congruence; simpl; congruence.
Qed.

(** ** Rows and their phases *)

Lemma row_phase_ident tr cur j0 j :
  row_phase tr cur j0 j → job_id j = job_id j0 ∧ job_type j = job_type j0.
Proof. destruct 1; subst; auto. Qed.

Lemma row_phase_other tr tr' cur cur' j0 j :
  row_phase tr cur j0 j →
  writes_of (job_id j) tr' = writes_of (job_id j) tr →
  current_id cur ≠ Some (job_id j) →
  current_id cur' ≠ Some (job_id j) →
  row_phase tr' cur' j0 j.
Proof.
  intros H Hw Hc Hc'. unfold calls_of in *.
  destruct H as [E W C | pub I T C | gid I T C P S Hh K | ps msg I T C P S Er Pre K].
  - apply row_untouched; [assumption | congruence | assumption].
  - exfalso. apply Hc. rewrite C. reflexivity.
  - apply (row_completed _ _ _ _ gid); try assumption.
    unfold calls_of. rewrite Hw. exact K.
  - apply (row_failed _ _ _ _ ps msg); try assumption.
    unfold calls_of. rewrite Hw. exact K.
Qed.

Lemma row_phase_current tr id ty pub j0 j :
  row_phase tr (Some (id, ty, pub)) j0 j → job_id j = id →
  job_id j = job_id j0 ∧ job_type j = job_type j0 ∧ job_type j = ty
  ∧ job_status j0 = pending ∧ job_status j = processing
  ∧ calls_of id tr = claim_call id :: (CallProgress id <$> pub).
Proof.
  intros H <-.
  destruct H as [E W C | pub' I T C | gid I T C P S Hh K | ps msg I T C P S Er Pre K];
    try (exfalso; apply C; reflexivity).
  injection C as -> ->. auto 10.
Qed.

Lemma row_claim tr n rows j0 j :
  row_phase tr None j0 j → job_status j = pending →
  row_phase (tr ++ [mkSnapshot n (claim_call (job_id j)) rows])
    (Some (job_id j, job_type j, [])) j0 (row_call (claim_call (job_id j)) j).
Proof.
  intros H Hp.
  destruct H as [E W C | pub' I T C | gid I T C P S Hh K | ps msg I T C P S Er Pre K];
    try congruence.
  subst j0.
  apply (row_in_flight _ _ _ _ []).
  - apply row_call_id.
  - apply row_call_type.
  - rewrite row_call_id, row_call_type. reflexivity.
  - assumption.
  - apply row_call_status_same. reflexivity.
  - rewrite row_call_id.
    change (job_id j) with (call_id (claim_call (job_id j))) at 1.
    rewrite calls_of_snoc_same. simpl. rewrite (calls_of_nil _ _ W). reflexivity.
Qed.

Lemma row_progress tr n rows ty pub p j0 j :
  row_phase tr (Some (job_id j, ty, pub)) j0 j →
  row_phase (tr ++ [mkSnapshot n (CallProgress (job_id j) p) rows])
    (Some (job_id j, ty, pub ++ [p])) j0
    (row_call (CallProgress (job_id j) p) j).
Proof.
  intros H.
  destruct (row_phase_current _ _ _ _ _ _ H eq_refl) as (I & T & Ty & P & S & K).
  apply (row_in_flight _ _ _ _ (pub ++ [p])).
  - rewrite row_call_id. exact I.
  - rewrite row_call_type. exact T.
  - rewrite row_call_id, row_call_type, Ty. reflexivity.
  - exact P.
  - rewrite row_call_progress_status. exact S.
  - rewrite row_call_id.
    change (job_id j) with (call_id (CallProgress (job_id j) p)) at 1.
    rewrite calls_of_snoc_same. simpl. rewrite K, fmap_app. reflexivity.
Qed.

Lemma row_complete tr n rows ty pub gid j0 j :
  row_phase tr (Some (job_id j, ty, pub)) j0 j →
  handled ty → pub = script ty →
  row_phase
    (tr ++ [mkSnapshot n (CallStatus (job_id j) completed
                            (mkExtras (Some gid) None)) rows])
    None j0
    (row_call (CallStatus (job_id j) completed (mkExtras (Some gid) None)) j).
Proof.
  intros H Hh ->.
  destruct (row_phase_current _ _ _ _ _ _ H eq_refl) as (I & T & Ty & P & S & K).
  apply (row_completed _ _ _ _ gid).
  - rewrite row_call_id. exact I.
  - rewrite row_call_type. exact T.
  - discriminate.
  - exact P.
  - apply row_call_status_same. reflexivity.
  - rewrite row_call_type, Ty. exact Hh.
  - rewrite row_call_id, row_call_type.
    change (job_id j) with
      (call_id (CallStatus (job_id j) completed (mkExtras (Some gid) None))) at 1.
    rewrite calls_of_snoc_same. simpl. rewrite K, Ty. reflexivity.
Qed.

Lemma row_fail tr n rows ty pub msg j0 j :
  row_phase tr (Some (job_id j, ty, pub)) j0 j →
  pub `prefix_of` script ty →
  row_phase
    (tr ++ [mkSnapshot n (CallStatus (job_id j) failed
                            (mkExtras None (Some msg))) rows])
    None j0
    (row_call (CallStatus (job_id j) failed (mkExtras None (Some msg))) j).
Proof.
  intros H Hpre.
  destruct (row_phase_current _ _ _ _ _ _ H eq_refl) as (I & T & Ty & P & S & K).
  apply (row_failed _ _ _ _ pub msg).
  - rewrite row_call_id. exact I.
  - rewrite row_call_type. exact T.
  - discriminate.
  - exact P.
  - apply row_call_status_same. reflexivity.
  - simpl. case_decide; [reflexivity | congruence].
  - rewrite row_call_type, Ty. exact Hpre.
  - rewrite row_call_id.
    change (job_id j) with
      (call_id (CallStatus (job_id j) failed (mkExtras None (Some msg)))) at 1.
    rewrite calls_of_snoc_same. simpl. rewrite K. reflexivity.
Qed.

(** ** At most one row is [processing] *)

Lemma filter_length_le_1 {A B} (f : A → B) (P : A → Prop)
    `{∀ x, Decision (P x)} (b : B) (l : list A) :
  NoDup (f <$> l) → (∀ x, x ∈ l → P x → f x = b) →
  (length (filter P l) ≤ 1)%nat.
Proof.
  induction l as [|x l IH]; intros Hnd Hb; [simpl; lia|].
  rewrite fmap_cons in Hnd. apply NoDup_cons in Hnd as [Hx Hnd].
  rewrite filter_cons. case_decide as HP.
  - destruct (filter P l) as [|y k] eqn:E; [simpl; lia|].
    exfalso. apply Hx.
    assert (Hy : y ∈ filter P l) by (rewrite E; apply list_elem_of_here).
    apply list_elem_of_filter in Hy as [HPy Hyl].
    rewrite (Hb x (list_elem_of_here _ _) HP).
    rewrite <- (Hb y (list_elem_of_further _ _ _ Hyl) HPy).
    apply list_elem_of_fmap. exists y. split; [reflexivity | assumption].
  - apply IH; [assumption|]. intros y Hy. apply Hb. apply list_elem_of_further, Hy.
Qed.

Lemma unique_row (rows : list Job) j j' :
  NoDup (job_id <$> rows) → j ∈ rows → j' ∈ rows → job_id j = job_id j' → j = j'.
Proof.
  induction rows as [|r rows IH]; intros Hnd Hj Hj' E; [inversion Hj|].
  rewrite fmap_cons in Hnd. apply NoDup_cons in Hnd as [Hr Hnd].
  apply elem_of_cons in Hj as [->|Hj]; apply elem_of_cons in Hj' as [->|Hj'].
  - reflexivity.
  - exfalso. apply Hr. rewrite E. apply list_elem_of_fmap. eauto.
  - exfalso. apply Hr. rewrite <- E. apply list_elem_of_fmap. eauto.
  - apply IH; assumption.
Qed.

Lemma rows_ids tr cur rows0 rows :
  Forall2 (row_phase tr cur) rows0 rows → job_id <$> rows = job_id <$> rows0.
Proof.
  induction 1 as [|j0 j l0 l H _ IH]; [reflexivity|].
  rewrite !fmap_cons, IH. f_equal. apply (row_phase_ident _ _ _ _ H).
Qed.

Lemma rows_processing tr cur rows0 rows j :
  (∀ j0, j0 ∈ rows0 → job_status j0 ≠ processing) →
  Forall2 (row_phase tr cur) rows0 rows →
  j ∈ rows → job_status j = processing →
  current_id cur = Some (job_id j).
Proof.
  intros Hfresh Hrows Hj Hp.
  apply list_elem_of_lookup in Hj as [i Hi].
  destruct (Forall2_lookup_r _ _ _ _ _ Hrows Hi) as (j0 & Hi0 & Hph).
  destruct Hph as [E W C | pub I T C | gid I T C P S Hh K | ps msg I T C P S Er Pre K];
    try congruence.
  - subst j0. exfalso. apply (Hfresh j); [|assumption].
    apply list_elem_of_lookup. eauto.
  - rewrite C. reflexivity.
Qed.

Lemma rows_processing_count tr cur rows0 rows :
  NoDup (job_id <$> rows0) →
  (∀ j0, j0 ∈ rows0 → job_status j0 ≠ processing) →
  Forall2 (row_phase tr cur) rows0 rows →
  (processing_count rows ≤ 1)%nat.
Proof.
  intros Hnd Hfresh Hrows. unfold processing_count.
  destruct (current_id cur) as [cid|] eqn:Ec.
  - apply (filter_length_le_1 job_id _ cid).
    + rewrite (rows_ids _ _ _ _ Hrows). exact Hnd.
    + intros j Hj Hp.
      pose proof (rows_processing _ _ _ _ _ Hfresh Hrows Hj Hp) as H.
      congruence.
  - destruct (filter _ rows) as [|j k] eqn:E; [simpl; lia|].
    assert (Hy : j ∈ filter (λ j, job_status j = processing) rows)
      by (rewrite E; apply list_elem_of_here).
    apply list_elem_of_filter in Hy as [Hp Hj].
    pose proof (rows_processing _ _ _ _ _ Hfresh Hrows Hj Hp) as H.
    congruence.
Qed.

Lemma Forall2_fmap_r_elem {A B} (P Q : A → B → Prop) (g : B → B)
    (l : list A) (k : list B) :
  Forall2 P l k →
  (∀ x y, y ∈ k → P x y → Q x (g y)) →
  Forall2 Q l (g <$> k).
Proof.
  intros HF Himp. apply Forall2_fmap_r.
  apply Forall2_same_length_lookup. split; [eapply Forall2_length, HF|].
  intros i x y Hx Hy. simpl. apply Himp.
  - apply list_elem_of_lookup. eauto.
  - eapply Forall2_lookup_lr; eauto.
Qed.

Lemma core_write rows0 s cur cur' n c :
  Core rows0 s cur →
  (∀ j0 j, j ∈ store s → row_phase (trace s) cur j0 j →
           row_phase (trace (write n c s)) cur' j0 (row_call c j)) →
  Core rows0 (write n c s) cur'.
Proof.
  intros [Hnd Hfresh Hrows Hsnaps] Hstep.
  assert (Hrows' : Forall2 (row_phase (trace (write n c s)) cur') rows0
                     (store (write n c s))).
  { simpl. rewrite store_call_fmap.
    eapply Forall2_fmap_r_elem; [exact Hrows|].
    intros j0 j Hj Hph. specialize (Hstep j0 j Hj Hph).
    simpl in Hstep. rewrite store_call_fmap in Hstep. exact Hstep. }
  split; try assumption.
  simpl. apply Forall_app. split; [assumption|].
  apply Forall_singleton. simpl.
  eapply rows_processing_count; eassumption.
Qed.

Lemma core_same rows0 s s' cur :
  store s' = store s → trace s' = trace s →
  Core rows0 s cur → Core rows0 s' cur.
Proof.
  intros Es Et [Hnd Hfresh Hrows Hsnaps].
  split; try assumption; rewrite ?Es, ?Et; assumption.
Qed.

Lemma core_store_count rows0 s cur :
  Core rows0 s cur → (processing_count (store s) ≤ 1)%nat.
Proof. intros [Hnd Hfresh Hrows _]. eapply rows_processing_count; eassumption. Qed.

Lemma core_progress rows0 s id ty pub n p :
  Core rows0 s (Some (id, ty, pub)) →
  Core rows0 (write n (CallProgress id p) s) (Some (id, ty, pub ++ [p])).
Proof.
  intros HC. apply (core_write _ _ _ _ _ _ HC). intros j0 j Hj Hph. cbn [trace write].
  destruct (decide (job_id j = id)) as [<-|Hne].
  - apply row_progress, Hph.
  - rewrite row_call_other by (simpl; congruence).
    eapply row_phase_other; [exact Hph | | |].
    + apply writes_of_snoc_other. simpl. congruence.
    + simpl. congruence.
    + simpl. congruence.
Qed.

Lemma core_claim rows0 s n job :
  Core rows0 s None → job ∈ store s → job_status job = pending →
  Core rows0 (write n (claim_call (job_id job)) s)
    (Some (job_id job, job_type job, [])).
Proof.
  intros HC Hin Hp. apply (core_write _ _ _ _ _ _ HC). intros j0 j Hj Hph. cbn [trace write].
  destruct (decide (job_id j = job_id job)) as [E|Hne].
  - assert (j = job) as ->.
    { eapply unique_row; [|exact Hj|exact Hin|exact E].
      rewrite (rows_ids _ _ _ _ (core_rows _ _ _ HC)). apply (core_nodup _ _ _ HC). }
    apply row_claim; assumption.
  - rewrite row_call_other by (simpl; congruence).
    eapply row_phase_other; [exact Hph | | |].
    + apply writes_of_snoc_other. simpl. congruence.
    + simpl. congruence.
    + simpl. congruence.
Qed.

Lemma core_complete rows0 s id ty pub n gid :
  Core rows0 s (Some (id, ty, pub)) → handled ty → pub = script ty →
  Core rows0 (write n (CallStatus id completed (mkExtras (Some gid) None)) s)
    None.
Proof.
  intros HC Hh Hpub. apply (core_write _ _ _ _ _ _ HC). intros j0 j Hj Hph. cbn [trace write].
  destruct (decide (job_id j = id)) as [<-|Hne].
  - eapply row_complete; eassumption.
  - rewrite row_call_other by (simpl; congruence).
    eapply row_phase_other; [exact Hph | | |].
    + apply writes_of_snoc_other. simpl. congruence.
    + simpl. congruence.
    + simpl. congruence.
Qed.

Lemma core_fail rows0 s id ty pub n msg :
  Core rows0 s (Some (id, ty, pub)) → pub `prefix_of` script ty →
  Core rows0 (write n (CallStatus id failed (mkExtras None (Some msg))) s)
    None.
Proof.
  intros HC Hpub. apply (core_write _ _ _ _ _ _ HC). intros j0 j Hj Hph. cbn [trace write].
  destruct (decide (job_id j = id)) as [<-|Hne].
  - eapply row_fail; eassumption.
  - rewrite row_call_other by (simpl; congruence).
    eapply row_phase_other; [exact Hph | | |].
    + apply writes_of_snoc_other. simpl. congruence.
    + simpl. congruence.
    + simpl. congruence.
Qed.

(** ** The scripts of the handlers *)

Lemma script_handled ty :
  handled ty → script ty = opening ty ++ [0.7; 0.9]%Q.
Proof. intros [-> | [-> | ->]]; reflexivity. Qed.

Lemma script_unhandled ty : ¬ handled ty → script ty = [].
Proof.
  intros H. unfold script. unfold handled in H.
  repeat case_decide; try reflexivity; exfalso; apply H; auto.
Qed.

Lemma published_at_prefix ty a :
  handled ty → published_at ty a `prefix_of` script ty.
Proof.
  intros H. rewrite (script_handled _ H). unfold published_at.
  apply prefix_app. destruct a; simpl.
  - apply prefix_nil.
  - exists [0.9%Q]. reflexivity.
  - exists []. reflexivity.
Qed.

Lemma published_at_stage2 ty a :
  handled ty → stage a = 2%nat → published_at ty a = script ty.
Proof.
  intros H E. rewrite (script_handled _ H). unfold published_at. rewrite E.
  reflexivity.
Qed.

(** ** The invariant is kept by every event *)

Lemma conclude_inv rows0 s n job pub r :
  awaiting s = [] → isProcessing s = true →
  Core rows0 s (Some (job_id job, job_type job, pub)) →
  match r with
  | Suspends a => handled (job_type job) ∧ pub = published_at (job_type job) a
  | Returns _ => handled (job_type job) ∧ pub = script (job_type job)
  | Throws _ => pub `prefix_of` script (job_type job)
  end →
  Inv rows0 (conclude n job r s).
Proof.
  intros Haw Hflag HC Hr. destruct r as [a|gid|e]; simpl.
  - destruct Hr as [Hh ->]. right.
    exists (mkInvocation n job a). simpl. rewrite Haw.
    repeat split; try assumption; try reflexivity; apply HC.
  - destruct Hr as [Hh Hr].
    left. simpl. split; [reflexivity|]. split; [assumption|].
    eapply core_same; [| |eapply core_complete; eassumption]; reflexivity.
  - left. simpl. split; [reflexivity|]. split; [assumption|].
    eapply core_same; [| |eapply core_fail; eassumption]; reflexivity.
Qed.

Lemma dispatch_inv rows0 s n job :
  awaiting s = [] → isProcessing s = true →
  Core rows0 s (Some (job_id job, job_type job, [])) →
  Inv rows0 (conclude n job (dispatch n job s).1 (dispatch n job s).2).
Proof.
  intros Haw Hflag HC. unfold dispatch.
  destruct (decide (job_type job = "generate")) as [Eg|Ng];
    [|destruct (decide (job_type job = "edit")) as [Ee|Ne];
      [|destruct (decide (job_type job = "variation")) as [Ev|Nv]]].
  - cbn [processGenerateJob fst snd].
    eapply conclude_inv; [simpl; exact Haw | simpl; exact Hflag | |].
    + apply core_progress, core_progress. exact HC.
    + split; [left; assumption|]. rewrite Eg. reflexivity.
  - cbn [processEditJob fst snd].
    eapply conclude_inv; [simpl; exact Haw | simpl; exact Hflag | |].
    + apply core_progress. exact HC.
    + split; [right; left; assumption|]. rewrite Ee. reflexivity.
  - cbn [processVariationJob fst snd].
    eapply conclude_inv; [simpl; exact Haw | simpl; exact Hflag | |].
    + apply core_progress. exact HC.
    + split; [right; right; assumption|]. rewrite Ev. reflexivity.
  - cbn [fst snd].
    eapply conclude_inv; [exact Haw | exact Hflag | exact HC |].
    apply prefix_nil.
Qed.

Lemma save_image_at_stage gid images i a :
  save_image_at gid images i = Suspends a → stage a = 2%nat.
Proof.
  unfold save_image_at. destruct (images !! i) as [img|]; [|discriminate].
  destruct (b64_json img); [|discriminate]. intros [= <-]. reflexivity.
Qed.

Lemma save_image_at_inv rows0 s n job gid images i :
  awaiting s = [] → isProcessing s = true → handled (job_type job) →
  Core rows0 s (Some (job_id job, job_type job, script (job_type job))) →
  Inv rows0 (conclude n job (save_image_at gid images i) s).
Proof.
  intros Haw Hflag Hh HC.
  eapply conclude_inv; [exact Haw | exact Hflag | exact HC |].
  destruct (save_image_at gid images i) as [a| |] eqn:E.
  - split; [assumption|]. symmetry. apply published_at_stage2; [assumption|].
    eapply save_image_at_stage, E.
  - split; [assumption | reflexivity].
  - reflexivity.
Qed.

Lemma resume_inv rows0 s n job a o uuid :
  awaiting s = [] → isProcessing s = true → handled (job_type job) →
  Core rows0 s
    (Some (job_id job, job_type job, published_at (job_type job) a)) →
  Inv rows0 (conclude n job (resume n job a o uuid s).1
               (resume n job a o uuid s).2).
Proof.
  intros Haw Hflag Hh HC. destruct o as [v|e]; cbn [resume].
  - destruct a as [mode|mode gid response|gid images i].
    + cbn [fst snd].
      eapply conclude_inv; [simpl; exact Haw | simpl; exact Hflag | |].
      * apply core_progress. exact HC.
      * split; [assumption|]. unfold published_at. simpl.
        rewrite app_nil_r. reflexivity.
    + assert (HC' : Core rows0
                 (write n (CallProgress (job_id job) 0.9%Q) s)
                 (Some (job_id job, job_type job, script (job_type job)))).
      { rewrite (script_handled _ Hh).
        replace (opening (job_type job) ++ [0.7%Q; 0.9%Q])
          with (published_at (job_type job)
                  (AwaitCreateGeneration mode gid response) ++ [0.9%Q]).
        - apply core_progress. exact HC.
        - unfold published_at. simpl. rewrite <- app_assoc. reflexivity. }
      destruct response as [r|]; cbn [fst snd].
      * destruct (data r) as [images|]; cbn [fst snd].
        -- apply save_image_at_inv; [simpl; exact Haw | simpl; exact Hflag | exact Hh | exact HC'].
        -- eapply conclude_inv; [simpl; exact Haw | simpl; exact Hflag | exact HC' |].
           split; [assumption | reflexivity].
      * eapply conclude_inv; [simpl; exact Haw | simpl; exact Hflag | exact HC' | reflexivity].
    + cbn [fst snd]. apply save_image_at_inv; try assumption.
      rewrite <- (published_at_stage2 _ (AwaitCreateGeneratedImage gid images i) Hh eq_refl).
      exact HC.
  - cbn [fst snd].
    eapply conclude_inv; [exact Haw | exact Hflag | exact HC |].
    apply published_at_prefix, Hh.
Qed.

Lemma surjective_pairing_let {A B C} (p : A * B) (f : A → B → C) :
  (let '(a, b) := p in f a b) = f p.1 p.2.
Proof. destruct p; reflexivity. Qed.

Lemma processQueue_inv rows0 s : Inv rows0 s → Inv rows0 (processQueue s).
Proof.
  intros HI. unfold processQueue. cbn [isProcessing count_call store].
  destruct (isProcessing s) eqn:Hflag.
  - destruct HI as [(F & _ & _)|(inv & F & Haw & Hh & HC)]; [congruence|].
    right. exists inv. repeat split; try assumption.
    all: try (eapply core_same; [| |exact HC]; reflexivity).
  - destruct HI as [(F & Haw & HC)|(inv & F & _)]; [|congruence].
    destruct (getNextPendingJob (store s)) as [job|] eqn:Enext.
    + destruct (getNextPendingJob_Some _ _ Enext) as [Hin Hp].
      rewrite surjective_pairing_let.
      apply dispatch_inv; [exact Haw | reflexivity |].
      apply core_claim; [|exact Hin|exact Hp].
      eapply core_same; [| |exact HC]; reflexivity.
    + left. repeat split; try assumption.
      all: try (eapply core_same; [| |exact HC]; reflexivity).
Qed.

Lemma settle_inv rows0 s k o uuid : Inv rows0 s → Inv rows0 (settle k o uuid s).
Proof.
  intros HI. unfold settle.
  destruct (awaiting s !! k) as [inv|] eqn:Ek; [|exact HI].
  destruct HI as [(F & Haw & HC)|(inv' & F & Haw & Hh & HC)].
  - rewrite Haw in Ek. discriminate.
  - rewrite Haw in Ek. destruct k as [|k]; [|discriminate].
    injection Ek as ->. rewrite Haw. cbn [delete list_delete].
    rewrite surjective_pairing_let.
    apply resume_inv; [reflexivity | exact F | exact Hh |].
    eapply core_same; [| |exact HC]; reflexivity.
Qed.

Lemma step_inv rows0 s e : Inv rows0 s → Inv rows0 (step s e).
Proof. destruct e; [apply processQueue_inv | apply settle_inv]. Qed.

Lemma run_inv rows0 es s : Inv rows0 s → Inv rows0 (run es s).
Proof.
  unfold run. revert s. induction es as [|e es IH]; intros s HI; [exact HI|].
  simpl. apply IH, step_inv, HI.
Qed.

Lemma boot_inv rows0 : fresh rows0 → Inv rows0 (boot rows0).
Proof.
  intros [Hnd Hfresh]. left. repeat split; try assumption; try reflexivity.
  - simpl. apply Forall2_same_length_lookup. split; [reflexivity|].
    intros i x y Hx Hy. assert (x = y) as -> by congruence.
    apply row_untouched; [reflexivity | reflexivity | discriminate].
  - simpl. constructor.
Qed.

Lemma reachable_inv rows0 es :
  fresh rows0 → Inv rows0 (run es (boot rows0)).
Proof. intros H. apply run_inv, boot_inv, H. Qed.

Lemma inv_core rows0 s : Inv rows0 s → ∃ cur, Core rows0 s cur.
Proof. intros [(_ & _ & HC)|(inv & _ & _ & _ & HC)]; eauto. Qed.

(** ** What the invariant says about one row *)

Lemma shape_published id tr ps outs :
  calls_of id tr
  = claim_call id :: (CallProgress id <$> ps) ++ status_calls id outs →
  published id tr = ps.
Proof.
  intros E. rewrite published_calls, E. cbn [omap list_omap claim_call].
  rewrite omap_app, omap_progress_calls.
  assert (omap (λ c, match c with
                     | CallProgress _ p => Some p
                     | CallStatus _ _ _ => None
                     end) (status_calls id outs) = []) as ->.
  { clear E. induction outs as [|o outs IH]; [reflexivity | exact IH]. }
  apply app_nil_r.
Qed.

Lemma shape_outcomes id tr ps outs :
  calls_of id tr
  = claim_call id :: (CallProgress id <$> ps) ++ status_calls id outs →
  outcomes id tr = processing :: outs.*1.
Proof.
  intros E. rewrite outcomes_calls, E. cbn [omap list_omap claim_call].
  rewrite omap_app, omap_status_progress_calls. f_equal. clear E.
  induction outs as [|o outs IH]; [reflexivity|].
  cbn [status_calls fmap list_fmap omap list_omap app]. f_equal. exact IH.
Qed.

Lemma shape_claimants id tr ps outs :
  calls_of id tr
  = claim_call id :: (CallProgress id <$> ps) ++ status_calls id outs →
  processing ∉ outs.*1 →
  ∃ n, claimants id tr = [n].
Proof.
  intros E Hno.
  pose proof (claimants_length id tr) as L.
  rewrite (shape_outcomes _ _ _ _ E) in L.
  rewrite filter_cons in L. case_decide; [|congruence].
  assert (filter (λ st, st = processing) outs.*1 = []) as Hnil.
  { destruct (filter _ outs.*1) as [|x k] eqn:F; [reflexivity|].
    exfalso. assert (Hx : x ∈ filter (λ st, st = processing) outs.*1)
      by (rewrite F; apply list_elem_of_here).
    apply list_elem_of_filter in Hx as [-> Hx]. contradiction. }
  rewrite Hnil in L. simpl in L.
  destruct (claimants id tr) as [|n [|m k]]; try discriminate. eauto.
Qed.

Lemma writes_nil_claimants id tr : writes_of id tr = [] → claimants id tr = [].
Proof. unfold claimants. intros ->. reflexivity. Qed.

Lemma writes_nil_published id tr : writes_of id tr = [] → published id tr = [].
Proof. unfold published. intros ->. reflexivity. Qed.

Lemma writes_nil_outcomes id tr : writes_of id tr = [] → outcomes id tr = [].
Proof. unfold outcomes. intros ->. reflexivity. Qed.

(** The record of one row, read off its phase. *)
Lemma row_facts tr cur j0 j :
  row_phase tr cur j0 j →
  (∀ pub, cur = Some (job_id j, job_type j, pub) →
          pub `prefix_of` script (job_type j)) →
  published (job_id j0) tr `prefix_of` script (job_type j0)
  ∧ (completed ∈ outcomes (job_id j0) tr →
     handled (job_type j0)
     ∧ published (job_id j0) tr = script (job_type j0))
  ∧ (failed ∈ outcomes (job_id j0) tr →
     job_status j = failed ∧ ∃ msg, job_error j = Some msg)
  ∧ (length (claimants (job_id j0) tr) ≤ 1)%nat
  ∧ (job_status j0 = pending → job_status j ≠ pending →
     ∃ n, claimants (job_id j0) tr = [n])
  ∧ (job_status j0 ≠ pending → claimants (job_id j0) tr = []).
Proof.
  intros H Hcur.
  destruct H as [E W C | pub I T C P S K | gid I T C P S Hh K | ps msg I T C P S Er Pre K].
  - subst j0.
    rewrite (writes_nil_published _ _ W), (writes_nil_outcomes _ _ W),
      (writes_nil_claimants _ _ W).
    split; [apply prefix_nil|]. split; [intros X; inversion X|].
    split; [intros X; inversion X|]. split; [simpl; lia|].
    split; [congruence | reflexivity].
  - rewrite <- I, <- T.
    assert (K' : calls_of (job_id j) tr
                 = claim_call (job_id j) :: (CallProgress (job_id j) <$> pub)
                   ++ status_calls (job_id j) []).
    { rewrite K. simpl. rewrite app_nil_r. reflexivity. }
    rewrite (shape_published _ _ _ _ K'), (shape_outcomes _ _ _ _ K').
    destruct (shape_claimants _ _ _ _ K') as [n Hn]; [intros X; inversion X|].
    rewrite Hn.
    split; [apply Hcur; exact C|].
    split; [intros X; apply list_elem_of_singleton in X; discriminate|].
    split; [intros X; apply list_elem_of_singleton in X; discriminate|].
    split; [simpl; lia|]. split; [eauto | congruence].
  - rewrite <- I, <- T.
    assert (K' : calls_of (job_id j) tr
                 = claim_call (job_id j)
                   :: (CallProgress (job_id j) <$> script (job_type j))
                   ++ status_calls (job_id j)
                        [(completed, mkExtras (Some gid) None)])
      by exact K.
    rewrite (shape_published _ _ _ _ K'), (shape_outcomes _ _ _ _ K').
    destruct (shape_claimants _ _ _ _ K') as [n Hn].
    { simpl. intros X. apply list_elem_of_singleton in X. discriminate. }
    rewrite Hn.
    split; [reflexivity|]. split; [auto|].
    split.
    { simpl. intros X. apply elem_of_cons in X as [X|X]; [discriminate|].
      apply list_elem_of_singleton in X. discriminate. }
    split; [simpl; lia|]. split; [eauto | congruence].
  - rewrite <- I, <- T.
    assert (K' : calls_of (job_id j) tr
                 = claim_call (job_id j) :: (CallProgress (job_id j) <$> ps)
                   ++ status_calls (job_id j)
                        [(failed, mkExtras None (Some msg))])
      by exact K.
    rewrite (shape_published _ _ _ _ K'), (shape_outcomes _ _ _ _ K').
    destruct (shape_claimants _ _ _ _ K') as [n Hn].
    { simpl. intros X. apply list_elem_of_singleton in X. discriminate. }
    rewrite Hn.
    split; [exact Pre|].
    split.
    { simpl. intros X. apply elem_of_cons in X as [X|X]; [discriminate|].
      apply list_elem_of_singleton in X. discriminate. }
    split; [eauto|]. split; [simpl; lia|]. split; [eauto | congruence].
Qed.

(** The record of one row in any state the event loop can reach. *)
Lemma inv_row_facts rows0 s j0 :
  Inv rows0 s → j0 ∈ rows0 →
  ∃ j, j ∈ store s ∧ job_id j = job_id j0 ∧ job_type j = job_type j0
  ∧ published (job_id j0) (trace s) `prefix_of` script (job_type j0)
  ∧ (completed ∈ outcomes (job_id j0) (trace s) →
     handled (job_type j0)
     ∧ published (job_id j0) (trace s) = script (job_type j0))
  ∧ (failed ∈ outcomes (job_id j0) (trace s) →
     job_status j = failed ∧ ∃ msg, job_error j = Some msg)
  ∧ (length (claimants (job_id j0) (trace s)) ≤ 1)%nat
  ∧ (job_status j0 = pending → job_status j ≠ pending →
     ∃ n, claimants (job_id j0) (trace s) = [n])
  ∧ (job_status j0 ≠ pending → claimants (job_id j0) (trace s) = []).
Proof.
  intros HI Hj0.
  assert (∃ cur j, j ∈ store s ∧ row_phase (trace s) cur j0 j
                   ∧ ∀ pub, cur = Some (job_id j, job_type j, pub) →
                            pub `prefix_of` script (job_type j))
    as (cur & j & Hj & Hph & Hcur).
  { apply list_elem_of_lookup in Hj0 as [i Hi].
    destruct HI as [(_ & _ & HC)|(inv & _ & _ & Hh & HC)].
    - destruct (Forall2_lookup_l _ _ _ _ _ (core_rows _ _ _ HC) Hi)
        as (j & Hj & Hph).
      exists None, j. split; [apply list_elem_of_lookup; eauto|].
      split; [exact Hph | discriminate].
    - destruct (Forall2_lookup_l _ _ _ _ _ (core_rows _ _ _ HC) Hi)
        as (j & Hj & Hph).
      eexists _, j. split; [apply list_elem_of_lookup; eauto|].
      split; [exact Hph|]. intros pub [= _ E <-]. rewrite <- E.
      apply published_at_prefix, Hh. }
  exists j. split; [exact Hj|].
  destruct (row_phase_ident _ _ _ _ Hph) as [I T].
  split; [exact I|]. split; [exact T|].
  exact (row_facts _ _ _ _ Hph Hcur).
Qed.

(** ** One call of [processQueue] on an idle module *)

Lemma dispatch_handled n job s :
  handled (job_type job) →
  (dispatch n job s).1 = Suspends (AwaitGenerateImageDirect (job_type job))
  ∧ isProcessing (dispatch n job s).2 = isProcessing s
  ∧ awaiting (dispatch n job s).2 = awaiting s
  ∧ calls (dispatch n job s).2 = calls s
  ∧ ∃ snaps, trace (dispatch n job s).2 = trace s ++ snaps
      ∧ snap_call <$> snaps = CallProgress (job_id job) <$> opening (job_type job).
Proof.
  intros [E | [E | E]]; unfold dispatch; rewrite E; simpl;
    repeat split; try reflexivity; eexists; rewrite <- ?app_assoc;
    (split; [reflexivity|]); reflexivity.
Qed.

Lemma dispatch_unhandled n job s :
  ¬ handled (job_type job) →
  dispatch n job s = (Throws (mkError ("Unknown job type: " +:+ job_type job)), s).
Proof.
  intros H. unfold dispatch, handled in *.
  repeat case_decide; try reflexivity; exfalso; apply H; auto.
Qed.

Lemma drop_app_length {A} (l k : list A) : drop (length l) (l ++ k) = k.
Proof. induction l; simpl; auto. Qed.

Lemma store_call_status_row id st ex rows j :
  j ∈ store_call (CallStatus id st ex) rows → job_id j = id →
  job_status j = st ∧ ∀ m, error ex = Some m → job_error j = Some m.
Proof.
  simpl. unfold updateJobStatus. intros Hj E.
  apply list_elem_of_fmap in Hj as (j' & -> & _).
  rewrite row_call_id in E. cbn [row_call]. case_decide; [|congruence].
  split; [reflexivity|]. intros m Hm. cbn [with_status job_error]. rewrite Hm.
  reflexivity.
Qed.

Lemma processQueue_idle s job :
  isProcessing s = false → getNextPendingJob (store s) = Some job →
  processQueue s
  = let s1 := write (calls s) (claim_call (job_id job))
                (set_in_flight true (Some job) (count_call s)) in
    conclude (calls s) job (dispatch (calls s) job s1).1
      (dispatch (calls s) job s1).2.
Proof.
  intros F E. unfold processQueue. cbn [isProcessing count_call store].
  rewrite F, E. apply surjective_pairing_let.
Qed.

(** ** Dispatch by job type *)

(** C7, counterexample: an [upscale] job, one of the four declared types,
    is not handed to any handler; the call that claims it fails it with
    [Unknown job type: upscale]. *)
Lemma C7_counterexample_upscale :
  let job := mkJob "u1" "upscale" "U1" "" pending 0 None None 1 in
  declared (job_type job)
  ∧ ¬ dispatched_to_handler (boot [job]) job
  ∧ store (processQueue (boot [job]))
    = [mkJob "u1" "upscale" "U1" "" failed 0
         (Some "Unknown job type: upscale") None 1].
Proof.
  cbn zeta. split; [right; right; right; reflexivity|].
  split; [|reflexivity].
  intros [a Ha]. vm_compute in Ha. inversion Ha.
Qed.

(** C7, amended: a claimed job of type [generate], [edit] or [variation] is
    handed to the handler of its type, which publishes its opening progress
    and parks on the engine call; a claimed job of any other type, [upscale]
    included, is failed on the spot with [Unknown job type: <type>]. *)
Theorem C7_dispatch_by_type (s : Sys) (job : Job) :
  isProcessing s = false →
  getNextPendingJob (store s) = Some job →
  (handled (job_type job) →
     awaiting (processQueue s)
     = awaiting s
       ++ [mkInvocation (calls s) job (AwaitGenerateImageDirect (job_type job))]
     ∧ isProcessing (processQueue s) = true
     ∧ appended s (processQueue s)
       = claim_call (job_id job)
         :: (CallProgress (job_id job) <$> opening (job_type job)))
  ∧ (¬ handled (job_type job) →
     awaiting (processQueue s) = awaiting s
     ∧ isProcessing (processQueue s) = false
     ∧ appended s (processQueue s)
       = [claim_call (job_id job);
          CallStatus (job_id job) failed
            (mkExtras None (Some ("Unknown job type: " +:+ job_type job)))]
     ∧ ∀ j, j ∈ store (processQueue s) → job_id j = job_id job →
            job_status j = failed
            ∧ job_error j = Some ("Unknown job type: " +:+ job_type job)).
Proof.
  intros F E. rewrite (processQueue_idle _ _ F E). cbn zeta. split.
  - intros Hh.
    set (s1 := write (calls s) (claim_call (job_id job))
                 (set_in_flight true (Some job) (count_call s))).
    destruct (dispatch_handled (calls s) job s1 Hh)
      as (-> & Hf & Ha & _ & snaps & Ht & Hs).
    cbn [conclude]. unfold appended. cbn [awaiting isProcessing trace set_awaiting].
    rewrite Ha, Hf, Ht. subst s1. cbn [awaiting isProcessing trace write set_in_flight count_call].
    rewrite <- app_assoc, drop_app_length. cbn [fmap list_fmap app].
    rewrite Hs. auto.
  - intros Hn. rewrite (dispatch_unhandled _ _ _ Hn). cbn [fst snd conclude].
    unfold appended. cbn [awaiting isProcessing trace store release write
                          set_in_flight count_call message].
    rewrite <- app_assoc, drop_app_length.
    repeat split; try reflexivity.
    + apply (store_call_status_row _ _ _ _ _ H H0).
    + apply (store_call_status_row _ _ _ _ _ H H0). reflexivity.
Qed.

(** The hypotheses of [C7_dispatch_by_type] hold of a store with one edit
    job. *)
Lemma C7_dispatch_by_type_witness :
  let job := mkJob "e1" "edit" "M1" "p" pending 0 None None 1 in
  isProcessing (boot [job]) = false
  ∧ getNextPendingJob (store (boot [job])) = Some job
  ∧ awaiting (processQueue (boot [job]))
    = [mkInvocation 0 job (AwaitGenerateImageDirect "edit")].
Proof.
  cbn zeta. split; [reflexivity|]. split; [reflexivity|].
  refine (proj1 (proj1 (C7_dispatch_by_type
            (boot [mkJob "e1" "edit" "M1" "p" pending 0 None None 1]) _
            eq_refl eq_refl) _)).
  right; left; reflexivity.
Defined.

(** ** Failure isolation *)

Lemma conclude_throws n job err s :
  let s' := conclude n job (Throws err) s in
  isProcessing s' = false ∧ currentJob s' = None
  ∧ awaiting s' = awaiting s ∧ calls s' = calls s
  ∧ trace s'
    = trace s
      ++ [mkSnapshot n
            (CallStatus (job_id job) failed (mkExtras None (Some (message err))))
            (store s')]
  ∧ ∀ j, j ∈ store s' → job_id j = job_id job →
         job_status j = failed ∧ job_error j = Some (message err).
Proof.
  cbn zeta. cbn [conclude release set_in_flight write isProcessing currentJob
                  awaiting calls trace store].
  repeat split; try reflexivity.
  - apply (store_call_status_row _ _ _ _ _ H H0).
  - apply (store_call_status_row _ _ _ _ _ H H0). reflexivity.
Qed.

Lemma processQueue_claims s next :
  isProcessing s = false → getNextPendingJob (store s) = Some next →
  ∃ rest,
    trace (processQueue s)
    = trace s
      ++ mkSnapshot (calls s) (claim_call (job_id next))
           (updateJobStatus (job_id next) processing no_extras (store s))
         :: rest.
Proof.
  intros F E. rewrite (processQueue_idle _ _ F E). cbn zeta.
  set (s1 := write (calls s) (claim_call (job_id next))
               (set_in_flight true (Some next) (count_call s))).
  assert (Ht1 : trace s1
                = trace s
                  ++ [mkSnapshot (calls s) (claim_call (job_id next))
                        (updateJobStatus (job_id next) processing no_extras
                           (store s))]) by reflexivity.
  destruct (decide (handled (job_type next))) as [Hh|Hn].
  - destruct (dispatch_handled (calls s) next s1 Hh)
      as (-> & _ & _ & _ & snaps & Ht & _).
    cbn [conclude trace set_awaiting]. rewrite Ht, Ht1, <- app_assoc.
    eexists. reflexivity.
  - rewrite (dispatch_unhandled _ _ _ Hn). cbn [fst snd].
    cbn [conclude release set_in_flight write trace]. fold s1.
    rewrite Ht1, <- app_assoc. eexists. reflexivity.
Qed.

Lemma sparing_id id : sparing id (λ j, j).
Proof. split; reflexivity. Qed.

Lemma sparing_call c : sparing (call_id c) (row_call c).
Proof. split; [intros j; apply row_call_other | apply row_call_id]. Qed.

Lemma sparing_compose id f g : sparing id f → sparing id g → sparing id (g ∘ f).
Proof.
  intros [Hf1 Hf2] [Hg1 Hg2]. split; intros j; cbn [compose].
  - intros Hne. rewrite (Hf1 j Hne). apply Hg1, Hne.
  - rewrite Hg2. apply Hf2.
Qed.

(** Rows that are no longer pending do not count for the choice of the
    next job. *)
Lemma getNextPendingJob_sparing id f rows :
  sparing id f →
  (∀ j, j ∈ rows → job_id j = id → job_status (f j) ≠ pending) →
  getNextPendingJob (f <$> rows)
  = getNextPendingJob (filter (λ j, job_id j ≠ id) rows).
Proof.
  intros [Hf _] Hnp. induction rows as [|j rows IH]; [reflexivity|].
  cbn [fmap list_fmap]. fold (@fmap list _ _ _ f rows).
  assert (IH' : getNextPendingJob (f <$> rows)
                = getNextPendingJob (filter (λ j, job_id j ≠ id) rows))
    by (apply IH; intros j' Hin; apply Hnp, list_elem_of_further, Hin).
  destruct (decide (job_id j = id)) as [E|Hne].
  - rewrite filter_cons_False by (intros H; apply H, E).
    cbn [getNextPendingJob]. rewrite IH'.
    destruct (decide (job_status (f j) = pending)) as [Hp|_].
    { exfalso. exact (Hnp j (list_elem_of_here _ _) E Hp). }
    destruct (getNextPendingJob (filter _ rows)); reflexivity.
  - rewrite filter_cons_True by exact Hne.
    rewrite (Hf j Hne). cbn [getNextPendingJob]. rewrite IH'. reflexivity.
Qed.

Lemma raised_store s e job err :
  raised s e = Some (job, err) →
  ∃ n s1 f,
    step s e = conclude n job (Throws err) s1
    ∧ store s1 = f <$> store s ∧ sparing (job_id job) f.
Proof.
  intros Hr. destruct e as [|k o uuid]; cbn [raised step] in *.
  - destruct (isProcessing s) eqn:F; [discriminate|].
    destruct (getNextPendingJob (store s)) as [job'|] eqn:E; [|discriminate].
    rewrite (processQueue_idle _ _ F E). cbn zeta.
    destruct (decide (handled (job_type job'))) as [Hh|Hn].
    + destruct (dispatch_handled (calls s) job' s Hh) as (Hd & _).
      rewrite Hd in Hr. discriminate.
    + rewrite (dispatch_unhandled _ _ s Hn) in Hr.
      rewrite (dispatch_unhandled _ _ _ Hn). cbn [fst snd] in *.
      injection Hr as -> <-.
      eexists _, _, (row_call (claim_call (job_id job))).
      split; [reflexivity|].
      split; [cbn [write store set_in_flight count_call];
              apply store_call_fmap|].
      apply (sparing_call (claim_call (job_id job))).
  - unfold settle. destruct (awaiting s !! k) as [inv|]; [|discriminate].
    rewrite surjective_pairing_let.
    set (s0 := set_awaiting (delete k (awaiting s)) s).
    assert (Hres : ∃ f,
              (resume (inv_no inv) (inv_job inv) (inv_at inv) o uuid s0).1
              = (resume (inv_no inv) (inv_job inv) (inv_at inv) o uuid s).1
              ∧ store (resume (inv_no inv) (inv_job inv) (inv_at inv) o uuid
                         s0).2
                = f <$> store s
              ∧ sparing (job_id (inv_job inv)) f).
    { destruct o as [v|e0].
      - destruct (inv_at inv) as [m|m g [r|]|g im i]; cbn [resume fst snd].
        + exists (row_call (CallProgress (job_id (inv_job inv)) 0.7%Q)).
          split; [reflexivity|]. split; [apply store_call_fmap|].
          apply (sparing_call (CallProgress (job_id (inv_job inv)) 0.7%Q)).
        + exists (row_call (CallProgress (job_id (inv_job inv)) 0.9%Q)).
          split; [destruct (data r); reflexivity|].
          split; [destruct (data r); apply store_call_fmap|].
          apply (sparing_call (CallProgress (job_id (inv_job inv)) 0.9%Q)).
        + exists (row_call (CallProgress (job_id (inv_job inv)) 0.9%Q)).
          split; [reflexivity|]. split; [apply store_call_fmap|].
          apply (sparing_call (CallProgress (job_id (inv_job inv)) 0.9%Q)).
        + exists (λ j, j). split; [reflexivity|].
          split; [symmetry; apply list_fmap_id | apply sparing_id].
      - exists (λ j, j). split; [reflexivity|].
        split; [symmetry; apply list_fmap_id | apply sparing_id]. }
    destruct Hres as (f & Hsame & Hstore & Hsp).
    rewrite Hsame.
    destruct (resume _ _ _ o uuid s).1 as [a|g|e1]; try discriminate.
    injection Hr as <- <-. eauto 8.
Qed.

Lemma sparing_frame id f (rows : list Job) (i : nat) j :
  sparing id f → rows !! i = Some j → job_id j ≠ id →
  (f <$> rows) !! i = Some j.
Proof.
  intros [Hf _] Hi Hne. rewrite list_lookup_fmap, Hi.
  cbn [fmap option_fmap option_map]. rewrite (Hf j Hne). reflexivity.
Qed.

Lemma sparing_frame_inv id f (rows : list Job) (i : nat) j' :
  sparing id f → (f <$> rows) !! i = Some j' → job_id j' ≠ id →
  rows !! i = Some j'.
Proof.
  intros [Hf Hid] Hi Hne. rewrite list_lookup_fmap in Hi.
  destruct (rows !! i) as [j|]; [|discriminate].
  cbn [fmap option_fmap option_map] in Hi. injection Hi as <-.
  rewrite Hid in Hne. rewrite (Hf j Hne). reflexivity.
Qed.

(** C8: when the processing of a claimed job throws, in the call that
    claimed it or in a later stretch of its handler, the event ends with the
    job [failed] and the error's message recorded on it, with the in-flight
    flag released and [currentJob] cleared.  No other job is touched: the
    store has the rows it had, those of the other jobs unchanged and in
    their places, so every job that was pending still is.  The job the
    next call of [processQueue] finds is therefore the oldest of the jobs
    that were pending before, the failed one apart, and that call claims
    it. *)
Theorem C8_failure_isolation (s : Sys) (e : Event) (job : Job) (err : Error) :
  raised s e = Some (job, err) →
  let s' := step s e in
  isProcessing s' = false
  ∧ currentJob s' = None
  ∧ (∀ j, j ∈ store s' → job_id j = job_id job →
          job_status j = failed ∧ job_error j = Some (message err))
  ∧ (∃ tr n,
       trace s'
       = tr ++ [mkSnapshot n
                  (CallStatus (job_id job) failed
                     (mkExtras None (Some (message err))))
                  (store s')])
  ∧ length (store s') = length (store s)
  ∧ (∀ i j, store s !! i = Some j → job_id j ≠ job_id job →
            store s' !! i = Some j)
  ∧ (∀ i j, store s' !! i = Some j → job_id j ≠ job_id job →
            store s !! i = Some j)
  ∧ getNextPendingJob (store s')
    = getNextPendingJob (filter (λ j, job_id j ≠ job_id job) (store s))
  ∧ (∀ j, j ∈ store s → job_status j = pending → job_id j ≠ job_id job →
          ∃ next, getNextPendingJob (store s') = Some next)
  ∧ (∀ next, getNextPendingJob (store s') = Some next →
       next ∈ store s ∧ job_status next = pending
       ∧ job_id next ≠ job_id job
       ∧ ∃ rest,
           trace (processQueue s')
           = trace s'
             ++ mkSnapshot (calls s') (claim_call (job_id next))
                  (updateJobStatus (job_id next) processing no_extras
                     (store s'))
                :: rest).
Proof.
  intros Hr. cbn zeta.
  destruct (raised_store s e job err Hr) as (n & s1 & f & -> & Hs1 & Hsp).
  destruct (conclude_throws n job err s1) as (F & C & _ & _ & T & Hrow).
  set (c := CallStatus (job_id job) failed (mkExtras None (Some (message err)))).
  assert (Hstore : store (conclude n job (Throws err) s1)
                   = (row_call c ∘ f) <$> store s).
  { cbn [conclude release set_in_flight write store]. rewrite store_call_fmap.
    rewrite Hs1, <- list_fmap_compose. reflexivity. }
  assert (Hsp' : sparing (job_id job) (row_call c ∘ f))
    by (apply sparing_compose; [exact Hsp | apply (sparing_call c)]).
  assert (Hnext : getNextPendingJob (store (conclude n job (Throws err) s1))
                  = getNextPendingJob
                      (filter (λ j, job_id j ≠ job_id job) (store s))).
  { rewrite Hstore. apply getNextPendingJob_sparing; [exact Hsp'|].
    intros j _ Hid. cbn [compose]. unfold c.
    rewrite (row_call_status_same (job_id job) failed _ (f j))
      by (rewrite (proj2 Hsp); exact Hid).
    discriminate. }
  split; [exact F|]. split; [exact C|]. split; [exact Hrow|].
  split; [eauto|].
  split; [rewrite Hstore; apply length_fmap|].
  split; [intros i j Hi Hne; rewrite Hstore;
          apply (sparing_frame _ _ _ _ _ Hsp' Hi Hne)|].
  split; [intros i j Hi Hne; rewrite Hstore in Hi;
          apply (sparing_frame_inv _ _ _ _ _ Hsp' Hi Hne)|].
  split; [exact Hnext|]. split.
  - intros j Hj Hp Hne.
    destruct (getNextPendingJob (store (conclude n job (Throws err) s1)))
      as [next|]; [eauto|].
    exfalso.
    apply (proj1 (getNextPendingJob_None _) (eq_sym Hnext) j); [|exact Hp].
    apply list_elem_of_filter. split; [exact Hne | exact Hj].
  - intros next Hn. pose proof Hn as Hn'. rewrite Hnext in Hn'.
    apply getNextPendingJob_Some in Hn' as [Hin Hp].
    apply list_elem_of_filter in Hin as [Hne Hin].
    split; [exact Hin|]. split; [exact Hp|]. split; [exact Hne|].
    apply processQueue_claims; [exact F | exact Hn].
Qed.

(** The hypothesis of [C8_failure_isolation] holds when the engine call of
    a parked generate job is rejected, with an edit job waiting behind:
    the edit job is untouched and is the one claimed next. *)
Lemma C8_failure_isolation_witness :
  let j1 := mkJob "a" "generate" "M1" "cat" pending 0 None None 1 in
  let j2 := mkJob "b" "edit" "M1" "dog" pending 0 None None 2 in
  let s := run [Tick] (boot [j1; j2]) in
  let e := Settle 0 (Rejected (mkError "connect ECONNREFUSED")) "" in
  raised s e = Some (j1, mkError "connect ECONNREFUSED")
  ∧ isProcessing (step s e) = false
  ∧ store (step s e) !! 1%nat = Some j2
  ∧ getNextPendingJob (store (step s e)) = Some j2
  ∧ currentJob (processQueue (step s e)) = Some j2.
Proof.
  intros j1 j2 s e.
  assert (Hr : raised s e = Some (j1, mkError "connect ECONNREFUSED"))
    by reflexivity.
  destruct (C8_failure_isolation s e j1 (mkError "connect ECONNREFUSED") Hr)
    as (Hidle & _ & _ & _ & _ & Hframe & _ & Hnext & _).
  split; [exact Hr|]. split; [exact Hidle|].
  split; [apply (Hframe 1%nat j2); [reflexivity | discriminate]|].
  split; [rewrite Hnext; reflexivity|].
  vm_compute. reflexivity.
Defined.

(** ** Published progress *)







(** ** Draining the store *)

Lemma filter_fmap_le {A} (P : A → Prop) `{∀ x, Decision (P x)} (g : A → A)
    (l : list A) :
  (∀ x, P (g x) → P x) →
  (length (filter P (g <$> l)) ≤ length (filter P l))%nat.
Proof.
  intros Hg. induction l as [|x l IH]; [reflexivity|].
  rewrite fmap_cons, !filter_cons.
  destruct (decide (P (g x))) as [Hgx|Hgx]; destruct (decide (P x)) as [Hx|Hx];
    simpl; try lia.
  exfalso. apply Hx, Hg, Hgx.
Qed.

Lemma filter_fmap_lt {A} (P : A → Prop) `{∀ x, Decision (P x)} (g : A → A)
    (l : list A) (a : A) :
  (∀ x, P (g x) → P x) → a ∈ l → P a → ¬ P (g a) →
  (length (filter P (g <$> l)) < length (filter P l))%nat.
Proof.
  intros Hg Ha HPa Hga. induction l as [|x l IH]; [inversion Ha|].
  rewrite fmap_cons, !filter_cons.
  apply elem_of_cons in Ha as [<- | Ha].
  - destruct (decide (P (g a))); [contradiction|].
    destruct (decide (P a)); [|contradiction].
    simpl. pose proof (filter_fmap_le P g l Hg). lia.
  - specialize (IH Ha).
    destruct (decide (P (g x))) as [Hgx|Hgx]; destruct (decide (P x)) as [Hx|Hx];
      simpl; try lia.
    exfalso. apply Hx, Hg, Hgx.
Qed.

Lemma row_call_quiet c j :
  quiet c → job_status (row_call c j) = pending → job_status j = pending.
Proof.
  destruct c as [id st ex|id p]; simpl; intros Hq; case_decide; simpl; congruence.
Qed.

Lemma write_pending n c s :
  quiet c → (pending_count (store (write n c s)) ≤ pending_count (store s))%nat.
Proof.
  intros Hq. cbn [store write]. rewrite store_call_fmap. unfold pending_count.
  apply filter_fmap_le. intros j. apply row_call_quiet, Hq.
Qed.

Lemma conclude_pending n job r s :
  (pending_count (store (conclude n job r s)) ≤ pending_count (store s))%nat.
Proof.
  destruct r as [a|g|e]; cbn [conclude release set_in_flight set_awaiting store];
    [reflexivity| |]; apply (write_pending n _ s); simpl; discriminate.
Qed.

Lemma dispatch_pending n job s :
  (pending_count (store (dispatch n job s).2) ≤ pending_count (store s))%nat.
Proof.
  unfold dispatch, processGenerateJob, processEditJob, processVariationJob.
  repeat case_decide; cbn [snd]; try reflexivity.
  - etransitivity; [apply write_pending; exact I|]. apply write_pending; exact I.
  - apply write_pending; exact I.
  - apply write_pending; exact I.
Qed.

Lemma resume_pending n job a o uuid s :
  (pending_count (store (resume n job a o uuid s).2) ≤ pending_count (store s))%nat.
Proof.
  destruct o as [v|e]; [|reflexivity].
  destruct a as [m|m g [r|]|g im i]; cbn [resume snd]; try reflexivity;
    try (apply write_pending; exact I).
  destruct (data r); cbn [snd]; apply write_pending; exact I.
Qed.

Lemma settle_pending k o uuid s :
  (pending_count (store (settle k o uuid s)) ≤ pending_count (store s))%nat.
Proof.
  unfold settle. destruct (awaiting s !! k) as [inv|]; [|reflexivity].
  rewrite surjective_pairing_let.
  etransitivity; [apply conclude_pending|].
  etransitivity; [apply resume_pending|]. reflexivity.
Qed.

Lemma processQueue_pending s :
  (pending_count (store (processQueue s)) ≤ pending_count (store s))%nat
  ∧ (isProcessing s = false → pending_count (store s) ≠ 0%nat →
     (pending_count (store (processQueue s)) < pending_count (store s))%nat).
Proof.
  destruct (isProcessing s) eqn:F.
  - unfold processQueue. cbn [isProcessing count_call]. rewrite F.
    split; [reflexivity | discriminate].
  - destruct (getNextPendingJob (store s)) as [job|] eqn:E.
    + rewrite (processQueue_idle _ _ F E). cbn zeta.
      destruct (getNextPendingJob_Some _ _ E) as [Hin Hp].
      assert ((pending_count
                 (store (write (calls s) (claim_call (job_id job))
                           (set_in_flight true (Some job) (count_call s))))
               < pending_count (store s))%nat) as Hlt.
      { cbn [store write set_in_flight count_call]. rewrite store_call_fmap.
        unfold pending_count. apply (filter_fmap_lt _ _ _ job).
        - intros j. apply row_call_quiet. simpl. discriminate.
        - exact Hin.
        - exact Hp.
        - unfold claim_call. rewrite row_call_status_same by reflexivity.
          discriminate. }
      pose proof (conclude_pending (calls s) job
                    (dispatch (calls s) job
                       (write (calls s) (claim_call (job_id job))
                          (set_in_flight true (Some job) (count_call s)))).1
                    (dispatch (calls s) job
                       (write (calls s) (claim_call (job_id job))
                          (set_in_flight true (Some job) (count_call s)))).2).
      pose proof (dispatch_pending (calls s) job
                    (write (calls s) (claim_call (job_id job))
                       (set_in_flight true (Some job) (count_call s)))).
      split; [lia | intros; lia].
    + unfold processQueue. cbn [isProcessing count_call store]. rewrite F, E.
      split; [reflexivity|]. intros _ Hne. exfalso. apply Hne.
      unfold pending_count.
      destruct (filter _ (store s)) as [|j k] eqn:Ef; [reflexivity|].
      assert (Hj : j ∈ filter (λ j, job_status j = pending) (store s))
        by (rewrite Ef; apply list_elem_of_here).
      apply list_elem_of_filter in Hj as [Hp Hj].
      exfalso. exact (proj1 (getNextPendingJob_None _) E j Hj Hp).
Qed.

Lemma settle_rejected_idle rows0 s e uuid :
  Inv rows0 s → isProcessing (settle 0 (Rejected e) uuid s) = false.
Proof.
  intros [(F & Haw & _)|(inv & F & Haw & _)]; unfold settle; rewrite Haw.
  - exact F.
  - reflexivity.
Qed.

Lemma pending_count_zero rows :
  pending_count rows = 0%nat → ∀ j, j ∈ rows → job_status j ≠ pending.
Proof.
  unfold pending_count. intros H j Hj Hp.
  assert (Hf : j ∈ filter (λ j, job_status j = pending) rows)
    by (apply list_elem_of_filter; auto).
  destruct (filter _ rows); [inversion Hf | discriminate].
Qed.

Lemma drain_idle rows0 k s :
  Inv rows0 s → isProcessing s = false → (pending_count (store s) ≤ k)%nat →
  drained (run (drain_events k) s).
Proof.
  revert s. induction k as [|k IH]; intros s HI F Hk.
  - split; [exact F|]. apply pending_count_zero.
    change (pending_count (store s) = 0%nat). lia.
  - unfold drain_events. cbn [replicate mjoin list_join]. fold (drain_events k).
    change (run ([Tick; Settle 0 (Rejected (mkError "engine down")) ""]
                 ++ drain_events k) s)
      with (run (drain_events k) (settle 0 (Rejected (mkError "engine down")) ""
                                    (processQueue s))).
    apply IH.
    + apply settle_inv, processQueue_inv, HI.
    + eapply settle_rejected_idle, processQueue_inv, HI.
    + pose proof (settle_pending 0 (Rejected (mkError "engine down")) ""
                    (processQueue s)).
      destruct (processQueue_pending s) as [Hle Hlt]. cbn [step].
      destruct (decide (pending_count (store s) = 0%nat)); [lia|].
      specialize (Hlt F n). lia.
Qed.

Lemma inv_length rows0 s : Inv rows0 s → length (store s) = length rows0.
Proof.
  intros HI. destruct (inv_core _ _ HI) as [cur HC].
  symmetry. eapply Forall2_length, (core_rows _ _ _ HC).
Qed.

Lemma pending_count_le_length rows : (pending_count rows ≤ length rows)%nat.
Proof. unfold pending_count. apply length_filter. Qed.

Lemma drain_any rows0 s :
  Inv rows0 s → drained (run (drain_events (S (length rows0))) s).
Proof.
  intros HI. unfold drain_events. cbn [replicate mjoin list_join].
  fold (drain_events (length rows0)).
  change (run ([Tick; Settle 0 (Rejected (mkError "engine down")) ""]
               ++ drain_events (length rows0)) s)
    with (run (drain_events (length rows0))
            (settle 0 (Rejected (mkError "engine down")) "" (processQueue s))).
  assert (HI' : Inv rows0 (settle 0 (Rejected (mkError "engine down")) ""
                             (processQueue s)))
    by apply settle_inv, processQueue_inv, HI.
  apply (drain_idle rows0); [exact HI'| |].
  - eapply settle_rejected_idle, processQueue_inv, HI.
  - rewrite <- (inv_length _ _ HI'). apply pending_count_le_length.
Qed.

(** ** Claiming *)

Lemma run_app es1 es2 s : run (es1 ++ es2) s = run es2 (run es1 s).
Proof. unfold run. apply foldl_app. Qed.

Lemma idle_none_processing rows0 s j :
  Inv rows0 s → isProcessing s = false → j ∈ store s →
  job_status j ≠ processing.
Proof.
  intros [(_ & _ & HC)|(inv & F & _)] Hflag Hj Hp; [|congruence].
  pose proof (rows_processing _ _ _ _ _ (core_fresh _ _ _ HC)
                (core_rows _ _ _ HC) Hj Hp) as H.
  discriminate H.
Qed.

(** C2: from a fresh store and under any interleaving of calls of
    [processQueue] and settling promises, (1) a call that finds the module
    idle writes [processing] on the job it selected, on the very table it
    read, within the same event; (2) at every instant, after each single
    store write as well as between events, at most one row is
    [processing]; (3) no job is claimed twice; (4) once the store is
    drained every job that was pending has been claimed by exactly one
    call and no row is left [processing]; and (5) the store can always be
    drained. *)
Theorem C2_atomic_claim (rows0 : list Job) (es : list Event) :
  fresh rows0 →
  let s := run es (boot rows0) in
  (∀ job, isProcessing s = false → getNextPendingJob (store s) = Some job →
     ∃ rest,
       trace (processQueue s)
       = trace s
         ++ mkSnapshot (calls s) (claim_call (job_id job))
              (updateJobStatus (job_id job) processing no_extras (store s))
            :: rest)
  ∧ (processing_count (store s) ≤ 1)%nat
  ∧ Forall (λ sn, (processing_count (snap_store sn) ≤ 1)%nat) (trace s)
  ∧ (∀ j0, j0 ∈ rows0 → (length (claimants (job_id j0) (trace s)) ≤ 1)%nat)
  ∧ (drained s →
       (∀ j0, j0 ∈ rows0 → job_status j0 = pending →
          ∃ n, claimants (job_id j0) (trace s) = [n])
       ∧ ∀ j, j ∈ store s → job_status j ≠ processing)
  ∧ drained (run (es ++ drain_events (S (length rows0))) (boot rows0)).
Proof.
  intros Hfresh. cbn zeta.
  pose proof (reachable_inv rows0 es Hfresh) as HI.
  destruct (inv_core _ _ HI) as [cur HC].
  split; [intros job; apply processQueue_claims|].
  split; [eapply core_store_count, HC|].
  split; [apply (core_snaps _ _ _ HC)|].
  split; [|split].
  - intros j0 Hj0.
    destruct (inv_row_facts _ _ _ HI Hj0) as (j & _ & _ & _ & _ & _ & _ & Hle & _).
    exact Hle.
  - intros [Hflag Hd]. split.
    + intros j0 Hj0 Hp.
      destruct (inv_row_facts _ _ _ HI Hj0)
        as (j & Hj & _ & _ & _ & _ & _ & _ & Hone & _).
      apply Hone; [exact Hp | apply Hd, Hj].
    + intros j Hj. eapply idle_none_processing; eassumption.
  - rewrite run_app. apply drain_any, HI.
Qed.

(** The hypothesis of [C2_atomic_claim] holds of a store with three pending
    jobs, drained by overlapping calls of [processQueue]. *)
Lemma C2_atomic_claim_witness :
  let j1 := mkJob "a" "generate" "M1" "cat" pending 0 None None 1 in
  let j2 := mkJob "b" "edit" "M1" "dog" pending 0 None None 2 in
  let j3 := mkJob "c" "upscale" "U1" "" pending 0 None None 3 in
  let ok := Resolved (Some (mkResponse (Some [mkImageData (Some "AAAA") None]))) in
  let es := [Tick; Tick; Settle 0 ok "g1"; Tick; Settle 0 ok ""; Settle 0 ok "";
             Tick; Tick; Settle 0 (Rejected (mkError "boom")) ""; Tick] in
  fresh [j1; j2; j3]
  ∧ (processing_count (store (run es (boot [j1; j2; j3]))) ≤ 1)%nat
  ∧ claimants "b" (trace (run es (boot [j1; j2; j3]))) = [3%nat].
Proof.
  cbn zeta.
  assert (Hf : fresh [mkJob "a" "generate" "M1" "cat" pending 0 None None 1;
                      mkJob "b" "edit" "M1" "dog" pending 0 None None 2;
                      mkJob "c" "upscale" "U1" "" pending 0 None None 3]).
  { split.
    - apply (bool_decide_unpack _). vm_compute. exact I.
    - intros j Hj.
      repeat (apply elem_of_cons in Hj as [-> | Hj]; [discriminate|]).
      inversion Hj. }
  split; [exact Hf|].
  split; [exact (proj1 (proj2 (C2_atomic_claim _ _ Hf)))|].
  reflexivity.
Defined.

End QueueFacts.

(* ===================================================================== *)
(** * Facts about the queue processor and its timer                      *)
(* ===================================================================== *)

Module QueueControlFacts.
Import QueueProcessor QueueFacts QueueControl.

(** ** The life of a job *)

(** X12: in every run from a fresh store the processor neither adds nor
    removes rows; a row that was not pending at start-up (completed,
    failed or cancelled before) is never written; and a row that was
    pending is in one of four states, the store agreeing with the status
    writes issued for it: untouched; claimed ([processing]); claimed and
    then [completed], which only happens to the three handled types; or
    claimed and then [failed], with an error message recorded.  No job is
    set back to [pending], none is set [cancelled], and none gets both
    final statuses. *)
Theorem X12_status_lifecycle
    (rows0 : list Job) (es : list Event) (i : nat) (j0 : Job) :
  fresh rows0 → rows0 !! i = Some j0 →
  let s := run es (boot rows0) in
  length (store s) = length rows0
  ∧ ∃ j,
      store s !! i = Some j
      ∧ job_id j = job_id j0
      ∧ (job_status j0 ≠ pending → j = j0)
      ∧ ((j = j0 ∧ outcomes (job_id j0) (trace s) = [])
         ∨ (job_status j = processing
            ∧ outcomes (job_id j0) (trace s) = [processing])
         ∨ (job_status j = completed
            ∧ outcomes (job_id j0) (trace s) = [processing; completed]
            ∧ handled (job_type j0))
         ∨ (job_status j = failed
            ∧ outcomes (job_id j0) (trace s) = [processing; failed]
            ∧ ∃ msg, job_error j = Some msg)).
Proof.
  intros Hfresh Hi. cbn zeta.
  pose proof (reachable_inv rows0 es Hfresh) as HI.
  split; [apply (inv_length _ _ HI)|].
  destruct (inv_core _ _ HI) as [cur HC].
  destruct (Forall2_lookup_l _ _ _ _ _ (core_rows _ _ _ HC) Hi)
    as (j & Hj & Hph).
  exists j. split; [exact Hj|].
  destruct (row_phase_ident _ _ _ _ Hph) as [Hid Hty].
  split; [exact Hid|]. rewrite <- Hid, <- Hty.
  destruct Hph as [E W C | pub I T C P S K | gid I T C P S Hh K
                   | ps msg I T C P S Er Pre K].
  - split; [intros _; exact E|]. left.
    split; [exact E | apply writes_nil_outcomes, W].
  - split; [intros Hn; contradiction|]. right. left.
    split; [exact S|].
    apply (shape_outcomes _ _ pub []). rewrite K, app_nil_r. reflexivity.
  - split; [intros Hn; contradiction|]. right. right. left.
    split; [exact S|]. split; [|exact Hh].
    apply (shape_outcomes _ _ (script (job_type j))
             [(completed, mkExtras (Some gid) None)]).
    exact K.
  - split; [intros Hn; contradiction|]. right. right. right.
    split; [exact S|]. split; [|eauto].
    apply (shape_outcomes _ _ ps [(failed, mkExtras None (Some msg))]).
    exact K.
Qed.

(** The hypotheses of [X12_status_lifecycle] hold of a store with a
    cancelled and a pending job. *)
Lemma X12_status_lifecycle_witness :
  let j1 := mkJob "a" "generate" "M1" "cat" cancelled 0 None None 1 in
  let j2 := mkJob "b" "edit" "M1" "dog" pending 0 None None 2 in
  fresh [j1; j2] ∧ [j1; j2] !! 0%nat = Some j1
  ∧ length (store (run [Tick] (boot [j1; j2]))) = 2%nat.
Proof.
  intros j1 j2.
  assert (Hf : fresh [j1; j2]).
  { split.
    - apply (bool_decide_unpack _). vm_compute. exact I.
    - intros j Hj. apply elem_of_cons in Hj as [->|Hj]; [discriminate|].
      apply list_elem_of_singleton in Hj as ->. discriminate. }
  split; [exact Hf|]. split; [reflexivity|].
  exact (proj1 (X12_status_lifecycle [j1; j2] [Tick] 0 j1 Hf eq_refl)).
Defined.

(** ** The job in flight *)

Lemma progress_in_flight_row n id p s job :
  id = job_id job → in_flight_row job (store s) →
  in_flight_row job (store (write n (CallProgress id p) s)).
Proof.
  intros -> (j & Hj & Hid & Hst). cbn [store write]. rewrite store_call_fmap.
  exists (row_call (CallProgress (job_id job) p) j).
  split; [apply list_elem_of_fmap; eauto|].
  split; [rewrite row_call_id; exact Hid|].
  cbn [row_call]. case_decide; exact Hst.
Qed.

Lemma conclude_cur rows0 n job r s :
  awaiting s = [] → isProcessing s = true → currentJob s = Some job →
  job ∈ rows0 → job_status job = pending → in_flight_row job (store s) →
  Cur rows0 (conclude n job r s).
Proof.
  intros Haw Hflag Hcur Hin Hp Hrow. unfold Cur.
  destruct r as [a|g|e];
    cbn [conclude release set_in_flight set_awaiting write currentJob
         isProcessing awaiting store]; [|reflexivity ..].
  rewrite Hcur, Haw. split; [exact Hflag|]. split; [exact Hin|].
  split; [exact Hp|]. split; [eauto | exact Hrow].
Qed.

Lemma dispatch_frame n job s :
  isProcessing (dispatch n job s).2 = isProcessing s
  ∧ currentJob (dispatch n job s).2 = currentJob s
  ∧ awaiting (dispatch n job s).2 = awaiting s
  ∧ (in_flight_row job (store s) → in_flight_row job (store (dispatch n job s).2)).
Proof.
  unfold dispatch, processGenerateJob, processEditJob, processVariationJob.
  repeat case_decide; cbn [snd]; repeat split; try reflexivity; intros Hrow;
    repeat apply progress_in_flight_row; auto.
Qed.

Lemma resume_frame n job a o uuid s :
  isProcessing (resume n job a o uuid s).2 = isProcessing s
  ∧ currentJob (resume n job a o uuid s).2 = currentJob s
  ∧ awaiting (resume n job a o uuid s).2 = awaiting s
  ∧ (in_flight_row job (store s) →
     in_flight_row job (store (resume n job a o uuid s).2)).
Proof.
  destruct o as [v|e]; [|cbn [resume snd]; auto].
  destruct a as [m|m g [r|]|g im i]; cbn [resume snd];
    try destruct (data r); cbn [snd];
    repeat split; try reflexivity; intros Hrow;
    repeat apply progress_in_flight_row; auto.
Qed.

Lemma processQueue_cur rows0 s :
  Inv rows0 s → Cur rows0 s → Cur rows0 (processQueue s).
Proof.
  intros HI HCur.
  destruct (isProcessing s) eqn:F.
  { unfold processQueue. cbn [isProcessing count_call]. rewrite F. exact HCur. }
  destruct (getNextPendingJob (store s)) as [job|] eqn:E.
  2:{ unfold processQueue. cbn [isProcessing count_call store].
      rewrite F, E. exact HCur. }
  rewrite (processQueue_idle _ _ F E). cbn zeta.
  destruct (getNextPendingJob_Some _ _ E) as [Hin Hp].
  destruct HI as [(_ & Haw & HC)|(inv & F' & _)]; [|congruence].
  set (s1 := write (calls s) (claim_call (job_id job))
               (set_in_flight true (Some job) (count_call s))).
  destruct (dispatch_frame (calls s) job s1) as (Hf & Hc & Ha & Hr).
  apply conclude_cur.
  - rewrite Ha. exact Haw.
  - rewrite Hf. reflexivity.
  - rewrite Hc. reflexivity.
  - apply list_elem_of_lookup in Hin as [i Hi].
    destruct (Forall2_lookup_r _ _ _ _ _ (core_rows _ _ _ HC) Hi)
      as (j0 & Hi0 & Hph).
    destruct Hph as [Eq W C | pub I T C P S K | gid I T C P S Hh K
                     | ps msg I T C P S Er Pre K]; try congruence.
    subst j0. apply list_elem_of_lookup. eauto.
  - exact Hp.
  - apply Hr. unfold s1, claim_call.
    exists (row_call (CallStatus (job_id job) processing no_extras) job).
    cbn [store write set_in_flight count_call]. rewrite store_call_fmap.
    split; [apply list_elem_of_fmap; eauto|].
    split; [apply row_call_id|].
    apply row_call_status_same. reflexivity.
Qed.

Lemma settle_cur rows0 s k o uuid :
  Inv rows0 s → Cur rows0 s → Cur rows0 (settle k o uuid s).
Proof.
  intros HI HCur. unfold settle.
  destruct (awaiting s !! k) as [inv|] eqn:Hk; [|exact HCur].
  rewrite surjective_pairing_let.
  destruct HI as [(_ & Haw & _)|(inv' & F & Haw & _)];
    [rewrite Haw in Hk; discriminate|].
  unfold Cur in HCur. destruct (currentJob s) as [job|] eqn:Hc; [|congruence].
  destruct HCur as (_ & Hin & Hp & (n & a & Haw') & Hrow).
  rewrite Haw' in Hk, Haw. clear Haw.
  destruct k as [|k]; [|discriminate]. injection Hk as <-.
  cbn [inv_no inv_job inv_at].
  set (s1 := set_awaiting (delete 0%nat (awaiting s)) s).
  destruct (resume_frame n job a o uuid s1) as (Hf & Hcj & Ha & Hr).
  apply conclude_cur.
  - rewrite Ha. unfold s1. cbn [awaiting set_awaiting]. rewrite Haw'.
    reflexivity.
  - rewrite Hf. exact F.
  - rewrite Hcj. exact Hc.
  - exact Hin.
  - exact Hp.
  - apply Hr, Hrow.
Qed.

Lemma control_inv rows0 p e :
  Inv rows0 (sys p) ∧ Cur rows0 (sys p) →
  Inv rows0 (sys (control p e)) ∧ Cur rows0 (sys (control p e)).
Proof.
  intros [HI HC].
  destruct e as [ms| | |k o uuid];
    unfold control, startQueueProcessor, stopQueueProcessor;
    try destruct (pollInterval p); cbn [sys];
    split; auto using processQueue_inv, settle_inv, processQueue_cur,
                      settle_cur.
Qed.

Lemma operate_inv rows0 es p :
  Inv rows0 (sys p) ∧ Cur rows0 (sys p) →
  Inv rows0 (sys (operate es p)) ∧ Cur rows0 (sys (operate es p)).
Proof.
  revert p. induction es as [|e es IH]; intros p H; [exact H|].
  apply IH, control_inv, H.
Qed.

Lemma power_on_inv rows0 :
  fresh rows0 →
  Inv rows0 (sys (power_on rows0)) ∧ Cur rows0 (sys (power_on rows0)).
Proof. intros Hf. split; [apply boot_inv, Hf | reflexivity]. Qed.

(** X13: however the module is started, stopped and driven from a fresh
    store, [getCurrentJob] returns [null] exactly when no call is in
    flight, and then no row is [processing]; otherwise it returns the job
    in flight as it was read before it was claimed: a row of the initial
    store whose status still says [pending], while the row of that id in
    the store is [processing] and is the only such row. *)
Theorem X13_current_job (rows0 : list Job) (es : list Control) :
  fresh rows0 →
  let p := operate es (power_on rows0) in
  match getCurrentJob p with
  | None =>
      isProcessing (sys p) = false
      ∧ ∀ j, j ∈ store (sys p) → job_status j ≠ processing
  | Some job =>
      isProcessing (sys p) = true
      ∧ job ∈ rows0
      ∧ job_status job = pending
      ∧ ∃ j, j ∈ store (sys p) ∧ job_id j = job_id job
             ∧ job_status j = processing
             ∧ ∀ j', j' ∈ store (sys p) → job_status j' = processing → j' = j
  end.
Proof.
  intros Hfresh. cbn zeta.
  destruct (operate_inv rows0 es _ (power_on_inv rows0 Hfresh)) as [HI HC].
  unfold getCurrentJob. unfold Cur in HC.
  destruct (currentJob (sys (operate es (power_on rows0)))) as [job|].
  - destruct HC as (F & Hin & Hp & (n & a & Haw) & (j & Hj & Hid & Hst)).
    split; [exact F|]. split; [exact Hin|]. split; [exact Hp|].
    exists j. split; [exact Hj|]. split; [exact Hid|]. split; [exact Hst|].
    intros j' Hj' Hst'.
    destruct (inv_core _ _ HI) as [cur HCore].
    pose proof (rows_processing _ _ _ _ _ (core_fresh _ _ _ HCore)
                  (core_rows _ _ _ HCore) Hj Hst) as H1.
    pose proof (rows_processing _ _ _ _ _ (core_fresh _ _ _ HCore)
                  (core_rows _ _ _ HCore) Hj' Hst') as H2.
    apply (unique_row (store (sys (operate es (power_on rows0))))); auto.
    + rewrite (rows_ids _ _ _ _ (core_rows _ _ _ HCore)).
      apply (core_nodup _ _ _ HCore).
    + congruence.
  - split; [exact HC|]. intros j Hj.
    eapply idle_none_processing; eassumption.
Qed.

(** The hypothesis of [X13_current_job] holds of a store with one pending
    job, started once. *)
Lemma X13_current_job_witness :
  let j1 := mkJob "a" "generate" "M1" "cat" pending 0 None None 1 in
  fresh [j1]
  ∧ getCurrentJob (operate [Start 1000] (power_on [j1])) = Some j1
  ∧ isProcessing (sys (operate [Start 1000] (power_on [j1]))) = true.
Proof.
  intros j1.
  assert (Hf : fresh [j1]).
  { split.
    - apply (bool_decide_unpack _). vm_compute. exact I.
    - intros j Hj. apply list_elem_of_singleton in Hj as ->. discriminate. }
  split; [exact Hf|]. split; [reflexivity|].
  exact (proj1 (X13_current_job [j1] [Start 1000] Hf)).
Defined.

(** ** Stopping *)

Lemma write_other n c s i j :
  store s !! i = Some j → job_id j ≠ call_id c →
  store (write n c s) !! i = Some j.
Proof.
  intros Hi Hne. cbn [store write].
  rewrite store_call_fmap, list_lookup_fmap, Hi. cbn [fmap option_fmap option_map].
  f_equal. apply row_call_other, Hne.
Qed.

Lemma conclude_other n job r s i j :
  store s !! i = Some j → job_id j ≠ job_id job →
  store (conclude n job r s) !! i = Some j.
Proof.
  intros Hi Hne.
  destruct r as [a|g|e]; cbn [conclude release set_in_flight set_awaiting store];
    [exact Hi| |]; apply (write_other n _ s); auto.
Qed.

Lemma resume_other n job a o uuid s i j :
  store s !! i = Some j → job_id j ≠ job_id job →
  store (resume n job a o uuid s).2 !! i = Some j.
Proof.
  intros Hi Hne. destruct o as [v|e]; [|exact Hi].
  destruct a as [m|m g [r|]|g im i']; cbn [resume snd];
    try destruct (data r); cbn [snd];
    try exact Hi; apply (write_other n _ s); auto.
Qed.

Lemma conclude_calls n job r s : calls (conclude n job r s) = calls s.
Proof. destruct r; reflexivity. Qed.

Lemma resume_calls n job a o uuid s : calls (resume n job a o uuid s).2 = calls s.
Proof.
  destruct o as [v|e]; [|reflexivity].
  destruct a as [m|m g [r|]|g im i]; cbn [resume snd]; try reflexivity.
  destruct (data r); reflexivity.
Qed.

Lemma settle_calls k o uuid s : calls (settle k o uuid s) = calls s.
Proof.
  unfold settle. destruct (awaiting s !! k) as [inv|]; [|reflexivity].
  rewrite surjective_pairing_let, conclude_calls, resume_calls. reflexivity.
Qed.

Lemma settle_keeps_pending rows0 s k o uuid i j :
  Inv rows0 s → store s !! i = Some j → job_status j = pending →
  store (settle k o uuid s) !! i = Some j.
Proof.
  intros HI Hi Hp. unfold settle.
  destruct (awaiting s !! k) as [inv|] eqn:Hk; [|exact Hi].
  rewrite surjective_pairing_let.
  destruct HI as [(_ & Haw & _)|(inv' & F & Haw & _ & HC)];
    [rewrite Haw in Hk; discriminate|].
  rewrite Haw in Hk. destruct k as [|k]; [|discriminate]. injection Hk as <-.
  assert (Hne : job_id j ≠ job_id (inv_job inv')).
  { destruct (Forall2_lookup_r _ _ _ _ _ (core_rows _ _ _ HC) Hi)
      as (j0 & _ & Hph).
    destruct Hph as [Eq W C | pub I T C P S K | gid I T C P S Hh K
                     | ps msg I T C P S Er Pre K]; try congruence.
    intros E. apply C. cbn [current_id fmap option_fmap option_map fst].
    congruence. }
  apply conclude_other; [|exact Hne]. apply resume_other; [|exact Hne].
  exact Hi.
Qed.

Lemma settle_idle rows0 s k o uuid :
  Inv rows0 s → isProcessing s = false → settle k o uuid s = s.
Proof.
  intros [(_ & Haw & _)|(inv & F & _)] Hflag; [|congruence].
  unfold settle. rewrite Haw. reflexivity.
Qed.

Lemma stopped_run rows0 es p :
  Inv rows0 (sys p) → pollInterval p = None → Forall (λ e, ¬ is_start e) es →
  pollInterval (operate es p) = None
  ∧ calls (sys (operate es p)) = calls (sys p)
  ∧ (∀ i j, store (sys p) !! i = Some j → job_status j = pending →
            store (sys (operate es p)) !! i = Some j)
  ∧ (isProcessing (sys p) = false → sys (operate es p) = sys p).
Proof.
  revert p. induction es as [|e es IH]; intros p HI Hoff Hes.
  { repeat split; auto. }
  apply Forall_cons in Hes as [He Hes].
  assert (Hstep : Inv rows0 (sys (control p e))
                  ∧ pollInterval (control p e) = None
                  ∧ calls (sys (control p e)) = calls (sys p)
                  ∧ (∀ i j, store (sys p) !! i = Some j →
                            job_status j = pending →
                            store (sys (control p e)) !! i = Some j)
                  ∧ (isProcessing (sys p) = false →
                     sys (control p e) = sys p)).
  { destruct e as [ms| | |k o uuid];
      unfold control, stopQueueProcessor; try rewrite Hoff; cbn [sys pollInterval].
    - destruct He. exact I.
    - repeat split; auto.
    - repeat split; auto.
    - split; [apply settle_inv, HI|]. split; [reflexivity|].
      split; [apply settle_calls|]. split.
      + intros i j. apply (settle_keeps_pending rows0), HI.
      + apply (settle_idle rows0), HI. }
  destruct Hstep as (HI' & Hoff' & Hcalls & Hkeep & Hidle).
  destruct (IH (control p e) HI' Hoff' Hes) as (H1 & H2 & H3 & H4).
  change (operate (e :: es) p) with (operate es (control p e)).
  split; [exact H1|]. split; [congruence|]. split.
  - intros i j Hi Hp. apply H3; [apply Hkeep|]; assumption.
  - intros Hflag. rewrite H4; [apply Hidle, Hflag|].
    rewrite (Hidle Hflag). exact Hflag.
Qed.

(** X14: after [stopQueueProcessor], until the module is started again,
    [processQueue] is not called any more and no pending job is claimed:
    every row that is pending stays as it is, whatever timers were due and
    whatever promises settle; a job in flight at that moment is not
    interrupted by the stop, only its own promises move it on.  If no job
    was in flight, nothing changes at all. *)
Theorem X14_stopped_processor (rows0 : list Job) (es0 es : list Control) :
  fresh rows0 → Forall (λ e, ¬ is_start e) es →
  let p := stopQueueProcessor (operate es0 (power_on rows0)) in
  let p' := operate es p in
  pollInterval p' = None
  ∧ calls (sys p') = calls (sys p)
  ∧ awaiting (sys p) = awaiting (sys (operate es0 (power_on rows0)))
  ∧ (∀ i j, store (sys p) !! i = Some j → job_status j = pending →
            store (sys p') !! i = Some j)
  ∧ (getCurrentJob p = None → sys p' = sys p).
Proof.
  intros Hfresh Hes. cbn zeta.
  destruct (operate_inv rows0 es0 _ (power_on_inv rows0 Hfresh)) as [HI HC].
  set (p0 := operate es0 (power_on rows0)) in *.
  assert (Hsys : sys (stopQueueProcessor p0) = sys p0)
    by (unfold stopQueueProcessor; destruct (pollInterval p0); reflexivity).
  assert (Hoff : pollInterval (stopQueueProcessor p0) = None).
  { unfold stopQueueProcessor. destruct (pollInterval p0) eqn:E;
      [reflexivity | exact E]. }
  rewrite <- Hsys in HI, HC.
  destruct (stopped_run rows0 es _ HI Hoff Hes) as (H1 & H2 & H3 & H4).
  split; [exact H1|]. split; [exact H2|]. split; [rewrite Hsys; reflexivity|].
  split; [exact H3|].
  unfold getCurrentJob. intros Hnone. apply H4.
  unfold Cur in HC. rewrite Hnone in HC. exact HC.
Qed.

(** The hypotheses of [X14_stopped_processor] hold of a processor stopped
    while the first of two jobs is in flight; the second stays pending
    when the timer is due and the first job's engine call fails. *)
Lemma X14_stopped_processor_witness :
  let j1 := mkJob "a" "generate" "M1" "cat" pending 0 None None 1 in
  let j2 := mkJob "b" "edit" "M1" "dog" pending 0 None None 2 in
  let es := [Fire; Settles 0 (Rejected (mkError "engine down")) ""; Fire] in
  fresh [j1; j2] ∧ Forall (λ e, ¬ is_start e) es
  ∧ pollInterval
      (operate es (stopQueueProcessor (operate [Start 1000] (power_on [j1; j2]))))
    = None.
Proof.
  intros j1 j2 es.
  assert (Hf : fresh [j1; j2]).
  { split.
    - apply (bool_decide_unpack _). vm_compute. exact I.
    - intros j Hj. apply elem_of_cons in Hj as [->|Hj]; [discriminate|].
      apply list_elem_of_singleton in Hj as ->. discriminate. }
  assert (He : Forall (λ e, ¬ is_start e) es).
  { repeat constructor; intros []. }
  split; [exact Hf|]. split; [exact He|].
  exact (proj1 (X14_stopped_processor [j1; j2] [Start 1000] es Hf He)).
Defined.

(** ** One job from claim to conclusion *)

Lemma rows_at_progress n id st p p' s :
  rows_at id st p (store s) →
  rows_at id st p' (store (write n (CallProgress id p') s)).
Proof.
  intros [(j & Hj & Hid) Hall]. cbn [store write]. rewrite store_call_fmap.
  split.
  - exists (row_call (CallProgress id p') j).
    split; [apply list_elem_of_fmap; eauto | rewrite row_call_id; exact Hid].
  - intros j' Hj' Hid'. apply list_elem_of_fmap in Hj' as (j0 & -> & Hj0).
    rewrite row_call_id in Hid'. cbn [row_call].
    rewrite decide_True by exact Hid'.
    split; [apply (Hall j0 Hj0 Hid') | reflexivity].
Qed.

Lemma rows_at_status n id st st' ex p s :
  rows_at id st p (store s) →
  rows_at id st' (if decide (st' = completed) then 1 else p)
    (store (write n (CallStatus id st' ex) s))
  ∧ ∀ j, j ∈ store (write n (CallStatus id st' ex) s) → job_id j = id →
      (∀ g, generation_id ex = Some g → job_generation_id j = Some g)
      ∧ (∀ m, error ex = Some m → job_error j = Some m).
Proof.
  intros [(j & Hj & Hid) Hall]. cbn [store write]. rewrite store_call_fmap.
  split; [split|].
  - exists (row_call (CallStatus id st' ex) j).
    split; [apply list_elem_of_fmap; eauto | rewrite row_call_id; exact Hid].
  - intros j' Hj' Hid'. apply list_elem_of_fmap in Hj' as (j0 & -> & Hj0).
    rewrite row_call_id in Hid'. cbn [row_call].
    rewrite decide_True by exact Hid'.
    split; [reflexivity|]. cbn [with_status job_progress].
    case_decide; [reflexivity | apply (Hall j0 Hj0 Hid')].
  - intros j' Hj' Hid'. apply list_elem_of_fmap in Hj' as (j0 & -> & Hj0).
    rewrite row_call_id in Hid'. cbn [row_call].
    rewrite decide_True by exact Hid'. cbn [with_status job_generation_id job_error].
    split; [intros g -> | intros m ->]; reflexivity.
Qed.

Lemma conclude_segment n job r s p :
  isProcessing s = true → awaiting s = [] →
  rows_at (job_id job) processing p (store s) →
  after_segment r (conclude n job r s) job p.
Proof.
  intros F Haw Hrows. destruct r as [a|g|e]; cbn [after_segment conclude].
  - split; [exact F|]. split; [|exact Hrows].
    exists n. cbn [awaiting set_awaiting]. rewrite Haw. reflexivity.
  - destruct (rows_at_status n (job_id job) processing completed
                (mkExtras (Some g) None) p s Hrows) as [H1 H2].
    split; [split; [reflexivity|]; split; [reflexivity|]; split;
            [exact Haw | exact H1]|].
    intros j Hj Hid. apply (H2 j Hj Hid). reflexivity.
  - destruct (rows_at_status n (job_id job) processing failed
                (mkExtras None (Some (message e))) p s Hrows) as [H1 H2].
    split; [split; [reflexivity|]; split; [reflexivity|]; split;
            [exact Haw | exact H1]|].
    intros j Hj Hid. apply (H2 j Hj Hid). reflexivity.
Qed.

Lemma claim_rows n job s :
  job ∈ store s →
  (∃ j, j ∈ store (write n (claim_call (job_id job)) s)
        ∧ job_id j = job_id job)
  ∧ ∀ j, j ∈ store (write n (claim_call (job_id job)) s) →
         job_id j = job_id job → job_status j = processing.
Proof.
  intros Hin. cbn [store write]. rewrite store_call_fmap. split.
  - exists (row_call (claim_call (job_id job)) job).
    split; [apply list_elem_of_fmap; eauto | apply row_call_id].
  - intros j Hj Hid. apply list_elem_of_fmap in Hj as (j0 & -> & Hj0).
    rewrite row_call_id in Hid. apply row_call_status_same. exact Hid.
Qed.

Lemma progress_rows n id p s :
  (∃ j, j ∈ store s ∧ job_id j = id) →
  (∀ j, j ∈ store s → job_id j = id → job_status j = processing) →
  rows_at id processing p (store (write n (CallProgress id p) s)).
Proof.
  intros (j & Hj & Hid) Hall. cbn [store write]. rewrite store_call_fmap.
  split.
  - exists (row_call (CallProgress id p) j).
    split; [apply list_elem_of_fmap; eauto | rewrite row_call_id; exact Hid].
  - intros j' Hj' Hid'. apply list_elem_of_fmap in Hj' as (j0 & -> & Hj0).
    rewrite row_call_id in Hid'. cbn [row_call].
    rewrite decide_True by exact Hid'.
    split; [apply (Hall j0 Hj0 Hid') | reflexivity].
Qed.

Lemma step_claim s job :
  isProcessing s = false → awaiting s = [] →
  getNextPendingJob (store s) = Some job → handled (job_type job) →
  parked (processQueue s) job (AwaitGenerateImageDirect (job_type job)) 0.3.
Proof.
  intros F Haw E Hh. rewrite (processQueue_idle _ _ F E). cbn zeta.
  destruct (getNextPendingJob_Some _ _ E) as [Hin Hp].
  set (s0 := set_in_flight true (Some job) (count_call s)).
  destruct (claim_rows (calls s) job s0 Hin) as [Hex Hall].
  set (s1 := write (calls s) (claim_call (job_id job)) s0) in *.
  assert (Hrows : rows_at (job_id job) processing 0.3
                    (store (dispatch (calls s) job s1).2)).
  { unfold dispatch, processGenerateJob, processEditJob, processVariationJob.
    repeat case_decide; cbn [snd].
    - apply (rows_at_progress _ _ _ 0.1), progress_rows; assumption.
    - apply progress_rows; assumption.
    - apply progress_rows; assumption.
    - exfalso. destruct Hh as [Ht | [Ht | Ht]]; contradiction. }
  destruct (dispatch_handled (calls s) job s1 Hh)
    as (Hseg & Hflag & Hawait & _).
  rewrite Hseg.
  apply (conclude_segment (calls s) job
           (Suspends (AwaitGenerateImageDirect (job_type job)))).
  - rewrite Hflag. reflexivity.
  - rewrite Hawait. exact Haw.
  - exact Hrows.
Qed.

Lemma settle_parked s job a p o uuid :
  parked s job a p →
  ∃ n, settle 0 o uuid s
       = conclude n job (resume n job a o uuid (set_awaiting [] s)).1
           (resume n job a o uuid (set_awaiting [] s)).2.
Proof.
  intros (_ & (n & Haw) & _). exists n. unfold settle. rewrite Haw.
  cbn [lookup list_lookup inv_no inv_job inv_at delete list_delete].
  apply surjective_pairing_let.
Qed.

Lemma step_engine s job mode p v g :
  parked s job (AwaitGenerateImageDirect mode) p →
  parked (settle 0 (Resolved v) g s) job (AwaitCreateGeneration mode g v) 0.7.
Proof.
  intros Hp. destruct (settle_parked s job _ p (Resolved v) g Hp) as [n ->].
  destruct Hp as (F & _ & Hrows). cbn [resume fst snd].
  apply (conclude_segment n job (Suspends (AwaitCreateGeneration mode g v)));
    [exact F | reflexivity|].
  apply (rows_at_progress n (job_id job) processing p 0.7 (set_awaiting [] s)).
  exact Hrows.
Qed.

Lemma step_generation s job mode g r p v u :
  parked s job (AwaitCreateGeneration mode g (Some r)) p →
  after_segment (save_image_at g (images_of r) 0)
    (settle 0 (Resolved v) u s) job 0.9.
Proof.
  intros Hp. destruct (settle_parked s job _ p (Resolved v) u Hp) as [n ->].
  destruct Hp as (F & _ & Hrows). cbn [resume].
  assert (Hr : rows_at (job_id job) processing 0.9
                 (store (write n (CallProgress (job_id job) 0.9)
                           (set_awaiting [] s))))
    by (apply (rows_at_progress n (job_id job) processing p 0.9
                 (set_awaiting [] s)); exact Hrows).
  unfold images_of. destruct (data r) as [images|]; cbn [fst snd default from_option];
    apply conclude_segment; auto.
Qed.

Lemma step_no_response s job mode g p v u :
  parked s job (AwaitCreateGeneration mode g None) p →
  after_segment
    (Throws (mkError "Cannot read properties of undefined (reading 'data')"))
    (settle 0 (Resolved v) u s) job 0.9.
Proof.
  intros Hp. destruct (settle_parked s job _ p (Resolved v) u Hp) as [n ->].
  destruct Hp as (F & _ & Hrows). cbn [resume fst snd].
  apply conclude_segment; [exact F | reflexivity|].
  apply (rows_at_progress n (job_id job) processing p 0.9 (set_awaiting [] s)).
  exact Hrows.
Qed.

Lemma step_image s job g images i p v u :
  parked s job (AwaitCreateGeneratedImage g images i) p →
  after_segment (save_image_at g images (S i))
    (settle 0 (Resolved v) u s) job p.
Proof.
  intros Hp. destruct (settle_parked s job _ p (Resolved v) u Hp) as [n ->].
  destruct Hp as (F & _ & Hrows). cbn [resume fst snd].
  apply conclude_segment; [exact F | reflexivity | exact Hrows].
Qed.

Lemma save_image_with_data g images i :
  has_data images i →
  save_image_at g images i = Suspends (AwaitCreateGeneratedImage g images i).
Proof.
  intros (im & Hi & [b Hb]). unfold save_image_at. rewrite Hi, Hb. reflexivity.
Qed.

Lemma parked_in_flight s job a p : parked s job a p → isProcessing s = true.
Proof. intros [F _]. exact F. Qed.

(** The image loop: as long as the images carry their data, each resolved
    promise moves the call on to the next image. *)
Lemma image_loop job g images p (vs : list (option Response)) :
  ∀ (i : nat) (s : Sys),
  after_segment (save_image_at g images i) s job p →
  (∀ k, (i ≤ k < i + length vs)%nat → has_data images k) →
  after_segment (save_image_at g images (i + length vs))
    (run (resolutions vs) s) job p
  ∧ ∀ k, (k < length vs)%nat →
         isProcessing (run (resolutions (take k vs)) s) = true.
Proof.
  induction vs as [|v vs IH]; intros i s Hs Hdata.
  - cbn [length resolutions fmap list_fmap run foldl].
    rewrite Nat.add_0_r. split; [exact Hs | intros k Hk; inversion Hk].
  - rewrite (save_image_with_data g images i) in Hs
      by (apply Hdata; cbn [length]; lia).
    cbn [after_segment] in Hs.
    pose proof (step_image s job g images i p v "" Hs) as Hnext.
    destruct (IH (S i) (settle 0 (Resolved v) "" s) Hnext) as [Hend Hpre].
    { intros k Hk. apply Hdata. cbn [length]. lia. }
    split.
    + cbn [length]. rewrite Nat.add_succ_r. exact Hend.
    + intros [|k] Hk.
      * cbn [take resolutions fmap list_fmap run foldl].
        apply (parked_in_flight _ _ _ _ Hs).
      * cbn [length] in Hk. apply (Hpre k). lia.
Qed.

Lemma reach_generation rows0 es job v g :
  fresh rows0 →
  let s := run es (boot rows0) in
  isProcessing s = false → getNextPendingJob (store s) = Some job →
  handled (job_type job) →
  parked (processQueue s) job (AwaitGenerateImageDirect (job_type job)) 0.3
  ∧ parked (settle 0 (Resolved v) g (processQueue s)) job
      (AwaitCreateGeneration (job_type job) g v) 0.7.
Proof.
  intros Hfresh s F E Hh.
  assert (Haw : awaiting s = []).
  { destruct (reachable_inv rows0 es Hfresh) as [(_ & Haw & _)|(inv & F' & _)];
      [exact Haw | unfold s in F; congruence]. }
  pose proof (step_claim s job F Haw E Hh) as H1.
  split; [exact H1 | apply (step_engine _ _ _ _ _ _ H1)].
Qed.

Lemma take_resolutions k vs : take k (resolutions vs) = resolutions (take k vs).
Proof. unfold resolutions. symmetry. apply fmap_take. Qed.

Lemma in_flight_until rows0 es r g v vs :
  let s := run es (boot rows0) in
  let events := [Tick; Settle 0 (Resolved r) g; Settle 0 (Resolved v) ""]
                ++ resolutions vs in
  isProcessing (processQueue s) = true →
  isProcessing (settle 0 (Resolved r) g (processQueue s)) = true →
  (∀ k, (k < length vs)%nat →
        isProcessing
          (run (resolutions (take k vs))
             (settle 0 (Resolved v) ""
                (settle 0 (Resolved r) g (processQueue s)))) = true) →
  ∀ k, (0 < k < length events)%nat →
       isProcessing (run (take k events) s) = true.
Proof.
  intros s events H1 H2 H3 k Hk.
  destruct k as [|[|[|k]]]; [lia | exact H1 | exact H2 |].
  unfold events. cbn [take app run foldl step]. rewrite take_resolutions.
  apply H3. unfold events in Hk. cbn [length app] in Hk.
  unfold resolutions in Hk. rewrite length_fmap in Hk. lia.
Qed.

(** X21: a claimed job of a handled type whose engine call resolves with
    a response completes after exactly as many further promises have
    resolved as the response has images, plus the one of the generation
    record: with every image carrying its data, the job stays in flight
    until the last of these, and is then [completed] with the UUID drawn
    after the engine call as its [generation_id], the module idle again.
    A response without [data], or with an empty list, completes the job
    without any image. *)
Theorem X21_job_completes
    (rows0 : list Job) (es : list Event) (job : Job) (r : Response)
    (g : string) (v : option Response) (vs : list (option Response)) :
  fresh rows0 →
  let s := run es (boot rows0) in
  isProcessing s = false → getNextPendingJob (store s) = Some job →
  handled (job_type job) →
  (∀ k, (k < length (images_of r))%nat → has_data (images_of r) k) →
  length vs = length (images_of r) →
  let events := [Tick; Settle 0 (Resolved (Some r)) g; Settle 0 (Resolved v) ""]
                ++ resolutions vs in
  finished (run events s) job completed
  ∧ (∀ j, j ∈ store (run events s) → job_id j = job_id job →
          job_generation_id j = Some g)
  ∧ ∀ k, (0 < k < length events)%nat →
         isProcessing (run (take k events) s) = true.
Proof.
  intros Hfresh s F E Hh Hdata Hlen events.
  destruct (reach_generation rows0 es job (Some r) g Hfresh F E Hh) as [H1 H2].
  fold s in H1, H2.
  pose proof (step_generation _ _ _ _ _ _ v "" H2) as H3.
  destruct (image_loop job g (images_of r) 0.9 vs 0 _ H3) as [Hend Hpre].
  { intros k Hk. apply Hdata. lia. }
  assert (Hret : save_image_at g (images_of r) (0 + length vs) = Returns g).
  { unfold save_image_at. rewrite Hlen.
    rewrite (lookup_ge_None_2 (images_of r)) by (cbn; lia). reflexivity. }
  rewrite Hret in Hend. cbn [after_segment] in Hend.
  destruct Hend as [(Hidle & Hcur & Haw & Hone & Hall) Hg].
  split; [|split; [exact Hg|]].
  { split; [exact Hidle|]. split; [exact Hcur|]. split; [exact Haw|].
    split; [exact Hone|]. intros j Hj Hid. apply (Hall j Hj Hid). }
  apply (in_flight_until rows0 es (Some r) g v vs);
    [exact (parked_in_flight _ _ _ _ H1) | exact (parked_in_flight _ _ _ _ H2)
     | exact Hpre].
Qed.

(** The hypotheses of [X21_job_completes] hold of a generate job whose
    engine call returns two images. *)
Lemma X21_job_completes_witness :
  let job := mkJob "a" "generate" "M1" "cat" pending 0 None None 1 in
  let r := mkResponse (Some [mkImageData (Some "AAAA") None;
                             mkImageData (Some "BBBB") None]) in
  let events := [Tick; Settle 0 (Resolved (Some r)) "g1";
                 Settle 0 (Resolved None) ""]
                ++ resolutions [None; None] in
  fresh [job]
  ∧ getNextPendingJob (store (run [] (boot [job]))) = Some job
  ∧ handled (job_type job)
  ∧ finished (run events (run [] (boot [job]))) job completed.
Proof.
  intros job r events.
  assert (Hf : fresh [job]).
  { split.
    - apply (bool_decide_unpack _). vm_compute. exact I.
    - intros j Hj. apply list_elem_of_singleton in Hj as ->. discriminate. }
  assert (Hh : handled (job_type job)) by (left; reflexivity).
  split; [exact Hf|]. split; [reflexivity|]. split; [exact Hh|].
  refine (proj1 (X21_job_completes [job] [] job r "g1" None [None; None] Hf
                   eq_refl eq_refl Hh _ eq_refl)).
  intros [|[|k]] Hk; [eexists; split; [reflexivity|eexists; reflexivity] ..|].
  cbn in Hk. lia.
Defined.

(** X22: when the images before one carry their data and that one does
    not, the job stays in flight while the generation record and the
    images before it are stored, and is then [failed], with the
    [TypeError] of [Buffer.from] as its error and its progress at 0.9;
    what was stored for it before is not undone by the processor. *)
Theorem X22_image_without_data
    (rows0 : list Job) (es : list Event) (job : Job) (r : Response)
    (g : string) (v : option Response) (vs : list (option Response))
    (im : ImageData) :
  fresh rows0 →
  let s := run es (boot rows0) in
  isProcessing s = false → getNextPendingJob (store s) = Some job →
  handled (job_type job) →
  (∀ k, (k < length vs)%nat → has_data (images_of r) k) →
  images_of r !! length vs = Some im → b64_json im = None →
  let events := [Tick; Settle 0 (Resolved (Some r)) g; Settle 0 (Resolved v) ""]
                ++ resolutions vs in
  concluded (run events s) job failed 0.9
  ∧ (∀ j, j ∈ store (run events s) → job_id j = job_id job →
          job_error j
          = Some "The first argument must be of type string or an instance of Buffer, ArrayBuffer, or Array or an Array-like Object. Received undefined")
  ∧ ∀ k, (0 < k < length events)%nat →
         isProcessing (run (take k events) s) = true.
Proof.
  intros Hfresh s F E Hh Hdata Him Hb64 events.
  destruct (reach_generation rows0 es job (Some r) g Hfresh F E Hh) as [H1 H2].
  fold s in H1, H2.
  pose proof (step_generation _ _ _ _ _ _ v "" H2) as H3.
  destruct (image_loop job g (images_of r) 0.9 vs 0 _ H3) as [Hend Hpre].
  { intros k Hk. apply Hdata. lia. }
  unfold save_image_at in Hend at 1. cbn [Nat.add] in Hend.
  rewrite Him, Hb64 in Hend. cbn [after_segment message] in Hend.
  destruct Hend as [Hc He].
  split; [exact Hc|]. split; [exact He|].
  apply (in_flight_until rows0 es (Some r) g v vs);
    [exact (parked_in_flight _ _ _ _ H1) | exact (parked_in_flight _ _ _ _ H2)
     | exact Hpre].
Qed.

(** The hypotheses of [X22_image_without_data] hold of an edit job whose
    second image comes without [b64_json]. *)
Lemma X22_image_without_data_witness :
  let job := mkJob "a" "edit" "M1" "cat" pending 0 None None 1 in
  let r := mkResponse (Some [mkImageData (Some "AAAA") None;
                             mkImageData None None]) in
  let events := [Tick; Settle 0 (Resolved (Some r)) "g1";
                 Settle 0 (Resolved None) ""]
                ++ resolutions [None] in
  fresh [job]
  ∧ getNextPendingJob (store (run [] (boot [job]))) = Some job
  ∧ handled (job_type job)
  ∧ concluded (run events (run [] (boot [job]))) job failed 0.9.
Proof.
  intros job r events.
  assert (Hf : fresh [job]).
  { split.
    - apply (bool_decide_unpack _). vm_compute. exact I.
    - intros j Hj. apply list_elem_of_singleton in Hj as ->. discriminate. }
  assert (Hh : handled (job_type job)) by (right; left; reflexivity).
  split; [exact Hf|]. split; [reflexivity|]. split; [exact Hh|].
  refine (proj1 (X22_image_without_data [job] [] job r "g1" None [None]
                   (mkImageData None None) Hf eq_refl eq_refl Hh _ eq_refl
                   eq_refl)).
  intros [|k] Hk; [eexists; split; [reflexivity|eexists; reflexivity]|].
  cbn in Hk. lia.
Defined.

(** X23: when the engine call resolves without a value, the handler goes
    on to store the generation record and only then fails, reading [data]
    of [undefined]: the job is [failed] with that [TypeError] as its error
    after the second promise, not the first. *)
Theorem X23_engine_resolves_undefined
    (rows0 : list Job) (es : list Event) (job : Job) (g : string)
    (v : option Response) :
  fresh rows0 →
  let s := run es (boot rows0) in
  isProcessing s = false → getNextPendingJob (store s) = Some job →
  handled (job_type job) →
  let events := [Tick; Settle 0 (Resolved None) g; Settle 0 (Resolved v) ""] in
  concluded (run events s) job failed 0.9
  ∧ (∀ j, j ∈ store (run events s) → job_id j = job_id job →
          job_error j
          = Some "Cannot read properties of undefined (reading 'data')")
  ∧ parked (run (take 2 events) s) job
      (AwaitCreateGeneration (job_type job) g None) 0.7.
Proof.
  intros Hfresh s F E Hh events.
  destruct (reach_generation rows0 es job None g Hfresh F E Hh) as [H1 H2].
  fold s in H1, H2.
  pose proof (step_no_response _ _ _ _ _ v "" H2) as H3.
  cbn [after_segment message] in H3. destruct H3 as [Hc He].
  split; [exact Hc|]. split; [exact He | exact H2].
Qed.

(** The hypotheses of [X23_engine_resolves_undefined] hold of a variation
    job. *)
Lemma X23_engine_resolves_undefined_witness :
  let job := mkJob "a" "variation" "M1" "cat" pending 0 None None 1 in
  let events := [Tick; Settle 0 (Resolved None) "g1";
                 Settle 0 (Resolved None) ""] in
  fresh [job]
  ∧ getNextPendingJob (store (run [] (boot [job]))) = Some job
  ∧ handled (job_type job)
  ∧ concluded (run events (run [] (boot [job]))) job failed 0.9.
Proof.
  intros job events.
  assert (Hf : fresh [job]).
  { split.
    - apply (bool_decide_unpack _). vm_compute. exact I.
    - intros j Hj. apply list_elem_of_singleton in Hj as ->. discriminate. }
  assert (Hh : handled (job_type job)) by (right; right; reflexivity).
  split; [exact Hf|]. split; [reflexivity|]. split; [exact Hh|].
  exact (proj1 (X23_engine_resolves_undefined [job] [] job "g1" None Hf
                  eq_refl eq_refl Hh)).
Defined.

End QueueControlFacts.
(* ===================================================================== *)
(** * Facts about the model downloader                                   *)
(* ===================================================================== *)

Module DownloaderFacts.
Import Downloader.

(** ** The registry metadata endpoint *)

Lemma registry_url repo :
  HF_API_MODELS +:+ "/" +:+ encodeURIComponent repo
  = HF_API_BASE +:+ "/api/models/" +:+ encodeURIComponent repo.
Proof. reflexivity. Qed.

Lemma metadata_siblings data :
  metadata data → siblings_or_empty data = Return (siblings_of data).
Proof.
  intros (fields & -> & Harr). unfold siblings_or_empty.
  cbn [get_prop siblings_of].
  destruct (field "siblings" fields) as [v|] eqn:E; [|reflexivity].
  destruct (Harr v eq_refl) as [items ->]. reflexivity.
Qed.

(** C9: for every repository and every behaviour of the registry, both
    functions issue one and the same request, a GET of
    [https://huggingface.co/api/models/<encoded repo>] accepting JSON.
    [getHuggingFaceModelInfo] returns a document exactly when the registry
    answers that request with an ok status and a body that parses to it;
    [getHuggingFaceModelFiles] then returns [siblings || []] of that same
    document, which for metadata is its [siblings] list, or the empty list
    when the key is absent, and it returns nothing that does not come from
    a document the former returns.  When the former throws so does the
    latter: the same error when the request failed or the body was not
    read, and on an error status a message of its own. *)
Theorem C9_info_and_files_one_operation
    (fetch : Request → Fetched) (repo : string) :
  let request :=
    mkRequest (HF_API_BASE +:+ "/api/models/" +:+ encodeURIComponent repo)
      None [("Accept", "application/json")] in
  let info := getHuggingFaceModelInfo fetch repo in
  let files := getHuggingFaceModelFiles fetch repo in
  info.1 = [request]
  ∧ files.1 = [request]
  ∧ (∀ data,
       info.2 = Return data
       ↔ ∃ response, fetch request = Answer response
                     ∧ ok response = true ∧ json response = Return data)
  ∧ (∀ data, info.2 = Return data → files.2 = siblings_or_empty data)
  ∧ (∀ data,
       info.2 = Return data → metadata data →
       files.2 = Return (siblings_of data))
  ∧ (∀ v,
       files.2 = Return v →
       ∃ data, info.2 = Return data ∧ siblings_or_empty data = Return v)
  ∧ (∀ e,
       info.2 = Throw e →
       files.2
       = match fetch request with
         | NetworkError _ => Throw e
         | Answer response =>
             if ok response then Throw e
             else Throw (mkError ("Failed to fetch model files: "
                                  +:+ pretty (status response) +:+ " "
                                  +:+ statusText response))
         end).
Proof.
  cbn zeta. unfold getHuggingFaceModelInfo, getHuggingFaceModelFiles.
  cbn [fst snd]. rewrite registry_url.
  split; [reflexivity|]. split; [reflexivity|].
  destruct (fetch _) as [response|err].
  - destruct (ok response) eqn:Hok; cbn [negb].
    + destruct (json response) as [data|e] eqn:Hjson.
      * split; [|split; [|split; [|split]]].
        -- intros data'. split.
           ++ intros [= <-]. exists response. auto.
           ++ intros (r & [= <-] & _ & Hj). congruence.
        -- intros data' [= <-]. reflexivity.
        -- intros data' [= <-] Hm. apply metadata_siblings, Hm.
        -- intros v Hv. exists data. split; [reflexivity | exact Hv].
        -- discriminate.
      * split; [|split; [|split; [|split]]]; try discriminate.
        -- intros data'. split; [discriminate|].
           intros (r & [= <-] & _ & Hj). congruence.
        -- intros e' [= <-]. reflexivity.
    + split; [|split; [|split; [|split]]].
      * intros data'. split.
        -- destruct (status response =? 404); discriminate.
        -- intros (r & [= <-] & Hok' & _). congruence.
      * intros data'. destruct (status response =? 404); discriminate.
      * intros data'. destruct (status response =? 404); discriminate.
      * discriminate.
      * intros e _. reflexivity.
  - split; [|split; [|split; [|split]]]; try discriminate.
    + intros data'. split; [discriminate|]. intros (r & Hr & _). discriminate.
    + intros e [= <-]. reflexivity.
Qed.

(** [C9_info_and_files_one_operation] at a registry that answers with a
    two-file repository, and at one that answers [null]: the first
    function returns [null] and the second throws. *)
Lemma C9_info_and_files_one_operation_witness :
  let data := JObj [("id", JStr "org/model");
                    ("siblings", JArr [JObj [("rfilename", JStr "a.gguf")];
                                       JObj [("rfilename", JStr "b.gguf")]])] in
  let fetch := λ _ : Request, Answer (mkResponse true 200 "OK" (Return data)) in
  let null := λ _ : Request, Answer (mkResponse true 200 "OK" (Return JNull)) in
  metadata data
  ∧ (getHuggingFaceModelFiles fetch "org/model").2
    = Return (VJson (JArr [JObj [("rfilename", JStr "a.gguf")];
                           JObj [("rfilename", JStr "b.gguf")]]))
  ∧ (getHuggingFaceModelFiles null "org/model").2
    = Throw (mkError "Cannot read properties of null (reading 'siblings')").
Proof.
  cbn zeta.
  assert (Hm : metadata
                 (JObj [("id", JStr "org/model");
                        ("siblings",
                         JArr [JObj [("rfilename", JStr "a.gguf")];
                               JObj [("rfilename", JStr "b.gguf")]])])).
  { eexists. split; [reflexivity|]. intros v [= <-]. eauto. }
  split; [exact Hm|]. split.
  - refine (proj1 (proj2 (proj2 (proj2 (proj2
              (C9_info_and_files_one_operation _ "org/model"))))) _ _ Hm).
    reflexivity.
  - refine (proj1 (proj2 (proj2 (proj2
              (C9_info_and_files_one_operation _ "org/model")))) JNull _).
    reflexivity.
Defined.

(** ** Resuming *)

Lemma filesToDownload_empty files :
  length (filesToDownload files) = 0%nat ↔ all_complete files.
Proof.
  unfold filesToDownload, all_complete. split.
  - intros Hlen path file Hf.
    apply elem_of_map_to_list in Hf.
    destruct (f_complete file) eqn:Ec; [reflexivity|]. exfalso.
    assert (Hin : (basename path, dirname path)
                  ∈ omap (λ entry : string * FileProgress,
                            if f_complete entry.2 then None
                            else Some (basename entry.1, dirname entry.1))
                      (map_to_list files)).
    { apply list_elem_of_omap. exists (path, file). split; [exact Hf|].
      simpl. rewrite Ec. reflexivity. }
    destruct (omap _ (map_to_list files)); [inversion Hin | discriminate].
  - intros Hall.
    destruct (omap _ (map_to_list files)) as [|x l] eqn:E; [reflexivity|].
    exfalso.
    assert (Hin : x ∈ omap (λ entry : string * FileProgress,
                              if f_complete entry.2 then None
                              else Some (basename entry.1, dirname entry.1))
                        (map_to_list files))
      by (rewrite E; apply list_elem_of_here).
    apply list_elem_of_omap in Hin as ([path file] & Hf & Hx).
    apply elem_of_map_to_list in Hf. simpl in Hx.
    rewrite (Hall _ _ Hf) in Hx. discriminate.
Qed.

(** C6: on a paused job with a file not marked complete, [resumeDownload]
    throws; nothing is downloaded by it: the disk, the job's file table and
    its byte counters are what they were (the function has no access to
    the network).  It returns normally only for a paused job whose files
    are all marked complete, and then the job is [COMPLETED]. *)
Theorem C6_resume_throws (id : string) (w : World) (job : DownloadJob) :
  downloadJobs w !! id = Some job →
  dj_status job = PAUSED →
  ((∃ path file, dj_files job !! path = Some file ∧ f_complete file = false) →
     (resumeDownload id w).1
     = Throw (mkError "Resume requires original download parameters. Please restart the download."))
  ∧ disk (resumeDownload id w).2 = disk w
  ∧ (∃ job', downloadJobs (resumeDownload id w).2 !! id = Some job'
             ∧ dj_files job' = dj_files job
             ∧ dj_bytesDownloaded job' = dj_bytesDownloaded job)
  ∧ (all_complete (dj_files job) →
     (resumeDownload id w).1 = Return ()
     ∧ dj_status <$> downloadJobs (resumeDownload id w).2 !! id = Some COMPLETED)
  ∧ (∀ id' w', (resumeDownload id' w').1 = Return () →
       ∃ job', downloadJobs w' !! id' = Some job'
               ∧ dj_status job' = PAUSED ∧ all_complete (dj_files job')).
Proof.
  intros Hjob Hst. unfold resumeDownload at 1 2 3 4 5. rewrite Hjob.
  destruct (decide (dj_status job = PAUSED)) as [_|]; [|contradiction].
  split; [|split; [|split; [|split]]].
  - intros (path & file & Hf & Hc).
    destruct (decide (length (filesToDownload (dj_files job)) = 0%nat)) as [E|_];
      [|reflexivity].
    apply filesToDownload_empty in E. rewrite (E _ _ Hf) in Hc. discriminate.
  - destruct (decide (length (filesToDownload (dj_files job)) = 0%nat));
      reflexivity.
  - destruct (decide (length (filesToDownload (dj_files job)) = 0%nat));
      cbn [snd set_jobs downloadJobs]; rewrite lookup_insert_eq;
      eexists; (split; [reflexivity|]); split; reflexivity.
  - intros Hall. apply filesToDownload_empty in Hall.
    destruct (decide (length (filesToDownload (dj_files job)) = 0%nat));
      [|contradiction].
    cbn [fst snd set_jobs downloadJobs]. rewrite lookup_insert_eq.
    split; reflexivity.
  - intros id' w'. unfold resumeDownload.
    destruct (downloadJobs w' !! id') as [job'|]; [|discriminate].
    destruct (decide (dj_status job' = PAUSED)) as [Hp|]; [|discriminate].
    destruct (decide (length (filesToDownload (dj_files job')) = 0%nat)) as [E|];
      [|discriminate].
    intros _. exists job'. split; [reflexivity|]. split; [exact Hp|].
    apply filesToDownload_empty, E.
Qed.

(** The hypotheses of [C6_resume_throws] hold of a paused job with one
    half-downloaded file. *)
Lemma C6_resume_throws_witness :
  let file := mkFileProgress 4 2 50 None None false in
  let job := mkDownloadJob "j" "org/model" PAUSED {["/models/a.gguf" := file]}
               50 2 4 0 0 0 None (Some true) None (Some 5) in
  let w := mkWorld {["j" := job]} {["/models/a.gguf" := [x00; x01]]} ∅ ∅ ∅ in
  downloadJobs w !! "j" = Some job
  ∧ dj_status job = PAUSED
  ∧ (resumeDownload "j" w).1
    = Throw (mkError "Resume requires original download parameters. Please restart the download.").
Proof.
  cbn zeta. split; [apply lookup_singleton_eq|]. split; [reflexivity|].
  refine (proj1 (C6_resume_throws "j" _ _ (lookup_singleton_eq _ _) _) _);
    [reflexivity|].
  exists "/models/a.gguf", (mkFileProgress 4 2 50 None None false).
  split; [apply lookup_singleton_eq | reflexivity].
Defined.

(** ** Cancelling *)

Lemma try_unlink_lookup blocked path d p :
  try_unlink blocked path d !! p = d !! p
  ∨ (p = path ∧ try_unlink blocked path d !! p = None).
Proof.
  unfold try_unlink. case_decide; [left; reflexivity|].
  destruct (decide (path = p)) as [->|Hne].
  - right. split; [reflexivity | apply lookup_delete_eq].
  - left. apply lookup_delete_ne, Hne.
Qed.

Lemma unlink_loop_lookup blocked (entries : list (string * FileProgress)) d p :
  let d' := foldl (λ d entry,
                     if negb (f_complete entry.2)
                        && bool_decide (is_Some (d !! entry.1))
                     then try_unlink blocked entry.1 d
                     else d) d entries in
  d' !! p = d !! p
  ∨ (d' !! p = None
     ∧ ∃ file, (p, file) ∈ entries ∧ f_complete file = false).
Proof.
  cbn zeta. revert d. induction entries as [|[path file] entries IH]; intros d.
  - left. reflexivity.
  - cbn [foldl].
    set (d1 := if negb (f_complete (path, file).2)
                  && bool_decide (is_Some (d !! (path, file).1))
               then try_unlink blocked (path, file).1 d else d).
    assert (Hd1 : d1 !! p = d !! p
                  ∨ (p = path ∧ d1 !! p = None ∧ f_complete file = false)).
    { subst d1. cbn [fst snd].
      destruct (f_complete file) eqn:Ec; cbn [negb andb]; [left; reflexivity|].
      destruct (bool_decide _); [|left; reflexivity].
      destruct (try_unlink_lookup blocked path d p) as [H|[H1 H2]]; auto. }
    destruct (IH d1) as [Hsame|(Hnone & file' & Hin & Hc)].
    + destruct Hd1 as [Hd1|(-> & Hd1 & Hc)].
      * left. congruence.
      * right. split; [congruence|]. exists file.
        split; [apply list_elem_of_here | exact Hc].
    + right. split; [exact Hnone|]. exists file'.
      split; [apply list_elem_of_further, Hin | exact Hc].
Qed.

Lemma unlink_partial_lookup blocked files d p :
  unlink_partial blocked files d !! p = d !! p
  ∨ (unlink_partial blocked files d !! p = None
     ∧ ∃ file, files !! p = Some file ∧ f_complete file = false).
Proof.
  unfold unlink_partial.
  destruct (unlink_loop_lookup blocked (map_to_list files) d p)
    as [H|(H & file & Hin & Hc)]; [left; exact H|].
  right. split; [exact H|]. exists file.
  split; [apply elem_of_map_to_list, Hin | exact Hc].
Qed.

(** C10: [cancelDownload] changes the disk only by deleting destination
    files of the job whose record is not marked complete; the file of a
    record marked complete is left as it is; and on a job whose status is
    [COMPLETED] it throws and changes neither the job table nor the disk. *)
Theorem C10_cancel_keeps_finished_files
    (id : string) (w : World) (job : DownloadJob) :
  downloadJobs w !! id = Some job →
  (∀ path, disk (cancelDownload id w).2 !! path ≠ disk w !! path →
     disk (cancelDownload id w).2 !! path = None
     ∧ ∃ file, dj_files job !! path = Some file ∧ f_complete file = false)
  ∧ (∀ path file,
       dj_files job !! path = Some file → f_complete file = true →
       disk (cancelDownload id w).2 !! path = disk w !! path)
  ∧ (dj_status job = COMPLETED →
     cancelDownload id w
     = (Throw (mkError "Cannot cancel completed download"), w)).
Proof.
  intros Hjob.
  assert (Hdisk : ∀ path,
            disk (cancelDownload id w).2 !! path = disk w !! path
            ∨ (disk (cancelDownload id w).2 !! path = None
               ∧ ∃ file, dj_files job !! path = Some file
                         ∧ f_complete file = false)).
  { intros path. unfold cancelDownload. rewrite Hjob.
    destruct (decide (dj_status job = COMPLETED)); [left; reflexivity|].
    cbn [snd set_disk set_jobs disk undeletable downloadJobs].
    replace (dj_files (set_status CANCELLED (abort job))) with (dj_files job)
      by (unfold abort; destruct (dj_abortController job); reflexivity).
    apply unlink_partial_lookup. }
  split; [|split].
  - intros path Hne. destruct (Hdisk path) as [H|H]; [contradiction | exact H].
  - intros path file Hf Hc.
    destruct (Hdisk path) as [H|(_ & file' & Hf' & Hc')]; [exact H|].
    congruence.
  - intros Hst. unfold cancelDownload. rewrite Hjob.
    destruct (decide (dj_status job = COMPLETED)); [reflexivity | contradiction].
Qed.

(** The hypothesis of [C10_cancel_keeps_finished_files] holds of a job with
    one finished and one partial file; cancelling removes only the
    latter. *)
Lemma C10_cancel_keeps_finished_files_witness :
  let done := mkFileProgress 3 3 100 None None true in
  let part := mkFileProgress 100 2 2 (Some 1%Q) (Some 98%Q) false in
  let job := mkDownloadJob "j" "org/model" DOWNLOADING
               (<["/models/a.gguf" := done]> {["/models/b.gguf" := part]})
               5 5 103 0 0 0 None (Some false) None None in
  let w := mkWorld {["j" := job]}
             (<["/models/a.gguf" := [x00; x01; x02]]>
                {["/models/b.gguf" := [x03; x04]]}) ∅ ∅ ∅ in
  downloadJobs w !! "j" = Some job
  ∧ disk (cancelDownload "j" w).2 !! "/models/a.gguf" = Some [x00; x01; x02]
  ∧ disk (cancelDownload "j" w).2 !! "/models/b.gguf" = None.
Proof.
  cbn zeta. split; [apply lookup_singleton_eq|].
  split; [|vm_compute; reflexivity].
  etransitivity.
  - refine (proj1 (proj2 (C10_cancel_keeps_finished_files "j" _ _
                            (lookup_singleton_eq _ _)))
              "/models/a.gguf" (mkFileProgress 3 3 100 None None true) _ _);
      [apply lookup_insert_eq | reflexivity].
  - apply lookup_insert_eq.
Defined.

End DownloaderFacts.

(* ===================================================================== *)
(** * More facts about the download service                              *)
(* ===================================================================== *)

Module DownloadServiceFacts.
Import Downloader DownloaderFacts DownloadService.

(** ** Cancelling, continued *)

Lemma unlink_step_none blocked (entry : string * FileProgress)
    (d : gmap string (list byte)) p :
  d !! p = None →
  (if negb (f_complete entry.2) && bool_decide (is_Some (d !! entry.1))
   then try_unlink blocked entry.1 d else d) !! p = None.
Proof.
  intros Hd. destruct (_ && _); [|exact Hd].
  destruct (try_unlink_lookup blocked entry.1 d p) as [H|[_ H]]; congruence.
Qed.

Lemma unlink_loop_none blocked (entries : list (string * FileProgress)) d p :
  d !! p = None →
  foldl (λ d entry,
           if negb (f_complete entry.2) && bool_decide (is_Some (d !! entry.1))
           then try_unlink blocked entry.1 d else d) d entries !! p = None.
Proof.
  revert d. induction entries as [|e entries IH]; intros d Hd; [exact Hd|].
  cbn [foldl]. apply IH, unlink_step_none, Hd.
Qed.

Lemma unlink_loop_deleted blocked (entries : list (string * FileProgress)) d
    p file :
  (p, file) ∈ entries → f_complete file = false → p ∉ blocked →
  foldl (λ d entry,
           if negb (f_complete entry.2) && bool_decide (is_Some (d !! entry.1))
           then try_unlink blocked entry.1 d else d) d entries !! p = None.
Proof.
  revert d. induction entries as [|e entries IH]; intros d Hin Hc Hb;
    [inversion Hin|].
  cbn [foldl]. apply elem_of_cons in Hin as [<- | Hin].
  - apply unlink_loop_none. cbn [fst snd]. rewrite Hc. cbn [negb andb].
    destruct (d !! p) as [content|] eqn:Hd.
    + rewrite bool_decide_eq_true_2 by eauto.
      unfold try_unlink. rewrite decide_False by exact Hb.
      apply lookup_delete_eq.
    + rewrite bool_decide_eq_false_2; [exact Hd|]. intros [x Hx]. discriminate.
  - apply IH; assumption.
Qed.

Lemma unlink_loop_blocked blocked (entries : list (string * FileProgress)) d p :
  p ∈ blocked →
  foldl (λ d entry,
           if negb (f_complete entry.2) && bool_decide (is_Some (d !! entry.1))
           then try_unlink blocked entry.1 d else d) d entries !! p = d !! p.
Proof.
  intros Hb. revert d. induction entries as [|e entries IH]; intros d;
    [reflexivity|].
  cbn [foldl]. rewrite IH. destruct (_ && _); [|reflexivity].
  unfold try_unlink. case_decide; [reflexivity|].
  apply lookup_delete_ne. congruence.
Qed.

(** What the clean-up loop leaves at a path. *)
Lemma unlink_partial_exact blocked files d p :
  unlink_partial blocked files d !! p
  = match files !! p with
    | Some file =>
        if negb (f_complete file) && bool_decide (p ∉ blocked) then None
        else d !! p
    | None => d !! p
    end.
Proof.
  destruct (files !! p) as [file|] eqn:Hf.
  - destruct (f_complete file) eqn:Hc; cbn [negb andb].
    + destruct (unlink_partial_lookup blocked files d p)
        as [H|(_ & file' & Hf' & Hc')]; [exact H | congruence].
    + case_bool_decide as Hb.
      * apply (unlink_loop_deleted _ _ _ _ file); [|exact Hc|exact Hb].
        apply elem_of_map_to_list, Hf.
      * apply unlink_loop_blocked. destruct (decide (p ∈ blocked)); tauto.
  - destruct (unlink_partial_lookup blocked files d p)
      as [H|(_ & file' & Hf' & _)]; [exact H | congruence].
Qed.

Lemma abort_files job : dj_files (abort job) = dj_files job.
Proof. unfold abort. destruct (dj_abortController job); reflexivity. Qed.

Lemma cancelled_again job :
  set_status CANCELLED (abort (set_status CANCELLED (abort job)))
  = set_status CANCELLED (abort job).
Proof.
  unfold abort. destruct job as [? ? ? ? ? ? ? ? ? ? ? [b|] ? ?]; reflexivity.
Qed.

Lemma unlink_partial_twice blocked files d :
  unlink_partial blocked files (unlink_partial blocked files d)
  = unlink_partial blocked files d.
Proof.
  apply map_eq. intros p. rewrite !unlink_partial_exact.
  destruct (files !! p) as [file|]; [|reflexivity].
  destruct (negb (f_complete file) && bool_decide (p ∉ blocked)); reflexivity.
Qed.

(** X1: cancelling a job that is not [COMPLETED] always succeeds, whatever
    its status; it leaves the job [CANCELLED] with its controller aborted
    and its file table as it was, removes from disk every file of the job
    that is not marked complete (unless [unlinkSync] fails on it) and
    touches no other job. *)
Theorem X1_cancel_removes_partial_files
    (id : string) (w : World) (job : DownloadJob) :
  downloadJobs w !! id = Some job →
  dj_status job ≠ COMPLETED →
  (cancelDownload id w).1 = Return ()
  ∧ downloadJobs (cancelDownload id w).2 !! id
    = Some (set_status CANCELLED (abort job))
  ∧ (∀ path file,
       dj_files job !! path = Some file → f_complete file = false →
       path ∉ undeletable w →
       disk (cancelDownload id w).2 !! path = None)
  ∧ (∀ id', id' ≠ id →
       downloadJobs (cancelDownload id w).2 !! id' = downloadJobs w !! id').
Proof.
  intros Hjob Hst. unfold cancelDownload. rewrite Hjob.
  destruct (decide (dj_status job = COMPLETED)); [contradiction|].
  cbn [fst snd set_disk set_jobs disk undeletable downloadJobs].
  split; [reflexivity|]. split; [apply lookup_insert_eq|]. split.
  - intros path file Hf Hc Hb. rewrite unlink_partial_exact.
    cbn [dj_files set_status]. rewrite abort_files, Hf, Hc.
    rewrite bool_decide_eq_true_2 by exact Hb. reflexivity.
  - intros id' Hne. apply lookup_insert_ne. congruence.
Qed.

(** X2: cancelling twice is the same as cancelling once: the second call
    succeeds too and leaves the job table and the disk exactly as the first
    call left them. *)
Theorem X2_cancel_idempotent (id : string) (w : World) (job : DownloadJob) :
  downloadJobs w !! id = Some job →
  dj_status job ≠ COMPLETED →
  cancelDownload id (cancelDownload id w).2
  = (Return (), (cancelDownload id w).2).
Proof.
  intros Hjob Hst. unfold cancelDownload at 2 3. rewrite Hjob.
  destruct (decide (dj_status job = COMPLETED)); [contradiction|].
  cbn [snd]. unfold cancelDownload.
  cbn [set_disk set_jobs disk undeletable downloadJobs].
  rewrite lookup_insert_eq.
  destruct (decide (dj_status (set_status CANCELLED (abort job)) = COMPLETED))
    as [E|_]; [discriminate E|].
  rewrite cancelled_again, insert_insert_eq.
  cbn [dj_files set_status]. rewrite unlink_partial_twice. reflexivity.
Qed.

(** The hypotheses of [X1_cancel_removes_partial_files] hold of a failed job
    with a partial file. *)
Lemma X1_cancel_removes_partial_files_witness :
  let part := mkFileProgress 100 2 2 (Some 1%Q) (Some 98%Q) false in
  let job := mkDownloadJob "j" "org/model" FAILED {["/models/b.gguf" := part]}
               2 2 100 0 0 0 (Some "boom") (Some false) None None in
  let w := mkWorld {["j" := job]} {["/models/b.gguf" := [x03; x04]]} ∅ ∅ ∅ in
  downloadJobs w !! "j" = Some job
  ∧ dj_status job ≠ COMPLETED
  ∧ (cancelDownload "j" w).1 = Return ().
Proof.
  intros part job w.
  assert (Hj : downloadJobs w !! "j" = Some job) by apply lookup_singleton_eq.
  assert (Hs : dj_status job ≠ COMPLETED) by (intros E; discriminate E).
  split; [exact Hj|]. split; [exact Hs|].
  exact (proj1 (X1_cancel_removes_partial_files "j" w job Hj Hs)).
Defined.

(** The hypotheses of [X2_cancel_idempotent] hold of a job that is being
    downloaded. *)
Lemma X2_cancel_idempotent_witness :
  let part := mkFileProgress 100 2 2 (Some 1%Q) (Some 98%Q) false in
  let job := mkDownloadJob "j" "org/model" DOWNLOADING
               {["/models/b.gguf" := part]}
               2 2 100 0 0 0 None (Some false) None None in
  let w := mkWorld {["j" := job]} {["/models/b.gguf" := [x03; x04]]} ∅ ∅ ∅ in
  downloadJobs w !! "j" = Some job
  ∧ dj_status job ≠ COMPLETED
  ∧ cancelDownload "j" (cancelDownload "j" w).2
    = (Return (), (cancelDownload "j" w).2).
Proof.
  intros part job w.
  assert (Hj : downloadJobs w !! "j" = Some job) by apply lookup_singleton_eq.
  assert (Hs : dj_status job ≠ COMPLETED) by (intros E; discriminate E).
  split; [exact Hj|]. split; [exact Hs|].
  exact (X2_cancel_idempotent "j" w job Hj Hs).
Defined.

(** ** Pausing and resuming *)

(** X3: pausing a job that is downloading and then resuming it, while one
    of its files is incomplete, makes [resumeDownload] throw and leaves the
    job [DOWNLOADING] with a fresh controller although no transfer was
    started; a second [resumeDownload] is then refused as "not paused".
    Neither call touches the disk. *)
Theorem X3_pause_then_resume (now : Z) (id : string) (w : World)
    (job : DownloadJob) :
  downloadJobs w !! id = Some job →
  dj_status job = DOWNLOADING →
  (∃ path file, dj_files job !! path = Some file ∧ f_complete file = false) →
  let w1 := (pauseDownload now id w).2 in
  let w2 := (resumeDownload id w1).2 in
  (pauseDownload now id w).1 = Return ()
  ∧ (∃ job1, downloadJobs w1 !! id = Some job1
             ∧ dj_status job1 = PAUSED ∧ dj_pausedAt job1 = Some now
             ∧ dj_files job1 = dj_files job)
  ∧ (resumeDownload id w1).1
    = Throw (mkError "Resume requires original download parameters. Please restart the download.")
  ∧ (∃ job2, downloadJobs w2 !! id = Some job2
             ∧ dj_status job2 = DOWNLOADING
             ∧ dj_abortController job2 = Some false)
  ∧ (resumeDownload id w2).1
    = Throw (mkError "Can only resume paused downloads")
  ∧ disk w2 = disk w.
Proof.
  intros Hjob Hst (path & file & Hf & Hc). cbn zeta.
  unfold pauseDownload. rewrite Hjob.
  destruct (decide (dj_status job = DOWNLOADING)); [|contradiction].
  cbn [fst snd]. split; [reflexivity|].
  set (job1 := mkDownloadJob _ _ _ _ _ _ _ _ _ _ _ _ _ _).
  assert (Hf1 : dj_files job1 = dj_files job) by apply abort_files.
  split.
  { exists job1. split; [apply lookup_insert_eq|]. auto. }
  set (w1 := set_jobs _ w).
  assert (Hj1 : downloadJobs w1 !! id = Some job1) by apply lookup_insert_eq.
  assert (Hinc : length (filesToDownload (dj_files job1)) ≠ 0%nat).
  { intros E. apply filesToDownload_empty in E. rewrite Hf1 in E.
    rewrite (E _ _ Hf) in Hc. discriminate. }
  assert (Hres : resumeDownload id w1
                 = (Throw (mkError "Resume requires original download parameters. Please restart the download."),
                    set_jobs (<[id := set_abortController (Some false)
                                        (set_status DOWNLOADING job1)]>
                                (downloadJobs w1)) w1)).
  { unfold resumeDownload. rewrite Hj1.
    destruct (decide (dj_status job1 = PAUSED)) as [_|Hn];
      [|exfalso; apply Hn; reflexivity].
    destruct (decide (length (filesToDownload (dj_files job1)) = 0%nat));
      [contradiction | reflexivity]. }
  rewrite Hres. cbn [fst snd]. split; [reflexivity|].
  split.
  { eexists. split; [apply lookup_insert_eq|]. split; reflexivity. }
  split; [|reflexivity].
  unfold resumeDownload. cbn [set_jobs downloadJobs].
  rewrite lookup_insert_eq.
  destruct (decide (_ = PAUSED)) as [E|_]; [discriminate E | reflexivity].
Qed.

(** The hypotheses of [X3_pause_then_resume] hold of a job with one
    half-downloaded file. *)
Lemma X3_pause_then_resume_witness :
  let file := mkFileProgress 4 2 50 None None false in
  let job := mkDownloadJob "j" "org/model" DOWNLOADING
               {["/models/a.gguf" := file]}
               50 2 4 0 0 0 None (Some false) None None in
  let w := mkWorld {["j" := job]} {["/models/a.gguf" := [x00; x01]]} ∅ ∅ ∅ in
  downloadJobs w !! "j" = Some job
  ∧ dj_status job = DOWNLOADING
  ∧ (∃ path file, dj_files job !! path = Some file ∧ f_complete file = false)
  ∧ (pauseDownload 7 "j" w).1 = Return ().
Proof.
  intros file job w.
  assert (Hj : downloadJobs w !! "j" = Some job) by apply lookup_singleton_eq.
  assert (Hi : ∃ path file,
             dj_files job !! path = Some file ∧ f_complete file = false).
  { exists "/models/a.gguf", file. split; [apply lookup_singleton_eq | reflexivity]. }
  split; [exact Hj|]. split; [reflexivity|]. split; [exact Hi|].
  exact (proj1 (X3_pause_then_resume 7 "j" w job Hj eq_refl Hi)).
Defined.

(** ** House-keeping *)

Lemma foldl_delete_lookup {A} (ids : list string) (m : gmap string A) k :
  foldl (λ jobs id, delete id jobs) m ids !! k
  = if decide (k ∈ ids) then None else m !! k.
Proof.
  revert m. induction ids as [|id ids IH]; intros m.
  - cbn [foldl]. rewrite decide_False; [reflexivity | apply not_elem_of_nil].
  - cbn [foldl]. rewrite IH.
    destruct (decide (k ∈ ids)) as [Hin|Hnin].
    + rewrite decide_True; [reflexivity | apply list_elem_of_further, Hin].
    + destruct (decide (k = id)) as [->|Hne].
      * rewrite lookup_delete_eq, decide_True; [reflexivity | apply list_elem_of_here].
      * rewrite lookup_delete_ne by congruence.
        rewrite decide_False; [reflexivity|].
        rewrite elem_of_cons. tauto.
Qed.

Lemma toDelete_elem now maxAge jobs id :
  id ∈ toDelete now maxAge jobs
  ↔ ∃ job, jobs !! id = Some job ∧ expired now maxAge job = true.
Proof.
  unfold toDelete. rewrite list_elem_of_omap. split.
  - intros ([id' job] & Hin & Hsome). cbn [fst snd] in Hsome.
    destruct (expired now maxAge job) eqn:E; [|discriminate].
    injection Hsome as ->. exists job. split; [|exact E].
    apply elem_of_map_to_list, Hin.
  - intros (job & Hj & E). exists (id, job).
    split; [apply elem_of_map_to_list, Hj|]. cbn [fst snd]. rewrite E.
    reflexivity.
Qed.

Lemma toDelete_NoDup now maxAge jobs : NoDup (toDelete now maxAge jobs).
Proof.
  unfold toDelete.
  pose proof (NoDup_fst_map_to_list jobs) as Hnd.
  induction (map_to_list jobs) as [|[id job] l IH]; [constructor|].
  rewrite fmap_cons in Hnd. apply NoDup_cons in Hnd as [Hid Hnd].
  cbn [omap list_omap fst snd].
  destruct (expired now maxAge job); [|apply IH, Hnd].
  apply NoDup_cons. split; [|apply IH, Hnd].
  intros Hin. apply Hid. apply list_elem_of_omap in Hin as ([id' job'] & Hin & Hs).
  cbn [fst snd] in Hs. destruct (expired now maxAge job'); [|discriminate].
  injection Hs as ->. apply list_elem_of_fmap. exists (id, job'). auto.
Qed.

Lemma foldl_delete_size {A} (ids : list string) (m : gmap string A) :
  NoDup ids → (∀ id, id ∈ ids → is_Some (m !! id)) →
  size m = (size (foldl (λ jobs id, delete id jobs) m ids) + length ids)%nat.
Proof.
  revert m. induction ids as [|id ids IH]; intros m Hnd Hin.
  - cbn [foldl length]. lia.
  - apply NoDup_cons in Hnd as [Hid Hnd]. cbn [foldl length].
    assert (Hrest : ∀ id', id' ∈ ids → is_Some (delete id m !! id')).
    { intros id' Hid'. rewrite lookup_delete_ne by (intros ->; contradiction).
      apply Hin, list_elem_of_further, Hid'. }
    pose proof (IH (delete id m) Hnd Hrest) as Hsize.
    pose proof (map_size_delete_Some id m (Hin id (list_elem_of_here _ _))) as Hdel.
    assert (size m ≠ 0%nat); [|lia].
    intros E. apply map_size_empty_inv in E. subst m.
    destruct (Hin id (list_elem_of_here _ _)) as [x Hx].
    rewrite lookup_empty in Hx. discriminate.
Qed.

(** X4: [cleanupOldJobs] removes exactly the jobs that are in a final state
    ([COMPLETED], [FAILED], [CANCELLED]) and older than [maxAge], the age
    counting from [completedAt] when it was set and from the start time
    otherwise; a pending, downloading or paused job is never removed,
    however old.  It returns the number of jobs removed, does not touch the
    disk, and run again at the same time it removes nothing. *)
Theorem X4_cleanup_old_jobs (now maxAge : Z) (w : World) :
  (∀ id,
     downloadJobs (cleanupOldJobs now maxAge w).2 !! id
     = match downloadJobs w !! id with
       | Some job => if expired now maxAge job then None else Some job
       | None => None
       end)
  ∧ (∀ id job,
       downloadJobs w !! id = Some job → terminal (dj_status job) = false →
       downloadJobs (cleanupOldJobs now maxAge w).2 !! id = Some job)
  ∧ size (downloadJobs w)
    = (size (downloadJobs (cleanupOldJobs now maxAge w).2)
       + (cleanupOldJobs now maxAge w).1)%nat
  ∧ disk (cleanupOldJobs now maxAge w).2 = disk w
  ∧ cleanupOldJobs now maxAge (cleanupOldJobs now maxAge w).2
    = (0%nat, (cleanupOldJobs now maxAge w).2).
Proof.
  assert (Hlook : ∀ id,
            downloadJobs (cleanupOldJobs now maxAge w).2 !! id
            = match downloadJobs w !! id with
              | Some job => if expired now maxAge job then None else Some job
              | None => None
              end).
  { intros id. cbn [cleanupOldJobs snd set_jobs downloadJobs].
    rewrite foldl_delete_lookup.
    destruct (decide (id ∈ toDelete now maxAge (downloadJobs w))) as [Hin|Hnin].
    - apply toDelete_elem in Hin as (job & -> & ->). reflexivity.
    - destruct (downloadJobs w !! id) as [job|] eqn:Hj; [|reflexivity].
      destruct (expired now maxAge job) eqn:E; [|reflexivity].
      exfalso. apply Hnin, toDelete_elem. eauto. }
  split; [exact Hlook|]. split; [|split; [|split]].
  - intros id job Hj Ht. rewrite Hlook, Hj. unfold expired. rewrite Ht.
    rewrite andb_false_r. reflexivity.
  - cbn [cleanupOldJobs fst snd set_jobs downloadJobs].
    apply foldl_delete_size; [apply toDelete_NoDup|].
    intros id Hin. apply toDelete_elem in Hin as (job & -> & _). eauto.
  - reflexivity.
  - assert (Hnone : toDelete now maxAge
                      (downloadJobs (cleanupOldJobs now maxAge w).2) = []).
    { destruct (toDelete now maxAge _) as [|id l] eqn:E; [reflexivity|].
      exfalso.
      assert (Hin : id ∈ toDelete now maxAge
                      (downloadJobs (cleanupOldJobs now maxAge w).2))
        by (rewrite E; apply list_elem_of_here).
      apply toDelete_elem in Hin as (job & Hj & Hex).
      rewrite Hlook in Hj. destruct (downloadJobs w !! id) as [job'|];
        [|discriminate].
      destruct (expired now maxAge job') eqn:E'; [discriminate|].
      injection Hj as ->. congruence. }
    revert Hnone. generalize (cleanupOldJobs now maxAge w).2 as w'.
    intros [jobs' disk' und'] Hnone. unfold cleanupOldJobs. rewrite Hnone.
    reflexivity.
Qed.

(** ** The cancel route *)

Lemma status_of_job id w job :
  downloadJobs w !! id = Some job →
  ∃ view, getDownloadStatus id w = Some view ∧ v_status view = dj_status job.
Proof.
  intros Hj. unfold getDownloadStatus. rewrite Hj.
  destruct (totals (dj_files job)) as [d s]. eauto.
Qed.

Lemma cancel_active id w job :
  downloadJobs w !! id = Some job → dj_status job ≠ COMPLETED →
  (cancelDownload id w).1 = Return ()
  ∧ downloadJobs (cancelDownload id w).2 !! id
    = Some (set_status CANCELLED (abort job)).
Proof.
  intros Hj Hnc. unfold cancelDownload. rewrite Hj.
  destruct (decide (dj_status job = COMPLETED)); [contradiction|].
  cbn [fst snd]. split; [reflexivity|]. apply lookup_insert_eq.
Qed.

(** X5: [DELETE /api/models/download/:id] answers 404 for an unknown id and
    400 for a job that is completed, failed or cancelled, both without any
    effect; for any other job it cancels it and answers 200, after which
    the job is [CANCELLED] and the same request is answered 400.  It never
    answers 500: the two cases in which [cancelDownload] throws are
    excluded by the checks before it. *)
Theorem X5_delete_route (id : string) (w : World) :
  match downloadJobs w !! id with
  | None => delete_download_route id w = (404, w)
  | Some job =>
      if terminal (dj_status job) then delete_download_route id w = (400, w)
      else
        delete_download_route id w = (200, (cancelDownload id w).2)
        ∧ (dj_status <$> downloadJobs (delete_download_route id w).2 !! id)
          = Some CANCELLED
        ∧ delete_download_route id (delete_download_route id w).2
          = (400, (delete_download_route id w).2)
  end
  ∧ (delete_download_route id w).1 ≠ 500.
Proof.
  assert (Hmain :
    match downloadJobs w !! id with
    | None => delete_download_route id w = (404, w)
    | Some job =>
        if terminal (dj_status job) then delete_download_route id w = (400, w)
        else
          delete_download_route id w = (200, (cancelDownload id w).2)
          ∧ (dj_status <$> downloadJobs (delete_download_route id w).2 !! id)
            = Some CANCELLED
          ∧ delete_download_route id (delete_download_route id w).2
            = (400, (delete_download_route id w).2)
    end).
  { destruct (downloadJobs w !! id) as [job|] eqn:Hj.
    - destruct (status_of_job _ _ _ Hj) as (view & Hv & Hs).
      destruct (terminal (dj_status job)) eqn:Ht.
      + unfold delete_download_route. rewrite Hv, Hs, Ht. reflexivity.
      + assert (Hnc : dj_status job ≠ COMPLETED)
          by (intros E; rewrite E in Ht; discriminate).
        destruct (cancel_active id w job Hj Hnc) as (Hret & Hjob').
        assert (Hdel : delete_download_route id w
                       = (200, (cancelDownload id w).2)).
        { unfold delete_download_route. rewrite Hv, Hs, Ht.
          destruct (cancelDownload id w) as [[[]|e] w'] eqn:Hc;
            cbn [fst snd] in *; [reflexivity | discriminate]. }
        split; [exact Hdel|]. rewrite Hdel. cbn [snd]. split.
        * rewrite Hjob'. reflexivity.
        * destruct (status_of_job _ _ _ Hjob') as (view' & Hv' & Hs').
          unfold delete_download_route. rewrite Hv', Hs'. reflexivity.
    - unfold delete_download_route, getDownloadStatus. rewrite Hj.
      reflexivity. }
  split; [exact Hmain|].
  destruct (downloadJobs w !! id) as [job|].
  - destruct (terminal (dj_status job)).
    + rewrite Hmain. discriminate.
    + destruct Hmain as [-> _]. discriminate.
  - rewrite Hmain. discriminate.
Qed.


(** ** Progress, speed and remaining time *)

Lemma Qpositive_lt x : Qpositive x = true → (0 < x)%Q.
Proof.
  unfold Qpositive. intros H. apply negb_true_iff in H.
  apply Qnot_le_lt. intros Hle. apply Qle_bool_iff in Hle. congruence.
Qed.

Lemma Qpositive_le x : (x <= 0)%Q → Qpositive x = false.
Proof.
  unfold Qpositive. intros H. apply Qle_bool_iff in H. rewrite H. reflexivity.
Qed.

Lemma Qpositive_of_lt x : (0 < x)%Q → Qpositive x = true.
Proof.
  unfold Qpositive. intros H. apply negb_true_iff.
  destruct (Qle_bool x 0) eqn:E; [|reflexivity].
  apply Qle_bool_iff in E. exfalso. exact (Qlt_not_le _ _ H E).
Qed.

Lemma Qdiv_nonneg (a b : Q) : (0 <= a)%Q → (0 < b)%Q → (0 <= a / b)%Q.
Proof.
  intros Ha Hb. apply Qle_shift_div_l; [exact Hb|].
  rewrite Qmult_0_l. exact Ha.
Qed.

Lemma Qdiv_pos (a b : Q) : (0 < a)%Q → (0 < b)%Q → (0 < a / b)%Q.
Proof.
  intros Ha Hb. apply Qlt_shift_div_l; [exact Hb|].
  rewrite Qmult_0_l. exact Ha.
Qed.

Lemma Qdiv_neg (a b : Q) : (a < 0)%Q → (0 < b)%Q → (a / b < 0)%Q.
Proof.
  intros Ha Hb. apply Qlt_shift_div_r; [exact Hb|].
  rewrite Qmult_0_l. exact Ha.
Qed.

Lemma inject_Z_nonneg z : 0 ≤ z → (0 <= inject_Z z)%Q.
Proof. intros H. change 0%Q with (inject_Z 0). rewrite <- Zle_Qle. exact H. Qed.

Lemma inject_Z_pos z : 0 < z → (0 < inject_Z z)%Q.
Proof. intros H. change 0%Q with (inject_Z 0). rewrite <- Zlt_Qlt. exact H. Qed.

Lemma inject_Z_neg z : z < 0 → (inject_Z z < 0)%Q.
Proof. intros H. change 0%Q with (inject_Z 0). rewrite <- Zlt_Qlt. exact H. Qed.

Lemma elapsed_pos now lastTime :
  lastTime < now → (0 < inject_Z (now - lastTime) / 1000)%Q.
Proof.
  intros H. apply Qdiv_pos; [apply inject_Z_pos; lia | reflexivity].
Qed.

Lemma elapsed_nonpos now lastTime :
  now ≤ lastTime → (inject_Z (now - lastTime) / 1000 <= 0)%Q.
Proof.
  intros H. apply Qle_shift_div_r; [reflexivity|].
  rewrite Qmult_0_l. change 0%Q with (inject_Z 0). rewrite <- Zle_Qle. lia.
Qed.

(** X8: for a transfer within its announced size
    ([lastBytes <= bytesDownloaded <= totalBytes], none negative),
    [calculateProgress] returns a percentage between 0 and 100, a speed
    that is not negative and a remaining time that is not negative; no
    division by zero occurs: when no time has passed since the last update
    the speed and the remaining time are 0, and for a total of 0 the
    percentage is 0. *)
Theorem X8_progress_bounds
    (now bytesDownloaded totalBytes startTime lastBytes lastTime : Z) :
  0 ≤ lastBytes → lastBytes ≤ bytesDownloaded → bytesDownloaded ≤ totalBytes →
  let r := calculateProgress now bytesDownloaded totalBytes startTime
             lastBytes lastTime in
  (0 <= r.1.1)%Q ∧ (r.1.1 <= 100)%Q
  ∧ (0 <= r.1.2)%Q ∧ (0 <= r.2)%Q
  ∧ (now ≤ lastTime → r.1.2 = 0%Q ∧ r.2 = 0%Q)
  ∧ (totalBytes = 0 → r.1.1 = 0%Q).
Proof.
  intros H0 Hlast Htot. cbn zeta. unfold calculateProgress. cbn [fst snd].
  assert (Hspeed :
            (0 <= (if Qpositive (inject_Z (now - lastTime) / 1000)
                   then inject_Z (bytesDownloaded - lastBytes)
                        / (inject_Z (now - lastTime) / 1000)
                   else 0))%Q).
  { destruct (Qpositive _) eqn:E; [|apply Qle_refl].
    apply Qdiv_nonneg; [apply inject_Z_nonneg; lia | apply Qpositive_lt, E]. }
  split; [|split; [|split; [|split; [|split]]]].
  - destruct (totalBytes >? 0) eqn:E; [|apply Qle_refl].
    apply Z.gtb_lt in E. apply Qmult_le_0_compat; [|discriminate].
    apply Qdiv_nonneg; [apply inject_Z_nonneg; lia | apply inject_Z_pos, E].
  - destruct (totalBytes >? 0) eqn:E; [|discriminate].
    apply Z.gtb_lt in E.
    apply Qle_trans with (1 * 100)%Q; [|discriminate].
    apply Qmult_le_compat_r; [|discriminate].
    apply Qle_shift_div_r; [apply inject_Z_pos, E|].
    rewrite Qmult_1_l, <- Zle_Qle. exact Htot.
  - exact Hspeed.
  - destruct (Qpositive (if Qpositive _ then _ else _)) eqn:E; [|apply Qle_refl].
    apply Qdiv_nonneg; [apply inject_Z_nonneg; lia | apply Qpositive_lt, E].
  - intros Hnow. rewrite (Qpositive_le _ (elapsed_nonpos _ _ Hnow)).
    split; reflexivity.
  - intros ->. reflexivity.
Qed.

(** The hypotheses of [X8_progress_bounds] hold half a second into a
    transfer of 4 000 bytes. *)
Lemma X8_progress_bounds_witness :
  0 ≤ 1000 ∧ 1000 ≤ 3000 ∧ 3000 ≤ 4000
  ∧ ((calculateProgress 1500 3000 4000 0 1000 1000).1.1 <= 100)%Q.
Proof.
  split; [lia|]. split; [lia|]. split; [lia|].
  refine (proj1 (proj2 (X8_progress_bounds 1500 3000 4000 0 1000 1000 _ _ _)));
    lia.
Defined.

(** X9: when more bytes have arrived than the announced total, as from the
    first byte on when the server announced no size ([totalBytes] 0), and
    data is flowing, the remaining time [calculateProgress] returns is
    negative, and [formatTime] shows it as "--:--"; the percentage is 0 for
    a total of 0 and above 100 otherwise. *)
Theorem X9_eta_of_unknown_size
    (now bytesDownloaded totalBytes startTime lastBytes lastTime : Z) :
  0 ≤ totalBytes → totalBytes < bytesDownloaded →
  lastBytes < bytesDownloaded → lastTime < now →
  let r := calculateProgress now bytesDownloaded totalBytes startTime
             lastBytes lastTime in
  (0 < r.1.2)%Q ∧ (r.2 < 0)%Q ∧ formatTime r.2 = Some "--:--"
  ∧ (totalBytes = 0 → r.1.1 = 0%Q)
  ∧ (0 < totalBytes → (100 < r.1.1)%Q).
Proof.
  intros H0 Hover Hflow Htime. cbn zeta. unfold calculateProgress.
  cbn [fst snd].
  rewrite (Qpositive_of_lt _ (elapsed_pos _ _ Htime)).
  assert (Hspeed : (0 < inject_Z (bytesDownloaded - lastBytes)
                        / (inject_Z (now - lastTime) / 1000))%Q).
  { apply Qdiv_pos; [apply inject_Z_pos; lia | apply elapsed_pos, Htime]. }
  rewrite (Qpositive_of_lt _ Hspeed).
  assert (Heta : (inject_Z (totalBytes - bytesDownloaded)
                  / (inject_Z (bytesDownloaded - lastBytes)
                     / (inject_Z (now - lastTime) / 1000)) < 0)%Q).
  { apply Qdiv_neg; [apply inject_Z_neg; lia | exact Hspeed]. }
  split; [exact Hspeed|]. split; [exact Heta|]. split; [|split].
  - unfold formatTime, Qnegative.
    destruct (Qle_bool 0 _) eqn:E; [|reflexivity].
    apply Qle_bool_iff in E. exfalso. exact (Qlt_not_le _ _ Heta E).
  - intros ->. reflexivity.
  - intros Hpos. destruct (totalBytes >? 0) eqn:E;
      [|rewrite Z.gtb_ltb in E; apply Z.ltb_ge in E; lia].
    apply Qle_lt_trans with (1 * 100)%Q; [discriminate|].
    apply Qmult_lt_compat_r; [reflexivity|].
    apply Qlt_shift_div_l; [apply inject_Z_pos, Hpos|].
    rewrite Qmult_1_l, <- Zlt_Qlt. exact Hover.
Qed.

(** The hypotheses of [X9_eta_of_unknown_size] hold of a stream without
    announced size, one second after its start. *)
Lemma X9_eta_of_unknown_size_witness :
  0 ≤ 0 ∧ 0 < 2048 ∧ 1024 < 2048 ∧ 1000 < 2000
  ∧ formatTime (calculateProgress 2000 2048 0 0 1024 1000).2 = Some "--:--".
Proof.
  split; [lia|]. split; [lia|]. split; [lia|]. split; [lia|].
  refine (proj1 (proj2 (proj2
            (X9_eta_of_unknown_size 2000 2048 0 0 1024 1000 _ _ _ _)))); lia.
Defined.

(** ** The clock format *)

Lemma Qfloor_div_Z (x : Q) (m : Z) :
  0 < m → Qfloor (x / inject_Z m) = Qfloor x / m.
Proof.
  intros Hm. destruct x as [p q].
  assert (E : ((p # q) / inject_Z m == p # (q * Z.to_pos m))%Q).
  { unfold Qeq, Qdiv, Qmult, Qinv, inject_Z. cbn [Qnum Qden].
    destruct m as [|m|m]; [lia| |lia]. cbn [Qnum Qden Z.to_pos].
    rewrite ?Pos2Z.inj_mul. lia. }
  rewrite (Qfloor_comp _ _ E). cbn [Qfloor].
  rewrite Pos2Z.inj_mul, Z2Pos.id by exact Hm.
  rewrite Z.div_div by lia. reflexivity.
Qed.

Lemma Qfloor_minus_Z (x : Q) (k : Z) :
  Qfloor (x - inject_Z k) = Qfloor x - k.
Proof.
  destruct x as [p q].
  assert (E : ((p # q) - inject_Z k == (p + (- k) * Z.pos q) # q)%Q).
  { unfold Qeq, Qminus, Qplus, Qopp, inject_Z. cbn [Qnum Qden].
    rewrite Pos2Z.inj_mul. lia. }
  rewrite (Qfloor_comp _ _ E). cbn [Qfloor].
  rewrite Z.div_add by lia. lia.
Qed.

Lemma Qfloor_rem (x : Q) (m : Z) :
  0 < m → Qfloor (Qrem x m) = Qfloor x mod m.
Proof.
  intros Hm. unfold Qrem.
  rewrite Qfloor_minus_Z, Qfloor_div_Z by exact Hm.
  rewrite Z.mod_eq by lia. reflexivity.
Qed.

Lemma Qfloor_nonneg (x : Q) : (0 <= x)%Q → 0 ≤ Qfloor x.
Proof.
  intros H. change 0 with (Qfloor 0). apply Qfloor_resp_le, H.
Qed.

(** X10: for a time that is not negative and below [2^53] seconds, where
    the doubles of the source hold every whole number, [formatTime] shows
    the whole seconds [n] only: from one hour on as hours and minutes, the
    seconds being dropped; from one minute on as minutes and seconds; below
    that as seconds.  The minutes and seconds shown are those of the usual
    decomposition of [n], so both stay below 60. *)
Theorem X10_format_time (seconds : Q) :
  (0 <= seconds)%Q → (seconds < inject_Z MAX_EXACT)%Q →
  let n := Qfloor seconds in
  formatTime seconds
  = Some (if 3600 <=? n
          then pretty (n / 3600) +:+ "h " +:+ pretty (n mod 3600 / 60) +:+ "m"
          else if 60 <=? n
          then pretty (n / 60) +:+ "m " +:+ pretty (n mod 60) +:+ "s"
          else pretty n +:+ "s").
Proof.
  intros Hpos Hmax. cbn zeta. pose proof (Qfloor_nonneg _ Hpos) as Hn.
  unfold formatTime, Qnegative.
  assert (Qle_bool 0 seconds = true) as -> by (apply Qle_bool_iff, Hpos).
  cbn [negb].
  assert (Qle_bool (inject_Z MAX_EXACT) seconds = false) as ->.
  { destruct (Qle_bool _ seconds) eqn:E; [|reflexivity].
    apply Qle_bool_iff in E. exfalso. exact (Qlt_not_le _ _ Hmax E). }
  f_equal.
  change (seconds / 3600)%Q with (seconds / inject_Z 3600)%Q.
  change (Qrem seconds 3600 / 60)%Q with (Qrem seconds 3600 / inject_Z 60)%Q.
  rewrite !Qfloor_div_Z, !Qfloor_rem by lia.
  destruct (3600 <=? Qfloor seconds) eqn:Eh.
  - apply Z.leb_le in Eh.
    assert ((Qfloor seconds / 3600 >? 0) = true) as ->; [|reflexivity].
    apply Z.gtb_lt. apply Z.div_str_pos. lia.
  - apply Z.leb_gt in Eh.
    rewrite (Z.div_small (Qfloor seconds) 3600) by lia.
    rewrite (Z.mod_small (Qfloor seconds) 3600) by lia.
    cbn [Z.gtb Z.compare].
    destruct (60 <=? Qfloor seconds) eqn:Em.
    + apply Z.leb_le in Em.
      assert ((Qfloor seconds / 60 >? 0) = true) as ->; [|reflexivity].
      apply Z.gtb_lt. apply Z.div_str_pos. lia.
    + apply Z.leb_gt in Em.
      rewrite (Z.div_small (Qfloor seconds) 60) by lia.
      rewrite (Z.mod_small (Qfloor seconds) 60) by lia.
      reflexivity.
Qed.

(** The hypotheses of [X10_format_time] hold of one hour, one minute and
    1.5 seconds. *)
Lemma X10_format_time_witness :
  (0 <= 3661.5)%Q ∧ (3661.5 < inject_Z MAX_EXACT)%Q
  ∧ formatTime 3661.5%Q = Some "1h 1m".
Proof.
  split; [discriminate|]. split; [reflexivity|].
  refine (X10_format_time 3661.5%Q _ _); [discriminate | reflexivity].
Defined.

(** ** URLs *)

Lemma encodeURIComponent_cons a s :
  encodeURIComponent (String a s) = encode_char a +:+ encodeURIComponent s.
Proof. reflexivity. Qed.

Lemma hex_digit_code n :
  (n < 16)%N →
  N_of_ascii (hex_digit n) = (if (n <? 10)%N then 48 + n else 55 + n)%N.
Proof.
  intros Hn. unfold hex_digit.
  destruct (n <? 10)%N eqn:E; apply N_ascii_embedding.
  - apply N.ltb_lt in E. lia.
  - lia.
Qed.

Lemma hex_digit_inj n m :
  (n < 16)%N → (m < 16)%N → hex_digit n = hex_digit m → n = m.
Proof.
  intros Hn Hm E. apply (f_equal N_of_ascii) in E.
  rewrite !hex_digit_code in E by assumption.
  destruct (n <? 10)%N eqn:En; destruct (m <? 10)%N eqn:Em;
    try apply N.ltb_lt in En; try apply N.ltb_lt in Em;
    try apply N.ltb_ge in En; try apply N.ltb_ge in Em; lia.
Qed.

Lemma hex_digit_unreserved n : (n < 16)%N → unreserved (hex_digit n) = true.
Proof.
  intros Hn. unfold unreserved. rewrite hex_digit_code by exact Hn.
  destruct (n <? 10)%N eqn:E.
  - apply N.ltb_lt in E.
    assert ((48 <=? 48 + n)%N = true) as -> by (apply N.leb_le; lia).
    assert ((48 + n <=? 57)%N = true) as -> by (apply N.leb_le; lia).
    cbn [andb]. rewrite orb_true_r. reflexivity.
  - apply N.ltb_ge in E.
    assert ((65 <=? 55 + n)%N = true) as -> by (apply N.leb_le; lia).
    assert ((55 + n <=? 90)%N = true) as -> by (apply N.leb_le; lia).
    reflexivity.
Qed.

Lemma encode_char_unreserved a s :
  unreserved a = true → encode_char a +:+ s = String a s.
Proof. intros E. unfold encode_char. rewrite E. reflexivity. Qed.

Lemma encode_char_escaped a s :
  unreserved a = false →
  encode_char a +:+ s
  = String "%" (String (hex_digit (N_of_ascii a / 16))
                  (String (hex_digit (N_of_ascii a mod 16)) s)).
Proof. intros E. unfold encode_char. rewrite E. reflexivity. Qed.

Lemma hex_pair_inj a b :
  hex_digit (N_of_ascii a / 16) = hex_digit (N_of_ascii b / 16) →
  hex_digit (N_of_ascii a mod 16) = hex_digit (N_of_ascii b mod 16) →
  a = b.
Proof.
  intros E1 E2.
  pose proof (N_ascii_bounded a) as Ha. pose proof (N_ascii_bounded b) as Hb.
  apply hex_digit_inj in E1;
    [|apply N.Div0.div_lt_upper_bound; lia ..].
  apply hex_digit_inj in E2; [|apply N.mod_lt; lia ..].
  rewrite <- (ascii_N_embedding a), <- (ascii_N_embedding b). f_equal.
  rewrite (N.div_mod (N_of_ascii a) 16), (N.div_mod (N_of_ascii b) 16) by lia.
  congruence.
Qed.

Lemma encode_char_inj a b s t :
  encode_char a +:+ s = encode_char b +:+ t → a = b ∧ s = t.
Proof.
  destruct (unreserved a) eqn:Ea; destruct (unreserved b) eqn:Eb;
    rewrite ?(encode_char_unreserved a), ?(encode_char_unreserved b),
            ?(encode_char_escaped a), ?(encode_char_escaped b) by assumption.
  - intros [= -> ->]. auto.
  - intros [= -> _]. discriminate.
  - intros [= <- _]. discriminate.
  - intros [= E1 E2 ->]. split; [apply hex_pair_inj; assumption | reflexivity].
Qed.

Lemma encode_char_nonempty a s : encode_char a +:+ s ≠ "".
Proof.
  destruct (unreserved a) eqn:Ea;
    rewrite ?encode_char_unreserved, ?encode_char_escaped by assumption;
    discriminate.
Qed.

Lemma encodeURIComponent_inj s t :
  encodeURIComponent s = encodeURIComponent t → s = t.
Proof.
  revert t. induction s as [|a s IH]; intros [|b t] E.
  - reflexivity.
  - rewrite encodeURIComponent_cons in E. symmetry in E.
    destruct (encode_char_nonempty _ _ E).
  - rewrite encodeURIComponent_cons in E.
    destruct (encode_char_nonempty _ _ E).
  - rewrite !encodeURIComponent_cons in E.
    apply encode_char_inj in E as [-> E]. f_equal. apply IH, E.
Qed.

Lemma encodeURIComponent_chars s a :
  a ∈ String.list_ascii_of_string (encodeURIComponent s) →
  unreserved a = true ∨ a = "%"%char.
Proof.
  induction s as [|b s IH]; [intros H; inversion H|].
  rewrite encodeURIComponent_cons.
  pose proof (N_ascii_bounded b) as Hb.
  destruct (unreserved b) eqn:Eb.
  - rewrite encode_char_unreserved by exact Eb.
    cbn [String.list_ascii_of_string]. intros H.
    apply elem_of_cons in H as [->|H]; [left; exact Eb | apply IH, H].
  - rewrite encode_char_escaped by exact Eb.
    cbn [String.list_ascii_of_string].
    intros H. apply elem_of_cons in H as [->|H]; [right; reflexivity|].
    apply elem_of_cons in H as [->|H].
    { left. apply hex_digit_unreserved, N.Div0.div_lt_upper_bound. lia. }
    apply elem_of_cons in H as [->|H].
    { left. apply hex_digit_unreserved, N.mod_lt. lia. }
    apply IH, H.
Qed.

Lemma append_cons a (x s : string) : String a x +:+ s = String a (x +:+ s).
Proof. reflexivity. Qed.

Lemma split_at_slash (x y s t : string) :
  "/"%char ∉ String.list_ascii_of_string x → "/"%char ∉ String.list_ascii_of_string y →
  x +:+ String "/" s = y +:+ String "/" t → x = y ∧ s = t.
Proof.
  revert y. induction x as [|a x IH]; intros [|b y] Hx Hy E;
    rewrite ?append_cons in E; cbn [String.list_ascii_of_string] in *.
  - injection E as ->. auto.
  - injection E as <- _. exfalso. apply Hy, list_elem_of_here.
  - injection E as -> _. exfalso. apply Hx, list_elem_of_here.
  - injection E as -> E. destruct (IH y) as [-> ->]; auto.
    + intros H. apply Hx, list_elem_of_further, H.
    + intros H. apply Hy, list_elem_of_further, H.
Qed.

(** X11: [encodeURIComponent] produces only unreserved characters and
    ["%"], so an encoded repository or file name contains no ["/"] (a slash
    becomes [%2F]), and it loses no information; hence two downloads get
    the same URL from [getHuggingFaceFileUrl] only if they agree on both
    the repository and the file name. *)
Theorem X11_file_url_injective (repo filename repo' filename' : string) :
  ("/"%char ∉ String.list_ascii_of_string (encodeURIComponent repo))
  ∧ (encodeURIComponent repo = encodeURIComponent repo' → repo = repo')
  ∧ (getHuggingFaceFileUrl repo filename
     = getHuggingFaceFileUrl repo' filename' →
     repo = repo' ∧ filename = filename').
Proof.
  assert (Hslash : ∀ s, "/"%char ∉ String.list_ascii_of_string (encodeURIComponent s)).
  { intros s H. apply encodeURIComponent_chars in H as [H|H]; discriminate. }
  split; [apply Hslash|]. split; [apply encodeURIComponent_inj|].
  unfold getHuggingFaceFileUrl. intros E.
  apply String.app_inj in E. apply String.app_inj in E.
  apply split_at_slash in E as [Er Ef]; [|apply Hslash ..].
  apply (String.app_inj "resolve/main/") in Ef.
  split; apply encodeURIComponent_inj; assumption.
Qed.


(** ** One file *)

Lemma grown_refl w : grown w w.
Proof. repeat split; reflexivity. Qed.

Lemma ensure_dir_grown dir w w' : ensure_dir dir w = Return w' → grown w w'.
Proof.
  unfold ensure_dir, mkdirSync.
  destruct (existsSync dir w); [intros [= <-]; apply grown_refl|].
  destruct (unmakable w !! dir); [discriminate|]. intros [= <-].
  repeat split. cbn [set_dirs dirs]. set_solver.
Qed.

Lemma ensure_dir_there dir w :
  dir ∈ dirs w → ensure_dir dir w = Return w.
Proof.
  intros Hin. unfold ensure_dir, existsSync.
  rewrite (bool_decide_eq_true_2 (dir ∈ dirs w)) by exact Hin.
  rewrite orb_true_r. reflexivity.
Qed.

Lemma ancestors_head fuel dir : dir ∈ ancestors fuel dir.
Proof. destruct fuel; cbn; [|case_decide]; apply list_elem_of_here. Qed.

Lemma ensure_dir_made dir w w' :
  ensure_dir dir w = Return w' → existsSync dir w' = true.
Proof.
  unfold ensure_dir. destruct (existsSync dir w) eqn:E.
  - intros [= <-]. exact E.
  - unfold mkdirSync. destruct (unmakable w !! dir); [discriminate|].
    intros [= <-]. unfold existsSync. cbn [set_dirs dirs disk].
    rewrite (bool_decide_eq_true_2 (dir ∈ _)); [apply orb_true_r|].
    apply elem_of_union_r, elem_of_list_to_set, ancestors_head.
Qed.

(** What [downloadFile_begin] does for a file whose record is not marked
    complete, once the destination directory is there. *)
Lemma begin_fetch a w job w1 :
  downloadJobs w !! jobId a = Some job →
  ensure_dir (dirname (destinationPath a)) w = Return w1 →
  (∀ file, dj_files job !! destinationPath a = Some file →
           f_complete file = false) →
  let s := match disk w !! destinationPath a with
           | Some content => Z.of_nat (length content)
           | None => 0
           end in
  downloadFile_begin a false w
  = BeginFetch (mkRequest (url a) (Some "GET") (range_headers s)) s w1.
Proof.
  intros Hjob Hdir Hinc. cbn zeta. unfold downloadFile_begin.
  rewrite Hjob, Hdir.
  destruct (ensure_dir_grown _ _ _ Hdir) as (_ & -> & _).
  destruct (disk w !! destinationPath a) as [content|]; [|reflexivity].
  destruct (dj_files job !! destinationPath a) as [file|] eqn:Hf;
    [|reflexivity].
  rewrite (Hinc _ eq_refl). reflexivity.
Qed.

Lemma fr_ok_not_416 response :
  fr_ok response = true ∨ fr_status response = 206 →
  (fr_status response =? 416) = false.
Proof.
  unfold fr_ok. intros [H| ->]; [|reflexivity].
  apply andb_true_iff in H as [_ H]. apply Z.leb_le in H.
  apply Z.eqb_neq. lia.
Qed.

(** An answer that carries the file makes the call throw, with the
    destination opened and nothing written to it. *)
Lemma served_throws a s response w :
  fr_ok response = true ∨ fr_status response = 206 →
  downloadFile_response a s response w
  = (Throw (if fr_body response then fromWeb_error else getReader_error),
     set_disk
       (createWriteStream (destinationPath a)
          (if s >? 0 then flag_a else flag_w) (disk w)) w).
Proof.
  intros Hok. unfold downloadFile_response.
  rewrite (fr_ok_not_416 _ Hok).
  destruct Hok as [-> | ->]; [reflexivity|].
  rewrite andb_false_r. reflexivity.
Qed.

Lemma createWriteStream_other path flags d p :
  p ≠ path → createWriteStream path flags d !! p = d !! p.
Proof.
  intros Hne. unfold createWriteStream.
  destruct flags; [destruct (d !! path)|];
    try reflexivity; apply lookup_insert_ne; congruence.
Qed.

Lemma createWriteStream_append path d content :
  d !! path = Some content → createWriteStream path flag_a d = d.
Proof. intros H. unfold createWriteStream. rewrite H. reflexivity. Qed.

Lemma response_jobs a s response w :
  downloadJobs (downloadFile_response a s response w).2 = downloadJobs w.
Proof.
  unfold downloadFile_response.
  destruct (fr_status response =? 416);
    [destruct (disk w !! destinationPath a); reflexivity|].
  destruct (negb (fr_ok response) && negb (fr_status response =? 206));
    reflexivity.
Qed.

Lemma begin_jobs a aborted w :
  match downloadFile_begin a aborted w with
  | BeginThrow _ => True
  | BeginReturn _ w' => grown w w'
  | BeginFetch _ _ w' => grown w w'
  end.
Proof.
  unfold downloadFile_begin.
  destruct (downloadJobs w !! jobId a) as [job|]; [|exact I].
  destruct aborted; [exact I|].
  destruct (ensure_dir _ w) as [w1|e] eqn:Hdir; [|exact I].
  pose proof (ensure_dir_grown _ _ _ Hdir) as Hg.
  destruct (disk w1 !! destinationPath a); [|exact Hg].
  destruct (dj_files job !! destinationPath a) as [file|]; [|exact Hg].
  destruct (f_complete file); exact Hg.
Qed.

(** [downloadFile] never writes to the job table. *)
Lemma downloadFile_jobs a wire w :
  downloadJobs (downloadFile a wire w).2.2 = downloadJobs w.
Proof.
  unfold downloadFile. pose proof (begin_jobs a false w) as Hb.
  destruct (downloadFile_begin a false w) as [e|r w'|request s w'];
    cbn [fst snd]; [reflexivity|apply Hb|].
  unfold downloadFile_settle. destruct (wire request); cbn [snd];
    [apply Hb|]. rewrite response_jobs. apply Hb.
Qed.

Lemma set_disk_same w : set_disk (disk w) w = w.
Proof. destruct w; reflexivity. Qed.

Lemma existsSync_grown dir w w' :
  grown w w' → existsSync dir w = true → existsSync dir w' = true.
Proof.
  intros (_ & Hd & _ & _ & Hsub). unfold existsSync. rewrite Hd.
  intros H. apply orb_true_iff in H as [H|H]; [rewrite H; reflexivity|].
  apply bool_decide_eq_true in H.
  rewrite (bool_decide_eq_true_2 (dir ∈ dirs w')); [apply orb_true_r|].
  apply Hsub, H.
Qed.

Lemma existsSync_opened dir path flags w :
  existsSync dir w = true →
  existsSync dir (set_disk (createWriteStream path flags (disk w)) w) = true.
Proof.
  unfold existsSync. cbn [set_disk disk dirs]. intros H.
  apply orb_true_iff in H as [H|H]; [|rewrite H; apply orb_true_r].
  apply bool_decide_eq_true in H as [content Hc].
  rewrite bool_decide_eq_true_2; [reflexivity|].
  destruct (decide (dir = path)) as [->|Hne].
  - unfold createWriteStream. destruct flags; [rewrite Hc; eauto|].
    rewrite lookup_insert_eq. eauto.
  - rewrite createWriteStream_other by exact Hne. eauto.
Qed.

Lemma ensure_dir_exists dir w :
  existsSync dir w = true → ensure_dir dir w = Return w.
Proof. intros H. unfold ensure_dir. rewrite H. reflexivity. Qed.

(** C5, evaluated where the claim fails.  For a destination that holds a
    partial file of [s > 0] bytes in a directory that exists: when the
    record of the file is marked complete, [downloadFile] returns it as
    skipped without a request; otherwise it issues one GET with
    [Range: bytes=s-], and on the answer 416 returns the file as complete
    with its size.  But on a 2xx or 206 answer nothing is appended: the
    destination is opened for appending and the call then throws the
    [TypeError] of [Readable.fromWeb] (of [getReader] for an answer without
    body); the file, the record and the rest of the world are what they
    were. *)
Theorem C5_resume_appends_nothing
    (a : Args) (wire : Request → Wire) (w : World) (job : DownloadJob)
    (content : list byte) :
  downloadJobs w !! jobId a = Some job →
  disk w !! destinationPath a = Some content →
  existsSync (dirname (destinationPath a)) w = true →
  let s := Z.of_nat (length content) in
  0 < s →
  let request :=
    mkRequest (url a) (Some "GET") [("Range", "bytes=" +:+ pretty s +:+ "-")] in
  ((∃ file, dj_files job !! destinationPath a = Some file
            ∧ f_complete file = true) →
     downloadFile a wire w
     = ([], (Return (mkFileResult (destinationPath a) s false true), w)))
  ∧ ((∀ file, dj_files job !! destinationPath a = Some file →
              f_complete file = false) →
     (downloadFile a wire w).1 = [request]
     ∧ (∀ response,
          wire request = WireAnswer response → fr_status response = 416 →
          (downloadFile a wire w).2
          = (Return (mkFileResult (destinationPath a) s false true), w))
     ∧ (∀ response,
          wire request = WireAnswer response →
          fr_ok response = true ∨ fr_status response = 206 →
          (downloadFile a wire w).2
          = (Throw (if fr_body response then fromWeb_error
                    else getReader_error),
             w))).
Proof.
  intros Hjob Hfile Hdir s Hs request.
  pose proof (ensure_dir_exists _ _ Hdir) as Hens.
  assert (Hrange : range_headers s
                   = [("Range", "bytes=" +:+ pretty s +:+ "-")]).
  { unfold range_headers.
    destruct (s >? 0) eqn:E; [reflexivity|].
    rewrite Z.gtb_ltb in E. apply Z.ltb_ge in E. lia. }
  split.
  - intros (file & Hf & Hc). unfold downloadFile, downloadFile_begin.
    rewrite Hjob, Hens, Hfile, Hf, Hc. reflexivity.
  - intros Hinc.
    pose proof (begin_fetch a w job w Hjob Hens Hinc) as Hb.
    cbn zeta in Hb. rewrite Hfile in Hb. fold s in Hb. rewrite Hrange in Hb.
    fold request in Hb.
    unfold downloadFile. rewrite Hb. cbn [fst snd].
    split; [reflexivity|]. split.
    + intros response -> H416. unfold downloadFile_settle, downloadFile_response.
      rewrite H416. cbn [Z.eqb Pos.eqb]. rewrite Hfile. reflexivity.
    + intros response -> Hok. unfold downloadFile_settle.
      rewrite served_throws by exact Hok.
      assert ((s >? 0) = true) as ->.
      { rewrite Z.gtb_ltb. apply Z.ltb_lt, Hs. }
      rewrite (createWriteStream_append _ _ _ Hfile), set_disk_same.
      reflexivity.
Qed.

(** The hypotheses of [C5_resume_appends_nothing] hold of a job with a
    partial file of two bytes whose ranged request is answered with 206
    and a body: the call throws and the two bytes are all there is. *)
Lemma C5_resume_appends_nothing_witness :
  let a := mkArgs "https://huggingface.co/org/model/resolve/main/a.gguf"
             "/models/a.gguf" "j" 0 1 in
  let job := mkDownloadJob "j" "org/model" DOWNLOADING
               {["/models/a.gguf" := mkFileProgress 0 0 0 None None false]}
               0 0 0 0 0 0 None (Some false) None None in
  let w := mkWorld {["j" := job]} {["/models/a.gguf" := [x00; x01]]} ∅
             {["/models"]} ∅ in
  let wire := λ _ : Request, WireAnswer (mkFileResponse 206 true) in
  downloadJobs w !! jobId a = Some job
  ∧ disk w !! destinationPath a = Some [x00; x01]
  ∧ existsSync (dirname (destinationPath a)) w = true
  ∧ (downloadFile a wire w).1
    = [mkRequest (url a) (Some "GET") [("Range", "bytes=2-")]]
  ∧ (downloadFile a wire w).2 = (Throw fromWeb_error, w)
  ∧ disk (downloadFile a wire w).2.2 !! "/models/a.gguf" = Some [x00; x01].
Proof.
  intros a job w wire.
  assert (Hjob : downloadJobs w !! jobId a = Some job)
    by apply lookup_singleton_eq.
  assert (Hfile : disk w !! destinationPath a = Some [x00; x01])
    by apply lookup_singleton_eq.
  assert (Hdir : existsSync (dirname (destinationPath a)) w = true)
    by reflexivity.
  split; [exact Hjob|]. split; [exact Hfile|]. split; [exact Hdir|].
  destruct (C5_resume_appends_nothing a wire w job [x00; x01] Hjob Hfile Hdir
              ltac:(reflexivity)) as [_ H].
  destruct H as (Hreq & _ & Hthrow).
  { intros file Hf. unfold job, a in Hf. cbn [dj_files destinationPath] in Hf.
    apply lookup_singleton_Some in Hf as [_ <-]. reflexivity. }
  split; [exact Hreq|].
  assert (Hout := Hthrow (mkFileResponse 206 true) eq_refl (or_intror eq_refl)).
  split; [exact Hout|]. rewrite Hout. exact Hfile.
Defined.

Lemma createWriteStream_fresh path d :
  d !! path = None → createWriteStream path flag_w d = <[path := []]> d.
Proof. reflexivity. Qed.

Lemma set_disk_twice d d' w : set_disk d (set_disk d' w) = set_disk d w.
Proof. reflexivity. Qed.

(** X6: a file that is served is not downloaded.  For a destination that
    is not on disk, in a directory that exists or can be made,
    [downloadFile] makes one plain GET (no [Range] header); on a 2xx or
    206 answer it throws the [TypeError] of [Readable.fromWeb] (of
    [getReader] for an answer without body) and none of the body is
    stored: the destination is left as an empty file, no other file
    changes and the job table is as it was, the record of the file not
    marked complete.  Asked again, it makes the same request and throws
    the same error, leaving the world as the first call left it. *)
Theorem X6_served_file_not_downloaded
    (a : Args) (wire : Request → Wire) (w w1 : World) (job : DownloadJob)
    (response : FileResponse) :
  downloadJobs w !! jobId a = Some job →
  disk w !! destinationPath a = None →
  (∀ file, dj_files job !! destinationPath a = Some file →
           f_complete file = false) →
  ensure_dir (dirname (destinationPath a)) w = Return w1 →
  wire (mkRequest (url a) (Some "GET") []) = WireAnswer response →
  fr_ok response = true ∨ fr_status response = 206 →
  let out := downloadFile a wire w in
  let err := if fr_body response then fromWeb_error else getReader_error in
  out.1 = [mkRequest (url a) (Some "GET") []]
  ∧ out.2.1 = Throw err
  ∧ disk out.2.2 !! destinationPath a = Some []
  ∧ (∀ path, path ≠ destinationPath a → disk out.2.2 !! path = disk w !! path)
  ∧ downloadJobs out.2.2 = downloadJobs w
  ∧ dirs out.2.2 = dirs w1
  ∧ downloadFile a wire out.2.2 = (out.1, (Throw err, out.2.2)).
Proof.
  intros Hjob Hfile Hinc Hdir Hwire Hok out err.
  pose proof (ensure_dir_grown _ _ _ Hdir) as (Hj1 & Hd1 & Hu1 & Hm1 & Hsub).
  pose proof (begin_fetch a w job w1 Hjob Hdir Hinc) as Hb.
  cbn zeta in Hb. rewrite Hfile in Hb. change (range_headers 0) with
    (@nil (string * string)) in Hb.
  assert (Hout : out
                 = ([mkRequest (url a) (Some "GET") []],
                    (Throw err,
                     set_disk (<[destinationPath a := []]> (disk w1)) w1))).
  { unfold out, downloadFile. rewrite Hb. unfold downloadFile_settle.
    rewrite Hwire, served_throws by exact Hok. reflexivity. }
  rewrite Hout. cbn [fst snd set_disk disk downloadJobs dirs].
  split; [reflexivity|]. split; [reflexivity|].
  split; [apply lookup_insert_eq|].
  split; [intros path Hne; rewrite lookup_insert_ne by congruence;
          rewrite Hd1; reflexivity|].
  split; [exact Hj1|]. split; [reflexivity|].
  set (w2 := set_disk (<[destinationPath a := []]> (disk w1)) w1).
  assert (Hjob2 : downloadJobs w2 !! jobId a = Some job)
    by (unfold w2; cbn [set_disk downloadJobs]; rewrite Hj1; exact Hjob).
  assert (Hdir2 : ensure_dir (dirname (destinationPath a)) w2 = Return w2).
  { apply ensure_dir_exists.
    apply (existsSync_opened _ (destinationPath a) flag_w w1).
    apply (ensure_dir_made _ _ _ Hdir). }
  pose proof (begin_fetch a w2 job w2 Hjob2 Hdir2 Hinc) as Hb2.
  cbn zeta in Hb2.
  assert (Hfile2 : disk w2 !! destinationPath a = Some [])
    by apply lookup_insert_eq.
  rewrite Hfile2 in Hb2. change (range_headers _) with
    (@nil (string * string)) in Hb2.
  unfold downloadFile. rewrite Hb2. unfold downloadFile_settle.
  rewrite Hwire, served_throws by exact Hok.
  change (Z.of_nat (length (@nil byte)) >? 0) with false. cbn match.
  f_equal. f_equal. unfold w2. cbn [createWriteStream set_disk disk].
  rewrite insert_insert_eq. reflexivity.
Qed.

(** The hypotheses of [X6_served_file_not_downloaded] hold of a file served
    with a body of its own into a models directory that is yet to be
    made. *)
Lemma X6_served_file_not_downloaded_witness :
  let a := mkArgs "https://huggingface.co/org%2Fm/resolve/main/a.gguf"
             "/models/a.gguf" "j" 0 1 in
  let job := mkDownloadJob "j" "org/m" DOWNLOADING
               {["/models/a.gguf" := mkFileProgress 0 0 0 None None false]}
               0 0 0 0 0 0 None (Some false) None None in
  let w := mkWorld {["j" := job]} ∅ ∅ ∅ ∅ in
  let wire := λ _ : Request, WireAnswer (mkFileResponse 200 true) in
  downloadJobs w !! jobId a = Some job
  ∧ disk w !! destinationPath a = None
  ∧ (downloadFile a wire w).2.1 = Throw fromWeb_error
  ∧ disk (downloadFile a wire w).2.2 !! "/models/a.gguf" = Some []
  ∧ dirs (downloadFile a wire w).2.2 = {["/models"; "/"]}.
Proof.
  intros a job w wire.
  assert (Hjob : downloadJobs w !! jobId a = Some job)
    by apply lookup_singleton_eq.
  assert (Hfile : disk w !! destinationPath a = None) by apply lookup_empty.
  split; [exact Hjob|]. split; [exact Hfile|].
  destruct (X6_served_file_not_downloaded a wire w
              (set_dirs (∅ ∪ list_to_set ["/models"; "/"]) w) job
              (mkFileResponse 200 true) Hjob Hfile)
    as (_ & Hthrow & Hdest & _ & _ & Hdirs & _);
    [|reflexivity|reflexivity|left; reflexivity|].
  { intros file Hf. unfold job, a in Hf. cbn [dj_files destinationPath] in Hf.
    apply lookup_singleton_Some in Hf as [_ <-]. reflexivity. }
  split; [exact Hthrow|]. split; [exact Hdest|].
  rewrite Hdirs. cbn [set_dirs dirs]. set_solver.
Defined.

(** X7: when the connection fails or the server answers with an error
    status (outside 200-299, and neither 206 nor 416), [downloadFile]
    leaves the files and the jobs exactly as they were: no file is created
    and a partial file is not truncated.  The only trace it can leave is
    the destination directory, made before the request with the
    directories above it; where that directory was there, the world is
    just as before.  The call throws, unless the file was already
    complete, in which case no request was made. *)
Theorem X7_refused_download_changes_nothing
    (a : Args) (wire : Request → Wire) (w : World) :
  (∀ request,
     match wire request with
     | WireDown _ => True
     | WireAnswer response =>
         fr_ok response = false
         ∧ fr_status response ≠ 206 ∧ fr_status response ≠ 416
     end) →
  grown w (downloadFile a wire w).2.2
  ∧ dirs (downloadFile a wire w).2.2
    ⊆ dirs w
      ∪ list_to_set
          (ancestors (String.length (dirname (destinationPath a)))
             (dirname (destinationPath a)))
  ∧ (existsSync (dirname (destinationPath a)) w = true →
     (downloadFile a wire w).2.2 = w)
  ∧ match (downloadFile a wire w).2.1 with
    | Throw _ => True
    | Return r => r_skipped r = true ∧ (downloadFile a wire w).1 = []
    end.
Proof.
  intros Hwire.
  assert (Hsettle : ∀ request s w',
            downloadFile_settle a s (wire request) w'
            = ((downloadFile_settle a s (wire request) w').1, w')
            ∧ ∃ e, (downloadFile_settle a s (wire request) w').1 = Throw e).
  { intros request s w'. specialize (Hwire request).
    unfold downloadFile_settle.
    destruct (wire request) as [e|response]; [eauto|].
    destruct Hwire as (Hok & H206 & H416). unfold downloadFile_response.
    rewrite (proj2 (Z.eqb_neq _ _) H416), Hok, (proj2 (Z.eqb_neq _ _) H206).
    cbn [negb andb fst]. eauto. }
  assert (Hworld : ∀ w', ensure_dir (dirname (destinationPath a)) w = Return w' →
            grown w w'
            ∧ dirs w'
              ⊆ dirs w
                ∪ list_to_set
                    (ancestors (String.length (dirname (destinationPath a)))
                       (dirname (destinationPath a)))
            ∧ (existsSync (dirname (destinationPath a)) w = true → w' = w)).
  { intros w' Hdir. split; [exact (ensure_dir_grown _ _ _ Hdir)|].
    unfold ensure_dir in Hdir.
    destruct (existsSync _ w).
    - injection Hdir as <-. split; [apply union_subseteq_l | reflexivity].
    - unfold mkdirSync in Hdir. destruct (unmakable w !! _); [discriminate|].
      injection Hdir as <-. split; [reflexivity | discriminate]. }
  unfold downloadFile, downloadFile_begin.
  destruct (downloadJobs w !! jobId a) as [job|]; cbn [fst snd];
    [|split; [apply grown_refl|]; split; [apply union_subseteq_l|]; split; auto].
  destruct (ensure_dir _ w) as [w'|e] eqn:Hdir; cbn [fst snd];
    [|split; [apply grown_refl|]; split; [apply union_subseteq_l|]; split; auto].
  destruct (Hworld w' eq_refl) as (Hg & Hsub & Hsame).
  assert (Hfetch : ∀ s,
            let out := ([mkRequest (url a) (Some "GET") (range_headers s)],
                        downloadFile_settle a s
                          (wire (mkRequest (url a) (Some "GET")
                                   (range_headers s))) w') in
            grown w out.2.2
            ∧ dirs out.2.2
              ⊆ dirs w
                ∪ list_to_set
                    (ancestors (String.length (dirname (destinationPath a)))
                       (dirname (destinationPath a)))
            ∧ (existsSync (dirname (destinationPath a)) w = true →
               out.2.2 = w)
            ∧ match out.2.1 with
              | Throw _ => True
              | Return r => r_skipped r = true ∧ out.1 = []
              end).
  { intros s. cbn zeta. cbn [fst snd].
    destruct (Hsettle (mkRequest (url a) (Some "GET") (range_headers s)) s w')
      as (-> & e & ->).
    cbn [fst snd]. auto. }
  destruct (disk w' !! destinationPath a) as [content|]; [|apply Hfetch].
  destruct (dj_files job !! destinationPath a) as [file|]; [|apply Hfetch].
  destruct (f_complete file); [|apply Hfetch].
  cbn [fst snd r_skipped]. auto.
Qed.

(** The hypothesis of [X7_refused_download_changes_nothing] holds of a
    server that answers 404; the partial file stays as it is. *)
Lemma X7_refused_download_changes_nothing_witness :
  let a := mkArgs "https://huggingface.co/org%2Fm/resolve/main/a.gguf"
             "/models/a.gguf" "j" 0 1 in
  let job := mkDownloadJob "j" "org/m" DOWNLOADING ∅
               0 0 0 0 0 0 None (Some false) None None in
  let w := mkWorld {["j" := job]} {["/models/a.gguf" := [x01]]} ∅
             {["/models"]} ∅ in
  let wire := λ _ : Request, WireAnswer (mkFileResponse 404 true) in
  existsSync (dirname (destinationPath a)) w = true
  ∧ (downloadFile a wire w).2.2 = w.
Proof.
  intros a job w wire. split; [reflexivity|].
  refine (proj1 (proj2 (proj2
            (X7_refused_download_changes_nothing a wire w _))) _);
    [|reflexivity].
  intros request. cbn. repeat split; discriminate.
Defined.

(** ** A whole model *)

Lemma update_job_lookup id f w job :
  downloadJobs w !! id = Some job →
  downloadJobs (update_job id f w) !! id = Some (f job)
  ∧ disk (update_job id f w) = disk w
  ∧ ∀ id', id' ≠ id →
      downloadJobs (update_job id f w) !! id' = downloadJobs w !! id'.
Proof.
  intros Hj. unfold update_job. rewrite Hj. cbn [downloadJobs disk set_jobs].
  split; [apply lookup_insert_eq|]. split; [reflexivity|].
  intros id' Hne. apply lookup_insert_ne. congruence.
Qed.

Lemma update_job_insert id f job jobs w :
  update_job id f (set_jobs (<[id := job]> jobs) w)
  = set_jobs (<[id := f job]> jobs) w.
Proof.
  unfold update_job. cbn [downloadJobs set_jobs].
  rewrite lookup_insert_eq. unfold set_jobs.
  cbn [downloadJobs disk undeletable dirs unmakable].
  rewrite insert_insert_eq. reflexivity.
Qed.

Lemma failed_not_cancelled (x : string) :
  "Failed to access repository " +:+ x ≠ "Download cancelled".
Proof. discriminate. Qed.


Lemma type_error_not_cancelled (body : bool) :
  message (if body then fromWeb_error else getReader_error)
  ≠ "Download cancelled".
Proof. destruct body; discriminate. Qed.

Section DownloadModelFacts.

Variable join : string → string → string.
Variable modelsDir : string.
Variable error_name : Error → string.



(** X17: when the repository cannot be read (the registry request fails
    or is answered with an error), [downloadModel] makes no file request
    and leaves the disk alone; it throws
    [Failed to access repository "<repo>": <cause>] and leaves the new job
    [FAILED] with that whole message as its error, the cause alone having
    been overwritten by the outer handler; other jobs are untouched. *)
Theorem X17_repository_unreachable
    (jid repo : string) (files : list FileSpec) (t0 t1 : Z)
    (fetch : Request → Fetched) (wire : Request → Wire) (w : World)
    (e : Error) :
  (getHuggingFaceModelInfo fetch repo).2 = Throw e →
  let out := downloadModel join modelsDir error_name jid repo files t0 t1
               fetch wire w in
  let msg := "Failed to access repository " +:+ quoted repo +:+ ": "
             +:+ message e in
  out.1 = [mkRequest (HF_API_MODELS +:+ "/" +:+ encodeURIComponent repo) None
             [("Accept", "application/json")]]
  ∧ out.2.1 = Throw (mkError msg)
  ∧ downloadJobs out.2.2 !! jid
    = Some (mkDownloadJob jid repo FAILED ∅ 0 0 0 0 0 t0 (Some msg) None None
              None)
  ∧ disk out.2.2 = disk w
  ∧ ∀ id, id ≠ jid → downloadJobs out.2.2 !! id = downloadJobs w !! id.
Proof.
  intros Hinfo. cbn zeta. unfold downloadModel. rewrite Hinfo.
  rewrite !update_job_insert. cbn [fst snd].
  split; [reflexivity|]. split; [reflexivity|].
  unfold on_failure. cbn [message].
  rewrite (bool_decide_eq_false_2 _ (failed_not_cancelled _)).
  cbn [orb]. rewrite bool_decide_eq_false_2 by discriminate.
  cbn [downloadJobs disk set_jobs].
  split; [rewrite lookup_insert_eq; reflexivity|]. split; [reflexivity|].
  intros id Hne. apply lookup_insert_ne. congruence.
Qed.

End DownloadModelFacts.

(** The hypothesis of [X17_repository_unreachable] holds when the registry
    cannot be reached. *)
Lemma X17_repository_unreachable_witness :
  let join := λ dir name : string, dir +:+ "/" +:+ name in
  let fetch := λ _ : Request, NetworkError (mkError "fetch failed") in
  let wire := λ _ : Request, WireDown (mkError "fetch failed") in
  let w := mkWorld ∅ {["/models/a.gguf" := [x01]]} ∅ ∅ ∅ in
  (getHuggingFaceModelInfo fetch "org/m").2 = Throw (mkError "fetch failed")
  ∧ disk (downloadModel join "/models" (λ _, "Error") "j" "org/m"
            [mkFileSpec "a.gguf" None] 0 2 fetch wire w).2.2
    = disk w.
Proof.
  intros join fetch wire w. split; [reflexivity|].
  exact (proj1 (proj2 (proj2 (proj2
           (X17_repository_unreachable join "/models" (λ _, "Error") "j"
              "org/m" [mkFileSpec "a.gguf" None] 0 2 fetch wire w
              (mkError "fetch failed") eq_refl))))).
Defined.

(** ** The loop over the files *)














Section Accounting.

Variable join : string → string → string.
Variable modelsDir : string.
Variable error_name : Error → string.



End Accounting.


(** ** Files the server does not send *)





Lemma prepared_world jid repo t0 items w :
  disk (prepared jid repo t0 items w) = disk w
  ∧ dirs (prepared jid repo t0 items w) = dirs w
  ∧ (∀ dir, existsSync dir (prepared jid repo t0 items w) = existsSync dir w).
Proof. repeat split. Qed.



Lemma on_failure_failed name e j :
  message e ≠ "Download cancelled" → name ≠ "AbortError" →
  on_failure name e j = set_error (Some (message e)) (set_status FAILED j).
Proof.
  intros Hm Hn. unfold on_failure.
  rewrite (bool_decide_eq_false_2 _ Hm), (bool_decide_eq_false_2 _ Hn).
  reflexivity.
Qed.



Section Stops.

Variable join : string → string → string.
Variable modelsDir : string.
Variable error_name : Error → string.


End Stops.





Section Failing.

Variable join : string → string → string.
Variable modelsDir : string.
Variable error_name : Error → string.



End Failing.





Section Completing.

Variable join : string → string → string.
Variable modelsDir : string.
Variable error_name : Error → string.




End Completing.



(** ** The job table *)

Lemma keyed_insert id job w :
  well_keyed w → dj_id job = id →
  well_keyed (set_jobs (<[id := job]> (downloadJobs w)) w).
Proof.
  intros Hk Hid id' job'. cbn [downloadJobs set_jobs].
  destruct (decide (id' = id)) as [->|Hne].
  - rewrite lookup_insert_eq. intros [= <-]. exact Hid.
  - rewrite lookup_insert_ne by congruence. apply Hk.
Qed.

Lemma keyed_jobs w w' :
  downloadJobs w' = downloadJobs w → well_keyed w → well_keyed w'.
Proof. unfold well_keyed. intros ->. auto. Qed.

Lemma update_job_keyed id f w :
  (∀ j, dj_id (f j) = dj_id j) → well_keyed w → well_keyed (update_job id f w).
Proof.
  intros Hf Hk. unfold update_job.
  destruct (downloadJobs w !! id) as [job|] eqn:Hj; [|exact Hk].
  apply keyed_insert; [exact Hk|]. rewrite Hf. apply (Hk _ _ Hj).
Qed.

Lemma abort_id job : dj_id (abort job) = dj_id job.
Proof. unfold abort. destruct (dj_abortController job); reflexivity. Qed.

Lemma cancel_keyed id w : well_keyed w → well_keyed (cancelDownload id w).2.
Proof.
  intros Hk. unfold cancelDownload.
  destruct (downloadJobs w !! id) as [job|] eqn:Hj; [|exact Hk].
  destruct (decide (dj_status job = COMPLETED)); [exact Hk|].
  cbn [snd]. eapply keyed_jobs; [reflexivity|].
  apply keyed_insert; [exact Hk|].
  cbn [dj_id set_status]. rewrite abort_id. apply (Hk _ _ Hj).
Qed.

Lemma pause_keyed now id w : well_keyed w → well_keyed (pauseDownload now id w).2.
Proof.
  intros Hk. unfold pauseDownload.
  destruct (downloadJobs w !! id) as [job|] eqn:Hj; [|exact Hk].
  destruct (decide (dj_status job = DOWNLOADING)); [|exact Hk].
  cbn [snd]. apply keyed_insert; [exact Hk|].
  cbn [dj_id set_status]. rewrite abort_id. apply (Hk _ _ Hj).
Qed.

Lemma resume_keyed id w : well_keyed w → well_keyed (resumeDownload id w).2.
Proof.
  intros Hk. unfold resumeDownload.
  destruct (downloadJobs w !! id) as [job|] eqn:Hj; [|exact Hk].
  destruct (decide (dj_status job = PAUSED)); [|exact Hk].
  destruct (decide (_ = 0%nat)); cbn [snd];
    (apply keyed_insert; [exact Hk | apply (Hk _ _ Hj)]).
Qed.

Lemma cleanup_keyed now maxAge w :
  well_keyed w → well_keyed (cleanupOldJobs now maxAge w).2.
Proof.
  intros Hk id job. cbn [cleanupOldJobs snd downloadJobs set_jobs].
  rewrite foldl_delete_lookup. case_decide; [discriminate | apply Hk].
Qed.

Lemma downloadFile_keyed a wire w :
  well_keyed w → well_keyed (downloadFile a wire w).2.2.
Proof. apply keyed_jobs, downloadFile_jobs. Qed.

Lemma set_failed_id msg j : dj_id (set_failed msg j) = dj_id j.
Proof. reflexivity. Qed.

Lemma on_failure_id name e j : dj_id (on_failure name e j) = dj_id j.
Proof. unfold on_failure. destruct (_ || _); reflexivity. Qed.

Lemma download_files_keyed jid total wire items :
  ∀ i results w,
  well_keyed w →
  well_keyed (download_files jid total wire items i results w).2.2.
Proof.
  induction items as [|file items IH]; intros i results w Hk; [exact Hk|].
  cbn [download_files].
  pose proof (downloadFile_keyed
                (mkArgs (it_url file) (it_destinationPath file) jid
                   (Z.of_nat i) total) wire w Hk) as Hk'.
  destruct (downloadFile _ _ _).2.1 as [result|e]; cbn [snd].
  - apply IH, Hk'.
  - unfold file_failed. apply update_job_keyed; [apply set_failed_id | exact Hk'].
Qed.

Section JobTable.

Variable join : string → string → string.
Variable modelsDir : string.
Variable error_name : Error → string.

Lemma downloadModel_keyed jid repo files t0 t1 fetch wire w :
  well_keyed w →
  well_keyed (downloadModel join modelsDir error_name jid repo files t0 t1
                fetch wire w).2.2.
Proof.
  intros Hk. unfold downloadModel.
  set (w0 := set_jobs _ w).
  assert (Hk0 : well_keyed w0) by (apply keyed_insert; [exact Hk | reflexivity]).
  assert (Hk1 : well_keyed (update_job jid (set_status DOWNLOADING) w0))
    by (apply update_job_keyed; [reflexivity | exact Hk0]).
  destruct (getHuggingFaceModelInfo fetch repo).2 as [data|e]; cbn [snd].
  - match goal with
    | |- context [download_files ?a ?b ?c ?d ?e ?f ?g] =>
        pose proof (download_files_keyed a b c d e f g) as Hloop;
        destruct (download_files a b c d e f g).2.1 as [results|e']
    end; cbn [snd].
    + apply update_job_keyed; [reflexivity|]. apply Hloop.
      apply update_job_keyed; [reflexivity | exact Hk1].
    + apply update_job_keyed; [apply on_failure_id|]. apply Hloop.
      apply update_job_keyed; [reflexivity | exact Hk1].
  - apply update_job_keyed; [apply on_failure_id|].
    apply update_job_keyed; [apply set_failed_id | exact Hk1].
Qed.

Lemma perform_keyed w op :
  well_keyed w → well_keyed (perform join modelsDir error_name w op).
Proof.
  intros Hk. destruct op; cbn [perform].
  - apply downloadModel_keyed, Hk.
  - apply cancel_keyed, Hk.
  - apply pause_keyed, Hk.
  - apply resume_keyed, Hk.
  - apply cleanup_keyed, Hk.
Qed.

(** X27: whatever downloads, cancellations, pauses, resumptions and
    clean-ups the service has carried out, starting with an empty table,
    every job is stored under its own id, so [getAllJobs] returns one
    status per job of the table, none of them [null], each with the id,
    the repository and the status of its job. *)
Theorem X27_all_jobs_listed
    (ops : list Op) (d : gmap string (list byte)) (u ds : gset string)
    (um : gmap string Error) :
  let w := foldl (perform join modelsDir error_name) (mkWorld ∅ d u ds um)
             ops in
  well_keyed w
  ∧ Forall2 (λ entry view,
               ∃ v, view = Some v ∧ v_id v = entry.1
                    ∧ v_status v = dj_status entry.2
                    ∧ v_repo v = dj_repo entry.2)
      (map_to_list (downloadJobs w)) (getAllJobs w).
Proof.
  cbn zeta.
  assert (Hk : well_keyed
                 (foldl (perform join modelsDir error_name)
                    (mkWorld ∅ d u ds um) ops)).
  { assert (H0 : well_keyed (mkWorld ∅ d u ds um))
      by (intros id job H; cbn [downloadJobs] in H;
          rewrite lookup_empty in H; discriminate).
    revert H0. generalize (mkWorld ∅ d u ds um) as w.
    induction ops as [|op ops IH]; intros w H0; [exact H0|].
    apply IH, perform_keyed, H0. }
  split; [exact Hk|].
  unfold getAllJobs. rewrite <- list_fmap_compose.
  apply Forall2_fmap_r, Forall_Forall2_diag, Forall_forall.
  intros [id job] Hin. apply elem_of_map_to_list in Hin.
  cbn [compose fst snd]. rewrite (Hk _ _ Hin).
  unfold getDownloadStatus. rewrite Hin.
  destruct (totals (dj_files job)) as [dl sz]. eexists.
  split; [reflexivity|]. cbn [v_id v_status v_repo].
  split; [apply (Hk _ _ Hin) | split; reflexivity].
Qed.

End JobTable.

(** ** Pausing and cancelling while a request is pending *)

Lemma cancel_removes id w job path file :
  downloadJobs w !! id = Some job → dj_status job ≠ COMPLETED →
  dj_files job !! path = Some file → f_complete file = false →
  path ∉ undeletable w →
  disk (cancelDownload id w).2 !! path = None.
Proof.
  intros Hjob Hst Hf Hc Hb. unfold cancelDownload. rewrite Hjob.
  destruct (decide (dj_status job = COMPLETED)); [contradiction|].
  cbn [fst snd set_disk set_jobs disk undeletable downloadJobs].
  rewrite unlink_partial_exact.
  cbn [dj_files set_status]. rewrite abort_files, Hf, Hc.
  rewrite bool_decide_eq_true_2 by exact Hb. reflexivity.
Qed.

(** The two handlers of a failure, for an error that is no
    cancellation. *)
Lemma rejected_failed name id file e w job :
  downloadJobs w !! id = Some job →
  message e ≠ "Download cancelled" → name ≠ "AbortError" →
  let out := downloadModel_rejected name id file e w in
  out.1 = Throw e
  ∧ downloadJobs out.2 !! id
    = Some (set_error (Some (message e)) (set_status FAILED job))
  ∧ disk out.2 = disk w.
Proof.
  intros Hj Hm Hn. cbn zeta. unfold downloadModel_rejected, file_failed.
  cbn [fst snd].
  destruct (update_job_lookup id
              (set_failed ("Failed to download " +:+ it_originalPath file
                           +:+ ": " +:+ message e)) w job Hj)
    as (H1 & Hd1 & _).
  destruct (update_job_lookup id (on_failure name e) _ _ H1)
    as (H2 & Hd2 & _).
  split; [reflexivity|].
  split; [rewrite H2, (on_failure_failed _ _ _ Hm Hn); reflexivity|].
  congruence.
Qed.

Lemma begin_fetch_grown a w request s w1 :
  downloadFile_begin a false w = BeginFetch request s w1 → grown w w1.
Proof.
  intros H. pose proof (begin_jobs a false w) as Hb. rewrite H in Hb.
  exact Hb.
Qed.

(** X25: a pause does not last.  Called while the request for a file of
    a downloading job is pending, [pauseDownload] sets the job [PAUSED]
    and aborts its controller, which the pending request does not heed.
    When the request is then answered with a 2xx or 206 status,
    [downloadFile] throws its [TypeError], and the two handlers of
    [downloadModel] overwrite the status: the job ends [FAILED] with the
    message of that error, [pausedAt] still set and its files as they
    were, and [resumeDownload] refuses it as not paused. *)
Theorem X25_pause_ends_failed
    (now : Z) (a : Args) (file : Item) (w w1 : World) (job : DownloadJob)
    (request : Request) (s : Z) (response : FileResponse) :
  downloadJobs w !! jobId a = Some job → dj_status job = DOWNLOADING →
  dj_abortController job = Some false →
  downloadFile_begin a false w = BeginFetch request s w1 →
  fr_ok response = true ∨ fr_status response = 206 →
  let err := if fr_body response then fromWeb_error else getReader_error in
  let w2 := (pauseDownload now (jobId a) w1).2 in
  let settled := downloadFile_settle a s (WireAnswer response) w2 in
  let out := downloadModel_rejected "TypeError" (jobId a) file err
               settled.2 in
  (pauseDownload now (jobId a) w1).1 = Return ()
  ∧ (dj_status <$> downloadJobs w2 !! jobId a) = Some PAUSED
  ∧ (dj_abortController <$> downloadJobs w2 !! jobId a) = Some (Some true)
  ∧ settled.1 = Throw err
  ∧ out.1 = Throw err
  ∧ (∃ job2,
       downloadJobs out.2 !! jobId a = Some job2
       ∧ dj_status job2 = FAILED
       ∧ dj_error job2 = Some (message err)
       ∧ dj_pausedAt job2 = Some now
       ∧ dj_files job2 = dj_files job)
  ∧ (resumeDownload (jobId a) out.2).1
    = Throw (mkError "Can only resume paused downloads").
Proof.
  intros Hjob Hst Hctl Hbegin Hok err w2 settled out.
  destruct (begin_fetch_grown _ _ _ _ _ Hbegin) as (Hj1 & _).
  assert (Hjob1 : downloadJobs w1 !! jobId a = Some job)
    by (rewrite Hj1; exact Hjob).
  assert (Hpause : pauseDownload now (jobId a) w1
                   = (Return (),
                      set_jobs
                        (<[jobId a
                           := mkDownloadJob (dj_id job) (dj_repo job) PAUSED
                                (dj_files job) (dj_progress job)
                                (dj_bytesDownloaded job) (dj_totalBytes job)
                                (dj_speed job) (dj_eta job) (dj_startTime job)
                                (dj_error job) (Some true)
                                (dj_completedAt job) (Some now)]>
                           (downloadJobs w1)) w1)).
  { unfold pauseDownload. rewrite Hjob1.
    destruct (decide (dj_status job = DOWNLOADING)); [|contradiction].
    unfold abort. rewrite Hctl. reflexivity. }
  assert (Hsettled : settled
                     = (Throw err,
                        set_disk
                          (createWriteStream (destinationPath a)
                             (if s >? 0 then flag_a else flag_w) (disk w2))
                          w2)).
  { unfold settled, downloadFile_settle. apply served_throws, Hok. }
  unfold out. rewrite Hsettled. cbn [fst snd].
  unfold w2. rewrite Hpause. cbn [fst snd].
  set (paused := mkDownloadJob _ _ PAUSED _ _ _ _ _ _ _ _ _ _ _).
  set (w3 := set_disk _ _).
  assert (Hjob3 : downloadJobs w3 !! jobId a = Some paused)
    by apply lookup_insert_eq.
  destruct (rejected_failed "TypeError" (jobId a) file err w3 paused Hjob3
              (type_error_not_cancelled (fr_body response))
              ltac:(discriminate)) as (Hthrow & Hl & _).
  cbn zeta in Hthrow, Hl.
  split; [reflexivity|].
  split; [cbn [set_jobs downloadJobs]; rewrite lookup_insert_eq; reflexivity|].
  split; [cbn [set_jobs downloadJobs]; rewrite lookup_insert_eq; reflexivity|].
  split; [reflexivity|]. split; [exact Hthrow|].
  split; [eexists; split; [exact Hl|]; repeat split|].
  unfold resumeDownload. rewrite Hl. reflexivity.
Qed.

(** The hypotheses of [X25_pause_ends_failed] hold of a job paused while
    the request for its first file is pending. *)
Lemma X25_pause_ends_failed_witness :
  let a := mkArgs "https://huggingface.co/org%2Fm/resolve/main/a.gguf"
             "/models/a.gguf" "j" 0 1 in
  let job := mkDownloadJob "j" "org/m" DOWNLOADING
               {["/models/a.gguf" := untouched]}
               0 0 0 0 0 0 None (Some false) None None in
  let w := mkWorld {["j" := job]} ∅ ∅ {["/models"]} ∅ in
  let file := mkItem (url a) "/models/a.gguf" "a.gguf" in
  let response := mkFileResponse 200 true in
  let w2 := (pauseDownload 7 "j" w).2 in
  let out := downloadModel_rejected "TypeError" "j" file fromWeb_error
               (downloadFile_settle a 0 (WireAnswer response) w2).2 in
  downloadJobs w !! jobId a = Some job ∧ dj_status job = DOWNLOADING
  ∧ downloadFile_begin a false w
    = BeginFetch (mkRequest (url a) (Some "GET") []) 0 w
  ∧ (dj_status <$> downloadJobs w2 !! "j") = Some PAUSED
  ∧ (dj_status <$> downloadJobs out.2 !! "j") = Some FAILED.
Proof.
  intros a job w file response w2 out.
  assert (Hjob : downloadJobs w !! jobId a = Some job)
    by apply lookup_singleton_eq.
  assert (Hbegin : downloadFile_begin a false w
                   = BeginFetch (mkRequest (url a) (Some "GET") []) 0 w)
    by reflexivity.
  split; [exact Hjob|]. split; [reflexivity|]. split; [exact Hbegin|].
  destruct (X25_pause_ends_failed 7 a file w w job _ 0 response Hjob eq_refl
              eq_refl Hbegin (or_introl eq_refl))
    as (_ & Hpaused & _ & _ & _ & (job2 & Hl & Hst & _) & _).
  split; [exact Hpaused|].
  etransitivity; [exact (f_equal (fmap dj_status) Hl)|].
  cbn [fmap option_fmap option_map]. rewrite Hst. reflexivity.
Defined.

(** X26: cancelling while the request for a partial file is pending
    leaves an empty file behind and a job that is not [CANCELLED].
    [cancelDownload] aborts the controller, sets the job [CANCELLED] and
    removes the partial file, but the request does not carry the signal:
    when it is answered with a 2xx or 206 status, [downloadFile] opens the
    destination, which creates it anew and empty, and throws its
    [TypeError]; the two handlers of [downloadModel] then set the job
    [FAILED] with the message of that error, and the empty file stays on
    disk. *)
Theorem X26_cancel_while_request_pending
    (a : Args) (file : Item) (w w1 : World) (job : DownloadJob)
    (fp : FileProgress) (content : list byte) (request : Request) (s : Z)
    (response : FileResponse) :
  downloadJobs w !! jobId a = Some job → dj_status job ≠ COMPLETED →
  dj_abortController job = Some false →
  dj_files job !! destinationPath a = Some fp → f_complete fp = false →
  disk w !! destinationPath a = Some content →
  (destinationPath a ∉ undeletable w) →
  downloadFile_begin a false w = BeginFetch request s w1 →
  fr_ok response = true ∨ fr_status response = 206 →
  let err := if fr_body response then fromWeb_error else getReader_error in
  let w2 := (cancelDownload (jobId a) w1).2 in
  let settled := downloadFile_settle a s (WireAnswer response) w2 in
  let out := downloadModel_rejected "TypeError" (jobId a) file err
               settled.2 in
  (dj_status <$> downloadJobs w2 !! jobId a) = Some CANCELLED
  ∧ (dj_abortController <$> downloadJobs w2 !! jobId a) = Some (Some true)
  ∧ disk w2 !! destinationPath a = None
  ∧ settled.1 = Throw err
  ∧ disk out.2 !! destinationPath a = Some []
  ∧ (dj_status <$> downloadJobs out.2 !! jobId a) = Some FAILED
  ∧ (dj_error <$> downloadJobs out.2 !! jobId a) = Some (Some (message err)).
Proof.
  intros Hjob Hst Hctl Hfp Hc Hfile Hdel Hbegin Hok err w2 settled out.
  destruct (begin_fetch_grown _ _ _ _ _ Hbegin) as (Hj1 & Hd1 & Hu1 & _).
  assert (Hjob1 : downloadJobs w1 !! jobId a = Some job)
    by (rewrite Hj1; exact Hjob).
  destruct (cancel_active (jobId a) w1 job Hjob1 Hst) as (_ & Hl2).
  fold w2 in Hl2.
  assert (Hgone : disk w2 !! destinationPath a = None).
  { apply (cancel_removes (jobId a) w1 job _ fp Hjob1 Hst Hfp Hc).
    rewrite Hu1. exact Hdel. }
  assert (Hsettled : settled
                     = (Throw err,
                        set_disk
                          (createWriteStream (destinationPath a)
                             (if s >? 0 then flag_a else flag_w) (disk w2))
                          w2)).
  { unfold settled, downloadFile_settle. apply served_throws, Hok. }
  assert (Hempty : createWriteStream (destinationPath a)
                     (if s >? 0 then flag_a else flag_w) (disk w2)
                   !! destinationPath a = Some []).
  { unfold createWriteStream. destruct (s >? 0); [rewrite Hgone|];
      apply lookup_insert_eq. }
  set (w3 := set_disk _ w2) in Hsettled.
  assert (Hjob3 : downloadJobs w3 !! jobId a
                  = Some (set_status CANCELLED (abort job))) by exact Hl2.
  destruct (rejected_failed "TypeError" (jobId a) file err w3 _ Hjob3
              (type_error_not_cancelled (fr_body response))
              ltac:(discriminate)) as (_ & Hl & Hd).
  cbn zeta in Hl, Hd.
  split; [rewrite Hl2; reflexivity|].
  split; [rewrite Hl2; unfold abort; rewrite Hctl; reflexivity|].
  split; [exact Hgone|].
  unfold out. rewrite Hsettled. cbn [fst snd].
  split; [reflexivity|].
  split; [rewrite Hd; exact Hempty|].
  rewrite Hl. split; reflexivity.
Qed.

(** The hypotheses of [X26_cancel_while_request_pending] hold of a job
    cancelled while the request that resumes its partial file is
    pending. *)
Lemma X26_cancel_while_request_pending_witness :
  let a := mkArgs "https://huggingface.co/org%2Fm/resolve/main/a.gguf"
             "/models/a.gguf" "j" 0 1 in
  let job := mkDownloadJob "j" "org/m" DOWNLOADING
               {["/models/a.gguf" := untouched]}
               0 0 0 0 0 0 None (Some false) None None in
  let w := mkWorld {["j" := job]} {["/models/a.gguf" := [x00; x01]]} ∅
             {["/models"]} ∅ in
  let file := mkItem (url a) "/models/a.gguf" "a.gguf" in
  let response := mkFileResponse 206 true in
  let w2 := (cancelDownload "j" w).2 in
  let out := downloadModel_rejected "TypeError" "j" file fromWeb_error
               (downloadFile_settle a 2 (WireAnswer response) w2).2 in
  downloadJobs w !! jobId a = Some job
  ∧ disk w !! destinationPath a = Some [x00; x01]
  ∧ (destinationPath a ∉ undeletable w)
  ∧ downloadFile_begin a false w
    = BeginFetch (mkRequest (url a) (Some "GET") [("Range", "bytes=2-")]) 2 w
  ∧ disk w2 !! "/models/a.gguf" = None
  ∧ disk out.2 !! "/models/a.gguf" = Some []
  ∧ (dj_status <$> downloadJobs out.2 !! "j") = Some FAILED.
Proof.
  intros a job w file response w2 out.
  assert (Hjob : downloadJobs w !! jobId a = Some job)
    by apply lookup_singleton_eq.
  assert (Hfile : disk w !! destinationPath a = Some [x00; x01])
    by apply lookup_singleton_eq.
  assert (Hdel : destinationPath a ∉ undeletable w) by set_solver.
  assert (Hbegin : downloadFile_begin a false w
                   = BeginFetch
                       (mkRequest (url a) (Some "GET")
                          [("Range", "bytes=2-")]) 2 w)
    by reflexivity.
  split; [exact Hjob|]. split; [exact Hfile|]. split; [exact Hdel|].
  split; [exact Hbegin|].
  destruct (X26_cancel_while_request_pending a file w w job untouched
              [x00; x01] _ 2 response Hjob ltac:(discriminate) eq_refl
              (lookup_singleton_eq _ _) eq_refl Hfile Hdel Hbegin
              (or_intror eq_refl))
    as (_ & _ & Hgone & _ & Hempty & Hfailed & _).
  split; [exact Hgone|]. split; [exact Hempty | exact Hfailed].
Defined.

End DownloadServiceFacts.
